(** * polaris: the configuration-file release cache (cache/config_file.go)

    A shallow embedding of [FileCache] and of the operations on it.  The Go
    code is written once, as a program over the atomic actions it performs on
    shared objects ([sync.Map], [sync.Mutex], the package-level counters, the
    storage collaborator, the clock, the random source and the logger).  The
    program is then given two semantics: a sequential one ([run]), and an
    interleaving one over a pool of goroutines ([pool_step]).

    The file has the data model and the Go functions first, then the
    semantics and the notions the statements use, then the lemmas and the
    theorems, and last some runs on concrete inputs. *)

From stdpp Require Import base gmap strings list fin_maps.
From stdpp Require Import relations.
From Stdlib Require Import ZArith Lia Ascii.

(** ** Go base types *)

(** Go's [int] (64 bits on the platforms polaris targets): arithmetic wraps
    around in two's complement. *)
Definition wrap_int (z : Z) : Z := ((z + 2 ^ 63) `mod` 2 ^ 64 - 2 ^ 63)%Z.

(** Go's [error]: the cache only passes it on, so a message is enough. *)
Definition error : Type := string.

Module time.
(** [time.Time] as nanoseconds since the epoch, [time.Duration] as an
    [int64] count of nanoseconds. *)
Definition Time : Type := Z.
Definition Duration : Type := Z.
Definition Second : Duration := 1000000000%Z.
Definition Minute : Duration := (60 * Second)%Z.
Definition Hour : Duration := (60 * Minute)%Z.
(** [d * e] on [Duration], an [int64] product. *)
Definition mul (d e : Duration) : Duration := wrap_int (d * e).
(** [t.Add(d)] *)
Definition Add (t : Time) (d : Duration) : Time := (t + d)%Z.
(** [t.After(u)]: t is strictly later than u. *)
Definition After (t u : Time) : bool := bool_decide (u < t)%Z.
(** [t.Sub(u)] *)
Definition Sub (t u : Time) : Duration := (t - u)%Z.
End time.

Module model.
(** Modelled from the spec: [model.ConfigFileRelease] is declared in
    common/model, outside this file; the record carries content, checksum
    and version plus the (namespace, group, fileName) identity, which are
    the fields the cache reads. *)
Record ConfigFileRelease : Type := {
  Namespace : string;
  Group : string;
  FileName : string;
  Content : string;
  Md5 : string;
  Version : N
}.
End model.

(** ** Constants and the entry type *)

Definition BaseExpireTimeAfterWrite : Z := (60 * 60)%Z.
Definition FileIdSeparator : string := "+".

Record Entry : Type := {
  Content : string;
  Md5 : string;
  Version : N;              (* uint64: only ever compared *)
  ExpireTime : time.Time;
  Empty : bool
}.

(** The package-level counters. *)
Inductive Counter : Type := putCnt | loadCnt | getCnt | removeCnt | expireCnt.

#[global] Instance Counter_eq_dec : EqDecision Counter.
Proof. solve_decision. Defined.

(** [FileCache]: [files] maps a file id to its entry, [fileLoadLocks] maps a
    file id to its load mutex ([true]: locked).  The [storage] field is the
    collaborator [store.Store]: what it answers is the variable [storage] of
    the section [Cache]. *)
Record FileCache : Type := {
  files : gmap string Entry;
  fileLoadLocks : gmap string bool
}.

(** A [sync.Mutex] pointer taken out of [fileLoadLocks] is named by the file id it
    is registered under. *)
Abbreviation MutexRef := string (only parsing).

(** What [storage.GetConfigFileRelease] answers: [(file, err)], each of them
    possibly nil. *)
Definition StoreReply : Type := (option model.ConfigFileRelease * option error)%type.

(** The (namespace, group, fileName) arguments of a storage call. *)
Definition FileKey : Type := (string * string * string)%type.

(** Modelled from the spec: the logging collaborator (common/log with zap
    fields) is outside this file and nothing it returns is used; a call on it
    is recorded as the line it is handed, with its named fields. *)
Inductive LogLine : Type :=
  | LogLoadError (namespace group fileName : string) (err : error)
  | LogClearExpired (count : Z)
  | LogCacheStatus (nGet nPut nLoad nRemove nExpire : Z).

(** ** The world a goroutine acts on *)

(** The cache, the package-level counters, what was logged, how often the
    clock and the random source were consulted, and the calls on the storage
    collaborator: all of them, and those that have not returned yet (each
    with the index of the call as its ticket). *)
Record World : Type := {
  fc : FileCache;
  vars : Counter -> Z;
  logged : list LogLine;          (* latest first *)
  clockReads : nat;               (* calls of time.Now so far *)
  randDraws : nat;                (* calls of rand.Intn so far *)
  storageCalls : list FileKey;    (* storage invocations so far, latest first *)
  storageInFlight : list (nat * FileKey)  (* invoked, not yet returned *)
}.

Definition set_files (m : gmap string Entry) (w : World) : World :=
  {| fc := {| files := m; fileLoadLocks := fileLoadLocks (fc w) |};
     vars := vars w; logged := logged w; clockReads := clockReads w;
     randDraws := randDraws w; storageCalls := storageCalls w;
     storageInFlight := storageInFlight w |}.

Definition set_locks (m : gmap string bool) (w : World) : World :=
  {| fc := {| files := files (fc w); fileLoadLocks := m |};
     vars := vars w; logged := logged w; clockReads := clockReads w;
     randDraws := randDraws w; storageCalls := storageCalls w;
     storageInFlight := storageInFlight w |}.

Definition set_var (c : Counter) (v : Z) (w : World) : World :=
  {| fc := fc w;
     vars := fun c' => if decide (c' = c) then v else vars w c';
     logged := logged w; clockReads := clockReads w;
     randDraws := randDraws w; storageCalls := storageCalls w;
     storageInFlight := storageInFlight w |}.

Definition add_log (l : LogLine) (w : World) : World :=
  {| fc := fc w; vars := vars w; logged := l :: logged w;
     clockReads := clockReads w; randDraws := randDraws w;
     storageCalls := storageCalls w; storageInFlight := storageInFlight w |}.

Definition tick_clock (w : World) : World :=
  {| fc := fc w; vars := vars w; logged := logged w;
     clockReads := S (clockReads w); randDraws := randDraws w;
     storageCalls := storageCalls w; storageInFlight := storageInFlight w |}.

Definition tick_rand (w : World) : World :=
  {| fc := fc w; vars := vars w; logged := logged w;
     clockReads := clockReads w; randDraws := S (randDraws w);
     storageCalls := storageCalls w; storageInFlight := storageInFlight w |}.

Definition begin_call (k : FileKey) (w : World) : World :=
  {| fc := fc w; vars := vars w; logged := logged w;
     clockReads := clockReads w; randDraws := randDraws w;
     storageCalls := k :: storageCalls w;
     storageInFlight := (length (storageCalls w), k) :: storageInFlight w |}.

Definition end_call (ticket : nat) (w : World) : World :=
  {| fc := fc w; vars := vars w; logged := logged w;
     clockReads := clockReads w; randDraws := randDraws w;
     storageCalls := storageCalls w;
     storageInFlight := filter (fun c => c.1 ≠ ticket) (storageInFlight w) |}.

(** ** Atomic actions and programs *)

(** One constructor per action on a shared object; the index is the type of
    what the action returns.  [files_Range] is the enumeration behind
    [Range]: every entry once, in an order Go leaves open (here that of
    [map_to_list]).  A storage call is two actions, its invocation and its
    return, so that other goroutines can run while it is in flight. *)
Inductive Op : Type -> Type :=
  | files_Load (key : string) : Op (option Entry)
  | files_Store (key : string) (e : Entry) : Op unit
  | files_Delete (key : string) : Op unit
  | files_Range : Op (list (string * Entry))
  | fileLoadLocks_LoadOrStore (key : string) : Op MutexRef
  | mutex_Lock (m : MutexRef) : Op unit
  | mutex_Unlock (m : MutexRef) : Op unit
  | var_Load (c : Counter) : Op Z
  | var_Store (c : Counter) (v : Z) : Op unit
  | storage_Invoke (namespace group fileName : string) : Op nat
  | storage_Await (ticket : nat) (namespace group fileName : string) : Op StoreReply
  | rand_Intn (n : Z) : Op Z
  | time_Now : Op time.Time
  | log_Write (l : LogLine) : Op unit.

(** A program: it returns, or performs an action and goes on with its
    answer.  The cache has no unbounded loop outside the two background
    tasks, whose tick bodies are programs. *)
Inductive Prog (A : Type) : Type :=
  | Ret (a : A)
  | Act {R : Type} (op : Op R) (k : R -> Prog A).
Arguments Ret {A} a.
Arguments Act {A R} op k.

Fixpoint prog_bind {A B : Type} (f : A -> Prog B) (p : Prog A) : Prog B :=
  match p with
  | Ret a => f a
  | Act op k => Act op (fun r => prog_bind f (k r))
  end.

#[global] Instance Prog_ret : MRet Prog := @Ret.
#[global] Instance Prog_bind : MBind Prog := @prog_bind.

(** An action as a one-step program. *)
Definition act {R : Type} (op : Op R) : Prog R := Act op Ret.

(** What performing an action, or running a program, comes to. *)
Inductive Outcome (A : Type) : Type :=
  | Done (a : A) (w : World)
  | Blocked           (* waiting for a mutex that is held *)
  | Panic.            (* a Go run-time panic or fatal error *)
Arguments Done {A} a w.
Arguments Blocked {A}.
Arguments Panic {A}.

(** ** The cache, as written in config_file.go *)

(** [c++] on a package-level counter: a read, then a write. *)
Definition incr (c : Counter) : Prog unit :=
  v ← act (var_Load c);
  act (var_Store c (wrap_int (v + 1))).

(** [defer cleanup] around the rest of a function body: the results are
    computed, then the cleanup runs, then the function returns. *)
Definition defer {A : Type} (cleanup : Prog unit) (body : Prog A) : Prog A :=
  r ← body;
  cleanup;;
  mret r.

(** [m.Range(f)] for a callback that updates the locals [S] it captures and
    says whether to go on. *)
Fixpoint forEach {S : Type} (f : string -> Entry -> S -> Prog (S * bool))
    (l : list (string * Entry)) (s : S) : Prog S :=
  match l with
  | [] => mret s
  | (key, value) :: l' =>
      '(s', continue) ← f key value s;
      if continue : bool then forEach f l' s' else mret s'
  end.

Definition files_RangeWith {S : Type} (f : string -> Entry -> S -> Prog (S * bool))
    (s : S) : Prog S :=
  l ← act files_Range;
  forEach f l s.

Definition NewFileCache : FileCache :=
  {| files := ∅; fileLoadLocks := ∅ |}.

Definition GenFileId (namespace group fileName : string) : string :=
  namespace +:+ FileIdSeparator +:+ group +:+ FileIdSeparator +:+ fileName.

Definition getExpireTime : Prog time.Time :=
  r ← act (rand_Intn (10 * 60));
  let randTime := wrap_int (r + BaseExpireTimeAfterWrite) in
  now ← act time_Now;
  mret (time.Add now (time.mul randTime time.Second)).

Definition newEntry (content md5 : string) (version : N) : Prog Entry :=
  t ← getExpireTime;
  mret {| Content := content; Md5 := md5; Version := version;
          ExpireTime := t; Empty := false |}.

Definition Get (namespace group fileName : string) : Prog (option Entry) :=
  let fileId := GenFileId namespace group fileName in
  storedEntry ← act (files_Load fileId);
  match storedEntry with
  | Some entry => mret (Some entry)
  | None => mret None
  end.

Definition Put (file : model.ConfigFileRelease) : Prog unit :=
  incr putCnt;;
  let fileId := GenFileId (model.Namespace file) (model.Group file) (model.FileName file) in
  storedEntry ← Get (model.Namespace file) (model.Group file) (model.FileName file);
  if match storedEntry with
     | None => true
     | Some storedEntry => Empty storedEntry || (Version storedEntry <? model.Version file)%N
     end
  then
    entry ← newEntry (model.Content file) (model.Md5 file) (model.Version file);
    act (files_Store fileId entry)
  else mret tt.

(** [GetOrLoadIfAbsent] returns a pair: the entry pointer and the error. *)
Definition GetOrLoadIfAbsent (namespace group fileName : string)
    : Prog (option Entry * option error) :=
  incr getCnt;;
  let fileId := GenFileId namespace group fileName in
  storedEntry ← act (files_Load fileId);
  match storedEntry with
  | Some entry => mret (Some entry, None)
  | None =>
      loadLock ← act (fileLoadLocks_LoadOrStore fileId);
      act (mutex_Lock loadLock);;
      defer (act (mutex_Unlock loadLock)) (
        storedEntry ← act (files_Load fileId);
        match storedEntry with
        | Some entry => mret (Some entry, None)
        | None =>
            incr loadCnt;;
            ticket ← act (storage_Invoke namespace group fileName);
            '(file, err) ← act (storage_Await ticket namespace group fileName);
            match err with
            | Some err =>
                act (log_Write (LogLoadError namespace group fileName err));;
                mret (None, Some err)
            | None =>
                match file with
                | Some file =>
                    entry ← newEntry (model.Content file) (model.Md5 file) (model.Version file);
                    act (files_Store fileId entry);;
                    mret (Some entry, None)
                | None =>
                    t ← getExpireTime;
                    let emptyEntry :=
                      {| Content := ""; Md5 := ""; Version := 0;
                         ExpireTime := t; Empty := true |} in
                    act (files_Store fileId emptyEntry);;
                    mret (Some emptyEntry, None)
                end
            end
        end)
  end.

Definition Remove (namespace group fileName : string) : Prog unit :=
  incr removeCnt;;
  let fileId := GenFileId namespace group fileName in
  act (files_Delete fileId).

(** The closure [startClearExpireEntryTask] passes to [fc.files.Range]; the
    local it captures, [curExpiredFileCnt], is threaded through. *)
Definition expireVisit (fileId : string) (entry : Entry) (curExpiredFileCnt : Z)
    : Prog (Z * bool) :=
  now ← act time_Now;
  if time.After now (ExpireTime entry) then
    act (files_Delete fileId);;
    mret (wrap_int (curExpiredFileCnt + 1), true)
  else mret (curExpiredFileCnt, true).

(** The body of the [case <-t.C] of [startClearExpireEntryTask]: one tick of
    the sweeper. *)
Definition clearExpireEntryTick : Prog unit :=
  curExpiredFileCnt ← files_RangeWith expireVisit 0%Z;
  (if (0 <? curExpiredFileCnt)%Z
   then act (log_Write (LogClearExpired curExpiredFileCnt))
   else mret tt);;
  v ← act (var_Load expireCnt);
  act (var_Store expireCnt (wrap_int (v + curExpiredFileCnt))).

(** The body of the [case <-t.C] of [startLogStatusTask]. *)
Definition logStatusTick : Prog unit :=
  nGet ← act (var_Load getCnt);
  nPut ← act (var_Load putCnt);
  nLoad ← act (var_Load loadCnt);
  nRemove ← act (var_Load removeCnt);
  nExpire ← act (var_Load expireCnt);
  act (log_Write (LogCacheStatus nGet nPut nLoad nRemove nExpire)).

(** The world right after [NewFileCache] in a fresh process. *)
Definition initWorld : World :=
  {| fc := NewFileCache; vars := fun _ => 0%Z; logged := [];
     clockReads := 0; randDraws := 0; storageCalls := []; storageInFlight := [] |}.

(** * The semantics, and the notions the statements are written in *)

Section Cache.
(** The environment: the [n]-th reading of the clock, the [n]-th draw of
    the random source (a number that [rand.Intn] reduces), and the answer of
    the storage collaborator to its [n]-th call. *)
Variable clock : nat -> time.Time.
Variable randSrc : nat -> Z.
Variable storage : nat -> string -> string -> string -> StoreReply.

(** What each action does to the world, and what it returns. *)
Definition perform {R : Type} (op : Op R) (w : World) : Outcome R :=
  match op in Op R return Outcome R with
  | files_Load key => Done (files (fc w) !! key) w
  | files_Store key e => Done tt (set_files (<[key := e]> (files (fc w))) w)
  | files_Delete key => Done tt (set_files (delete key (files (fc w))) w)
  | files_Range => Done (map_to_list (files (fc w))) w
  | fileLoadLocks_LoadOrStore key =>
      match fileLoadLocks (fc w) !! key with
      | Some _ => Done key w
      | None => Done key (set_locks (<[key := false]> (fileLoadLocks (fc w))) w)
      end
  | mutex_Lock m =>
      match fileLoadLocks (fc w) !! m with
      | Some false => Done tt (set_locks (<[m := true]> (fileLoadLocks (fc w))) w)
      | Some true => Blocked
      | None => Panic      (* a nil mutex *)
      end
  | mutex_Unlock m =>
      match fileLoadLocks (fc w) !! m with
      | Some true => Done tt (set_locks (<[m := false]> (fileLoadLocks (fc w))) w)
      | _ => Panic         (* unlock of unlocked mutex *)
      end
  | var_Load c => Done (vars w c) w
  | var_Store c v => Done tt (set_var c v w)
  | storage_Invoke ns g f => Done (length (storageCalls w)) (begin_call (ns, g, f) w)
  | storage_Await ticket ns g f => Done (storage ticket ns g f) (end_call ticket w)
  | rand_Intn n =>
      if (0 <? n)%Z
      then Done (randSrc (randDraws w) `mod` n)%Z (tick_rand w)
      else Panic           (* invalid argument to Intn *)
  | time_Now => Done (clock (clockReads w)) (tick_clock w)
  | log_Write l => Done tt (add_log l w)
  end.

(** Sequential semantics: one goroutine runs the program to its end. *)
Fixpoint run {A : Type} (p : Prog A) (w : World) : Outcome A :=
  match p with
  | Ret a => Done a w
  | Act op k =>
      match perform op w with
      | Done r w' => run (k r) w'
      | Blocked => Blocked
      | Panic => Panic
      end
  end.

Local Abbreviation exec := run.

(** The world is quiescent when no load mutex is held: the state between two
    calls of a single goroutine. *)
Definition quiescent (w : World) : Prop :=
  ∀ key, fileLoadLocks (fc w) !! key ≠ Some true.

(** ** Expiry and stored entries *)

(** The time to live [getExpireTime] adds to the clock reading, as a function
    of the random draw. *)
Definition ttlOf (r : Z) : time.Duration :=
  time.mul (wrap_int (r `mod` (10 * 60) + BaseExpireTimeAfterWrite)) time.Second.

(** The jitter part of it. *)
Definition jitterOf (r : Z) : time.Duration := (r `mod` (10 * 60) * time.Second)%Z.

(** The entry [newEntry] builds when the clock reads [now] and the random
    source draws [r]. *)
Definition freshEntry (content md5 : string) (version : N)
    (now : time.Time) (r : Z) : Entry :=
  {| Content := content; Md5 := md5; Version := version;
     ExpireTime := time.Add now (ttlOf r); Empty := false |}.

(** Put's guard, on what [Get] returned. *)
Definition putAccepts (storedEntry : option Entry) (file : model.ConfigFileRelease) : bool :=
  match storedEntry with
  | None => true
  | Some storedEntry => Empty storedEntry || (Version storedEntry <? model.Version file)%N
  end.

Definition fileIdOf (file : model.ConfigFileRelease) : string :=
  GenFileId (model.Namespace file) (model.Group file) (model.FileName file).

(** What a load stores, by the reply of the storage collaborator: nothing on
    an error, a positive entry for a record, the negative placeholder when
    there is no record. *)
Definition negativeEntry (now : time.Time) (r : Z) : Entry :=
  {| Content := ""; Md5 := ""; Version := 0;
     ExpireTime := time.Add now (ttlOf r); Empty := true |}.

Definition loadedEntry (reply : StoreReply) (now : time.Time) (r : Z) : option Entry :=
  match reply.2 with
  | Some _ => None
  | None =>
      match reply.1 with
      | Some file =>
          Some (freshEntry (model.Content file) (model.Md5 file) (model.Version file) now r)
      | None => Some (negativeEntry now r)
      end
  end.

(** ** The overwrite rule *)

(** The overwrite rule in the words of the specification: no entry, or a
    negative placeholder, or a strictly greater version.  [putAccepts] above
    is the guard as the code has it. *)
Definition overwriteRule (storedEntry : option Entry) (file : model.ConfigFileRelease) : Prop :=
  storedEntry = None
  ∨ (∃ e, storedEntry = Some e ∧ Empty e = true)
  ∨ (∃ e, storedEntry = Some e ∧ (Version e < model.Version file)%N).

(** A release record with the given identity, content, checksum and version. *)
Definition release (namespace group fileName content md5 : string) (version : N)
    : model.ConfigFileRelease :=
  {| model.Namespace := namespace; model.Group := group; model.FileName := fileName;
     model.Content := content; model.Md5 := md5; model.Version := version |}.

(** ** Jittered expiry *)

(** The jitter rule in the words of the specification: the expiry of a
    write at [now] is [now] plus one hour plus a jitter in [0, 10 minutes). *)
Definition jitteredExpiry (now expireAt : time.Time) : Prop :=
  ∃ jitter : time.Duration,
    (0 <= jitter < 10 * time.Minute)%Z
    ∧ expireAt = time.Add now (time.Hour + jitter)%Z.

(** ** The sweeper *)

(** What a pass of [expireVisit] over the entries [l] does to the map and to
    the local count, the first entry being checked against clock reading
    number [c]. *)
Fixpoint sweep (l : list (string * Entry)) (c : nat) (m : gmap string Entry) (cnt : Z)
    : gmap string Entry * Z :=
  match l with
  | [] => (m, cnt)
  | (fileId, entry) :: l' =>
      if time.After (clock c) (ExpireTime entry)
      then sweep l' (S c) (delete fileId m) (wrap_int (cnt + 1))
      else sweep l' (S c) m cnt
  end.

(** How many entries of [l] the pass finds expired. *)
Fixpoint expiredCount (l : list (string * Entry)) (c : nat) : nat :=
  match l with
  | [] => 0
  | (_, entry) :: l' =>
      (if time.After (clock c) (ExpireTime entry) then 1 else 0) + expiredCount l' (S c)
  end.


(** ** Histories of calls, and the Empty flag *)

(** A call on the cache by its single user, results dropped. *)
Inductive Call : Type :=
  | CallPut (file : model.ConfigFileRelease)
  | CallGet (namespace group fileName : string)
  | CallGetOrLoadIfAbsent (namespace group fileName : string)
  | CallRemove (namespace group fileName : string)
  | TickClearExpire
  | TickLogStatus.

Definition callProg (c : Call) : Prog unit :=
  match c with
  | CallPut file => Put file
  | CallGet namespace group fileName => Get namespace group fileName;; mret tt
  | CallGetOrLoadIfAbsent namespace group fileName =>
      GetOrLoadIfAbsent namespace group fileName;; mret tt
  | CallRemove namespace group fileName => Remove namespace group fileName
  | TickClearExpire => clearExpireEntryTick
  | TickLogStatus => logStatusTick
  end.

(** A history: the calls run one after the other. *)
Fixpoint runCalls (calls : list Call) (w : World) : Outcome unit :=
  match calls with
  | [] => Done tt w
  | c :: calls' =>
      match exec (callProg c) w with
      | Done _ w' => runCalls calls' w'
      | Blocked => Blocked
      | Panic => Panic
      end
  end.

(** An entry flagged Empty has the shape of the negative placeholder. *)
Definition placeholderShape (e : Entry) : Prop :=
  Empty e = true -> Content e = "" ∧ Md5 e = "" ∧ Version e = 0%N.

Definition wellFormed (m : gmap string Entry) : Prop :=
  ∀ key e, m !! key = Some e -> placeholderShape e.

(** ** The key scheme *)

(** Does the string contain the separator character? *)
Fixpoint hasSeparator (s : string) : bool :=
  match s with
  | EmptyString => false
  | String c s' => Ascii.eqb c "+"%char || hasSeparator s'
  end.

(** ** Goroutines: the interleaving semantics *)

(** One goroutine performs its next action, unless it has returned, or its
    action is blocked or panics. *)
Definition thread_step {A : Type} (p : Prog A) (w : World) : option (Prog A * World) :=
  match p with
  | Ret _ => None
  | Act op k =>
      match perform op w with
      | Done r w' => Some (k r, w')
      | Blocked => None
      | Panic => None
      end
  end.

(** A goroutine whose next action panics. *)
Definition thread_panics {A : Type} (p : Prog A) (w : World) : bool :=
  match p with
  | Ret _ => false
  | Act op k =>
      match perform op w with
      | Panic => true
      | _ => false
      end
  end.

Definition returned {A : Type} (p : Prog A) : bool :=
  match p with
  | Ret _ => true
  | Act _ _ => false
  end.

(** The pool of goroutines takes a step when one of them does. *)
Inductive pool_step {A : Type} : list (Prog A) * World -> list (Prog A) * World -> Prop :=
  | pool_step_thread (pool : list (Prog A)) (w : World) (i : nat)
      (p p' : Prog A) (w' : World) :
      pool !! i = Some p ->
      thread_step p w = Some (p', w') ->
      pool_step (pool, w) (<[i := p']> pool, w').

(** A schedule names the goroutine to step next; [run_schedule] follows it. *)
Fixpoint run_schedule {A : Type} (sched : list nat) (pool : list (Prog A)) (w : World)
    : option (list (Prog A) * World) :=
  match sched with
  | [] => Some (pool, w)
  | i :: sched' =>
      match pool !! i with
      | None => None
      | Some p =>
          match thread_step p w with
          | None => None
          | Some (p', w') => run_schedule sched' (<[i := p']> pool) w'
          end
      end
  end.

(** *** GetOrLoadIfAbsent, stage by stage *)

Definition keyId (k : FileKey) : string := GenFileId k.1.1 k.1.2 k.2.

(** Where a goroutine stands inside GetOrLoadIfAbsent: the action it is
    about to perform, with the locals that are live there. *)
Inductive Stage : Type :=
  | AtGetCntLoad
  | AtGetCntStore (v : Z)
  | AtFastLoad
  | AtLoadOrStore
  | AtLock
  | AtDoubleCheck
  | AtLoadCntLoad
  | AtLoadCntStore (v : Z)
  | AtInvoke
  | AtAwait (ticket : nat)
  | AtLogError (err : error)
  | AtRand (file : option model.ConfigFileRelease)
  | AtNow (file : option model.ConfigFileRelease) (r : Z)
  | AtStore (entry : Entry)
  | AtUnlock (result : option Entry * option error)
  | Returned (result : option Entry * option error).

(** The entry built for the reply [file] with the expiry [t]. *)
Definition entryFor (file : option model.ConfigFileRelease) (t : time.Time) : Entry :=
  match file with
  | Some file =>
      {| Content := model.Content file; Md5 := model.Md5 file;
         Version := model.Version file; ExpireTime := t; Empty := false |}
  | None =>
      {| Content := ""; Md5 := ""; Version := 0; ExpireTime := t; Empty := true |}
  end.

(** What one step does from each stage. *)
Definition stageStep (k : FileKey) (s : Stage) (w : World) : Outcome Stage :=
  let fileId := keyId k in
  match s with
  | AtGetCntLoad => Done (AtGetCntStore (vars w getCnt)) w
  | AtGetCntStore v => Done AtFastLoad (set_var getCnt (wrap_int (v + 1)) w)
  | AtFastLoad =>
      match files (fc w) !! fileId with
      | Some entry => Done (Returned (Some entry, None)) w
      | None => Done AtLoadOrStore w
      end
  | AtLoadOrStore =>
      match fileLoadLocks (fc w) !! fileId with
      | Some _ => Done AtLock w
      | None => Done AtLock (set_locks (<[fileId := false]> (fileLoadLocks (fc w))) w)
      end
  | AtLock =>
      match fileLoadLocks (fc w) !! fileId with
      | Some false =>
          Done AtDoubleCheck (set_locks (<[fileId := true]> (fileLoadLocks (fc w))) w)
      | Some true => Blocked
      | None => Panic
      end
  | AtDoubleCheck =>
      match files (fc w) !! fileId with
      | Some entry => Done (AtUnlock (Some entry, None)) w
      | None => Done AtLoadCntLoad w
      end
  | AtLoadCntLoad => Done (AtLoadCntStore (vars w loadCnt)) w
  | AtLoadCntStore v => Done AtInvoke (set_var loadCnt (wrap_int (v + 1)) w)
  | AtInvoke => Done (AtAwait (length (storageCalls w))) (begin_call k w)
  | AtAwait ticket =>
      let reply := storage ticket k.1.1 k.1.2 k.2 in
      Done (match reply.2 with
            | Some err => AtLogError err
            | None => AtRand reply.1
            end) (end_call ticket w)
  | AtLogError err =>
      Done (AtUnlock (None, Some err)) (add_log (LogLoadError k.1.1 k.1.2 k.2 err) w)
  | AtRand file => Done (AtNow file (randSrc (randDraws w) `mod` (10 * 60))%Z) (tick_rand w)
  | AtNow file r =>
      Done (AtStore (entryFor file
              (time.Add (clock (clockReads w))
                 (time.mul (wrap_int (r + BaseExpireTimeAfterWrite)) time.Second))))
           (tick_clock w)
  | AtStore entry =>
      Done (AtUnlock (Some entry, None)) (set_files (<[fileId := entry]> (files (fc w))) w)
  | AtUnlock result =>
      match fileLoadLocks (fc w) !! fileId with
      | Some true =>
          Done (Returned result) (set_locks (<[fileId := false]> (fileLoadLocks (fc w))) w)
      | _ => Panic
      end
  | Returned _ => Blocked
  end.

(** The program [p] is at stage [s] of a GetOrLoadIfAbsent for [k]: it has
    returned exactly when the stage says so, and otherwise its next action
    does, in every world, what the stage does, and leaves a program at the
    next stage. *)
Fixpoint follows (p : Prog (option Entry * option error)) (k : FileKey) (s : Stage) : Prop :=
  match p with
  | Ret r => s = Returned r
  | Act op kont =>
      (∀ r, s ≠ Returned r)
      ∧ ∀ w,
          match perform op w with
          | Done r w' => ∃ s', stageStep k s w = Done s' w' ∧ follows (kont r) k s'
          | Blocked => stageStep k s w = Blocked
          | Panic => stageStep k s w = Panic
          end
  end.

(** *** Pools of GetOrLoadIfAbsent calls *)

(** A goroutine of the pool: its key and the stage it is at. *)
Abbreviation Thread := (FileKey * Stage)%type (only parsing).

Inductive stages_step : list Thread * World -> list Thread * World -> Prop :=
  | stages_step_thread (ts : list Thread) (w : World) (i : nat)
      (k : FileKey) (s s' : Stage) (w' : World) :
      ts !! i = Some (k, s) ->
      stageStep k s w = Done s' w' ->
      stages_step (ts, w) (<[i := (k, s')]> ts, w').

(** The programs of [pool] are at the stages [ts]. *)
Definition tracks (pool : list (Prog (option Entry * option error))) (ts : list Thread) : Prop :=
  Forall2 (λ p t, follows p t.1 t.2) pool ts.

(** N callers, one per key of the list (keys may repeat). *)
Definition callers (keys : list FileKey) : list (Prog (option Entry * option error)) :=
  (λ k, GetOrLoadIfAbsent k.1.1 k.1.2 k.2) <$> keys.

Definition startStages (keys : list FileKey) : list Thread :=
  (λ k, (k, AtGetCntLoad)) <$> keys.

(** *** Counting goroutines *)

Fixpoint count (P : Thread -> bool) (ts : list Thread) : nat :=
  match ts with
  | [] => 0
  | t :: ts' => (if P t then 1 else 0) + count P ts'
  end.

(** *** Holders of a load mutex *)

(** Stages at which the goroutine holds the load mutex of its key. *)
Definition holdsLock (s : Stage) : bool :=
  match s with
  | AtDoubleCheck | AtLoadCntLoad | AtLoadCntStore _ | AtInvoke | AtAwait _
  | AtLogError _ | AtRand _ | AtNow _ _ | AtStore _ | AtUnlock _ => true
  | _ => false
  end.

(** Stages at which it has the mutex in hand, locked or not. *)
Definition hasMutex (s : Stage) : bool :=
  match s with
  | AtLock => true
  | _ => holdsLock s
  end.

Definition holdsFor (id : string) (t : Thread) : bool :=
  bool_decide (keyId t.1 = id) && holdsLock t.2.

Definition isAwait (s : Stage) : bool :=
  match s with
  | AtAwait _ => true
  | _ => false
  end.

(** *** The mutex invariant *)

Record lockInv (ts : list Thread) (w : World) : Prop := {
  lock_count : ∀ id,
    count (holdsFor id) ts =
      if bool_decide (fileLoadLocks (fc w) !! id = Some true) then 1 else 0;
  lock_registered : ∀ i k s,
    ts !! i = Some (k, s) -> hasMutex s = true ->
    is_Some (fileLoadLocks (fc w) !! keyId k);
  flight_threads : ∀ c,
    c ∈ storageInFlight w -> ∃ i, ts !! i = Some (c.2, AtAwait c.1);
  flight_tickets : ∀ c,
    c ∈ storageInFlight w -> c.1 < length (storageCalls w);
  flight_nodup : NoDup (storageInFlight w).*1
}.

(** *** Loads of one file id *)

(** How many of the storage calls were for the file id. *)
Definition callsFor (id : string) (calls : list FileKey) : nat :=
  length (filter (λ k, keyId k = id) calls).

(** Stages between the storage call and the store of its result. *)
Definition loading (s : Stage) : bool :=
  match s with
  | AtAwait _ | AtRand _ | AtNow _ _ | AtStore _ => true
  | _ => false
  end.

Definition loadingFor (id : string) (t : Thread) : bool :=
  bool_decide (keyId t.1 = id) && loading t.2.

(** The stages a goroutine can be at, by what the map holds for its file id,
    when storage answers without error: it is past the double check only
    while there is no entry, and it leaves with the entry that is there. *)
Definition stageOk (cur : option Entry) (s : Stage) : Prop :=
  match s with
  | AtLoadCntLoad | AtLoadCntStore _ | AtInvoke
  | AtAwait _ | AtRand _ | AtNow _ _ | AtStore _ => cur = None
  | AtLogError _ => False
  | AtUnlock r | Returned r => ∃ e, cur = Some e ∧ r = (Some e, None)
  | _ => True
  end.

Record loadInv (id : string) (base : nat) (ts : list Thread) (w : World) : Prop := {
  load_stages : ∀ i k s,
    ts !! i = Some (k, s) -> keyId k = id -> stageOk (files (fc w) !! id) s;
  load_calls :
    callsFor id (storageCalls w) =
      base + match files (fc w) !! id with
             | Some _ => 1
             | None => count (loadingFor id) ts
             end
}.

(** Storage answers every call for the file id without error. *)
Definition noErrorFor (id : string) : Prop :=
  ∀ n k, keyId k = id -> (storage n k.1.1 k.1.2 k.2).2 = None.

(** *** Termination and progress *)

(** An upper bound on the steps left from a stage. *)
Definition rank (s : Stage) : nat :=
  match s with
  | AtGetCntLoad => 14
  | AtGetCntStore _ => 13
  | AtFastLoad => 12
  | AtLoadOrStore => 11
  | AtLock => 10
  | AtDoubleCheck => 9
  | AtLoadCntLoad => 8
  | AtLoadCntStore _ => 7
  | AtInvoke => 6
  | AtAwait _ => 5
  | AtRand _ => 4
  | AtNow _ _ => 3
  | AtLogError _ => 2
  | AtStore _ => 2
  | AtUnlock _ => 1
  | Returned _ => 0
  end.

Definition remaining (ts : list Thread) : nat := sum_list ((λ t, rank t.2) <$> ts).

(** ** What an entry holds, expiry apart *)

(** The part of an entry that does not depend on when it was written:
    content, checksum, version and the Empty flag. *)
Definition payload (e : Entry) : string * string * N * bool :=
  (Content e, Md5 e, Version e, Empty e).

(** The payload of the positive entry [newEntry] builds for a record. *)
Definition payloadOf (file : model.ConfigFileRelease) : string * string * N * bool :=
  (model.Content file, model.Md5 file, model.Version file, false).

(** ** Counting the calls of a history *)

Definition isPut (c : Call) : bool :=
  match c with
  | CallPut _ => true
  | _ => false
  end.

Definition isGetOrLoadIfAbsent (c : Call) : bool :=
  match c with
  | CallGetOrLoadIfAbsent _ _ _ => true
  | _ => false
  end.

Definition isRemove (c : Call) : bool :=
  match c with
  | CallRemove _ _ _ => true
  | _ => false
  end.

Fixpoint countCalls (P : Call -> bool) (calls : list Call) : nat :=
  match calls with
  | [] => 0
  | c :: calls' => (if P c then 1 else 0) + countCalls P calls'
  end.

(** A counter holds a value no history of [n] calls can overflow. *)
Definition counterRoom (n : nat) (v : Z) : Prop :=
  (0 <= v)%Z ∧ (v + Z.of_nat n < 2 ^ 63)%Z.

(** ** Callers of a cached key *)

(** The stages of a GetOrLoadIfAbsent that finds its key at the first
    lookup, and the result it leaves with. *)
Definition fastStage (e : Entry) (s : Stage) : Prop :=
  match s with
  | AtGetCntLoad | AtGetCntStore _ | AtFastLoad => True
  | Returned r => r = (Some e, None)
  | _ => False
  end.

Record hitInv (id : string) (e : Entry) (base : nat) (ts : list Thread) (w : World)
    : Prop := {
  hit_entry : files (fc w) !! id = Some e;
  hit_calls : callsFor id (storageCalls w) = base;
  hit_stages : ∀ i k s, ts !! i = Some (k, s) -> keyId k = id -> fastStage e s
}.

(** ** Goroutines that take no load mutex *)

(** Actions on the map, the counters, the clock, the random source and the
    log: no load mutex and no storage call is involved, and the action
    neither blocks nor panics. *)
Definition plainOp {R : Type} (op : Op R) : bool :=
  match op with
  | fileLoadLocks_LoadOrStore _ | mutex_Lock _ | mutex_Unlock _ => false
  | storage_Invoke _ _ _ | storage_Await _ _ _ _ => false
  | rand_Intn n => (0 <? n)%Z
  | _ => true
  end.

(** A program all of whose actions are of that kind. *)
Fixpoint plain {A : Type} (p : Prog A) : Prop :=
  match p with
  | Ret _ => True
  | Act op k => plainOp op = true ∧ ∀ r, plain (k r)
  end.

(** A goroutine that makes the calls of a list one after the other. *)
Fixpoint callsProg (calls : list Call) : Prog unit :=
  match calls with
  | [] => mret tt
  | c :: calls' => callProg c;; callsProg calls'
  end.

(** Two pools side by side on one world: the callers of GetOrLoadIfAbsent
    and the other goroutines.  The system takes a step when a goroutine of
    either pool does. *)
Inductive system_step {A B : Type}
    : list (Prog A) * list (Prog B) * World -> list (Prog A) * list (Prog B) * World -> Prop :=
  | system_step_caller (pool pool' : list (Prog A)) (rest : list (Prog B)) (w w' : World) :
      pool_step (pool, w) (pool', w') ->
      system_step (pool, rest, w) (pool', rest, w')
  | system_step_other (pool : list (Prog A)) (rest rest' : list (Prog B)) (w w' : World) :
      pool_step (rest, w) (rest', w') ->
      system_step (pool, rest, w) (pool, rest', w').

(** A schedule of the system names the goroutine to step next: [inl i] is
    caller [i], [inr j] is goroutine [j] of the others. *)
Fixpoint run_system {A B : Type} (sched : list (nat + nat))
    (pool : list (Prog A)) (rest : list (Prog B)) (w : World)
    : option (list (Prog A) * list (Prog B) * World) :=
  match sched with
  | [] => Some (pool, rest, w)
  | inl i :: sched' =>
      match pool !! i with
      | None => None
      | Some p =>
          match thread_step p w with
          | None => None
          | Some (p', w') => run_system sched' (<[i := p']> pool) rest w'
          end
      end
  | inr j :: sched' =>
      match rest !! j with
      | None => None
      | Some q =>
          match thread_step q w with
          | None => None
          | Some (q', w') => run_system sched' pool (<[j := q']> rest) w'
          end
      end
  end.

(** What a run of the system leaves: the storage calls in flight, and
    whether the callers have all returned. *)
Definition flightAfter {A B : Type}
    (st : option (list (Prog A) * list (Prog B) * World)) : list (nat * FileKey) :=
  match st with
  | Some (_, _, w) => storageInFlight w
  | None => []
  end.

Definition allReturned {A B : Type}
    (st : option (list (Prog A) * list (Prog B) * World)) : bool :=
  match st with
  | Some (pool, _, _) => forallb returned pool
  | None => false
  end.

(** ** Concrete environments, worlds and schedules *)

Definition demoKey : FileKey := ("ns", "group", "app.yaml").
Definition otherKey : FileKey := ("ns", "group", "db.yaml").

(** A clock that starts a thousand hours in and advances a second a reading. *)
Definition demoClock (n : nat) : time.Time := (1000 * time.Hour + Z.of_nat n * time.Second)%Z.

Definition demoRand (n : nat) : Z := (12345 + Z.of_nat n)%Z.

(** Storage with no record at all, storage that fails, storage that has a
    record for every key. *)
Definition emptyStore (n : nat) (namespace group fileName : string) : StoreReply :=
  (None, None).

Definition failingStore (n : nat) (namespace group fileName : string) : StoreReply :=
  (None, Some "storage unavailable").

Definition recordStore (n : nat) (namespace group fileName : string) : StoreReply :=
  (Some (release namespace group fileName "payload" "9a0364b9" 3), None).

(** An entry whose expiry is long past on [demoClock], and a live one. *)
Definition staleEntry : Entry :=
  {| Content := "old"; Md5 := "0cc175b9"; Version := 1; ExpireTime := 5%Z; Empty := false |}.

Definition liveEntry : Entry :=
  {| Content := "new"; Md5 := "92eb5ffe"; Version := 2;
     ExpireTime := (2000 * time.Hour)%Z; Empty := false |}.

Definition staleWorld : World :=
  set_files (<[keyId otherKey := liveEntry]> {[keyId demoKey := staleEntry]}) initWorld.

(** Three callers, two of them for the same key: they run up to Lock in
    turn, then the first loads, the second finds the result at its double
    check, and the third loads its own key. *)
Definition demoKeys : list FileKey := [demoKey; demoKey; otherKey].

Definition demoSchedule : list nat :=
  replicate 4 0 ++ replicate 4 1 ++ replicate 4 2
  ++ replicate 5 0 ++ replicate 5 2 ++ replicate 5 0 ++ replicate 3 1 ++ replicate 5 2.

(** Two callers for one key against the failing storage: the second waits at
    Lock while the first calls storage, then calls storage itself. *)
Definition failSchedule : list nat :=
  replicate 4 0 ++ replicate 4 1 ++ replicate 8 0 ++ replicate 8 1.

(** ** More concrete inputs *)

(** Three releases of one file, at versions 1, 2 and 7. *)
Definition releaseV1 : model.ConfigFileRelease :=
  release "ns" "group" "app.yaml" "a" "0cc175b9" 1.

Definition releaseV2 : model.ConfigFileRelease :=
  release "ns" "group" "app.yaml" "b" "92eb5ffe" 2.

Definition releaseV7 : model.ConfigFileRelease :=
  release "ns" "group" "app.yaml" "newer" "3e3b9d2b" 7.

(** What [recordStore] answers for [demoKey]. *)
Definition storedRelease : model.ConfigFileRelease :=
  release "ns" "group" "app.yaml" "payload" "9a0364b9" 3.

(** A cache that holds one entry, written when [demoClock] read its first
    value. *)
Definition freshlyPut : Entry := freshEntry "a" "0cc175b9" 1 (demoClock 0) (demoRand 0).

Definition freshWorld : World :=
  set_files {[keyId demoKey := freshlyPut]} initWorld.

(** A cache whose only entry is long expired. *)
Definition staleOnly : World :=
  set_files {[keyId demoKey := staleEntry]} initWorld.



(** A history on one key: a load, a write, a removal, a tick of each task. *)
Definition demoHistory : list Call :=
  [CallGetOrLoadIfAbsent "ns" "group" "app.yaml"; CallPut releaseV7;
   CallRemove "ns" "group" "app.yaml"; TickClearExpire; TickLogStatus].

(** Goroutines beside the callers: one that writes, reads and removes, and
    the two background tasks for two ticks each. *)
Definition demoOthers : list (list Call) :=
  [[CallPut releaseV7; CallGet "ns" "group" "app.yaml"; CallRemove "ns" "group" "db.yaml"];
   [TickClearExpire; TickClearExpire];
   [TickLogStatus; TickLogStatus]].

(** The first caller of [demoKeys] goes up to its storage call, then the
    first of the other goroutines makes its three calls and the sweeper
    ticks once. *)
Definition inFlightSchedule : list (nat + nat) :=
  replicate 9 (inl 0) ++ replicate 10 (inr 0) ++ replicate 4 (inr 1).

(** After that the three callers run to their end, one after the other. *)
Definition returnedSchedule : list (nat + nat) :=
  inFlightSchedule
  ++ replicate 5 (inl 0) ++ replicate 3 (inl 1) ++ replicate 14 (inl 2).

(** * Lemmas and theorems *)

(** Simplify a run: evaluate the program up to the next lookup or reply. *)
Ltac run_simpl :=
  cbn; repeat (change (0 <? 10 * 60)%Z with true; cbn).

(** Symbolic execution of a program against the stage machine. *)
Ltac follow_stages :=
  repeat (simplify_eq; run_simpl; unfold keyId; cbn;
    first
      [ done
      | match goal with
        | |- context [match ?m !! ?key with _ => _ end] =>
            destruct (m !! key) as [[] |] eqn:?
        | |- context [match ?m !! ?key with _ => _ end] =>
            destruct (m !! key) as [|] eqn:?
        | |- context [storage ?n ?a ?b ?c] =>
            destruct (storage n a b c) as [[?|] [?|]] eqn:?
        end
      | split; [done | intros ?]
      | eexists; split; [reflexivity |] ]).

(** ** Sequential runs: basic facts *)

Lemma wrap_int_small (z : Z) :
  (- 2 ^ 63 <= z < 2 ^ 63)%Z -> wrap_int z = z.
Proof.
  intros Hz. unfold wrap_int.
  rewrite Z.mod_small; lia.
Qed.

Lemma ttlOf_jitter (r : Z) : ttlOf r = (time.Hour + jitterOf r)%Z.
Proof.
  unfold ttlOf, jitterOf, time.mul, time.Hour, time.Minute, time.Second,
    BaseExpireTimeAfterWrite.
  pose proof (Z.mod_pos_bound r (10 * 60)) as Hr.
  rewrite (wrap_int_small (r `mod` (10 * 60) + 60 * 60)) by lia.
  rewrite wrap_int_small by lia. lia.
Qed.

Lemma jitterOf_range (r : Z) : (0 <= jitterOf r < 10 * time.Minute)%Z.
Proof.
  unfold jitterOf, time.Minute, time.Second.
  pose proof (Z.mod_pos_bound r (10 * 60)). lia.
Qed.

Lemma run_bind {A B : Type} (p : Prog A) (f : A -> Prog B) (w : World) :
  exec (p ≫= f) w =
  match exec p w with
  | Done a w' => exec (f a) w'
  | Blocked => Blocked
  | Panic => Panic
  end.
Proof.
  revert w. induction p as [a | R op k IH]; intros w; [done |].
  unfold mbind, Prog_bind. simpl.
  destruct (perform op w); done.
Qed.

Lemma run_getExpireTime (w : World) :
  exec getExpireTime w =
  Done (time.Add (clock (clockReads w)) (ttlOf (randSrc (randDraws w))))
       (tick_clock (tick_rand w)).
Proof. reflexivity. Qed.

Lemma run_newEntry (content md5 : string) (version : N) (w : World) :
  exec (newEntry content md5 version) w =
  Done (freshEntry content md5 version (clock (clockReads w)) (randSrc (randDraws w)))
       (tick_clock (tick_rand w)).
Proof. reflexivity. Qed.

Lemma run_Get (namespace group fileName : string) (w : World) :
  exec (Get namespace group fileName) w =
  Done (files (fc w) !! GenFileId namespace group fileName) w.
Proof.
  unfold Get. cbn.
  by destruct (files (fc w) !! GenFileId namespace group fileName).
Qed.

Lemma run_Put (file : model.ConfigFileRelease) (w : World) :
  exec (Put file) w =
  let w1 := set_var putCnt (wrap_int (vars w putCnt + 1)) w in
  if putAccepts (files (fc w) !! fileIdOf file) file then
    Done tt (set_files
      (<[fileIdOf file :=
           freshEntry (model.Content file) (model.Md5 file) (model.Version file)
             (clock (clockReads w)) (randSrc (randDraws w))]> (files (fc w)))
      (tick_clock (tick_rand w1)))
  else Done tt w1.
Proof.
  unfold Put, fileIdOf, putAccepts. cbn.
  destruct (files (fc w) !! _) as [e |]; cbn; [| done].
  by destruct (Empty e || (Version e <? model.Version file)%N).
Qed.

Lemma run_Remove (namespace group fileName : string) (w : World) :
  exec (Remove namespace group fileName) w =
  Done tt (set_files (delete (GenFileId namespace group fileName) (files (fc w)))
             (set_var removeCnt (wrap_int (vars w removeCnt + 1)) w)).
Proof. reflexivity. Qed.

Lemma run_GetOrLoadIfAbsent_hit (namespace group fileName : string) (w : World) (e : Entry) :
  files (fc w) !! GenFileId namespace group fileName = Some e ->
  exec (GetOrLoadIfAbsent namespace group fileName) w =
  Done (Some e, None) (set_var getCnt (wrap_int (vars w getCnt + 1)) w).
Proof.
  intros Hhit. unfold GetOrLoadIfAbsent. cbn. by rewrite Hhit.
Qed.

Lemma run_GetOrLoadIfAbsent_miss (namespace group fileName : string) (w : World) :
  let fileId := GenFileId namespace group fileName in
  let reply := storage (length (storageCalls w)) namespace group fileName in
  let stored := loadedEntry reply (clock (clockReads w)) (randSrc (randDraws w)) in
  files (fc w) !! fileId = None ->
  fileLoadLocks (fc w) !! fileId ≠ Some true ->
  ∃ w',
    exec (GetOrLoadIfAbsent namespace group fileName) w = Done (stored, reply.2) w'
    ∧ files (fc w') = from_option (λ e, <[fileId := e]> (files (fc w))) (files (fc w)) stored
    ∧ fileLoadLocks (fc w') = <[fileId := false]> (fileLoadLocks (fc w))
    ∧ storageCalls w' = (namespace, group, fileName) :: storageCalls w
    ∧ logged w' = from_option (λ err, LogLoadError namespace group fileName err :: logged w)
                    (logged w) reply.2
    ∧ clockReads w' = from_option (λ _, clockReads w) (S (clockReads w)) reply.2
    ∧ randDraws w' = from_option (λ _, randDraws w) (S (randDraws w)) reply.2.
Proof.
  intros fileId reply stored Hmiss Hfree. subst stored reply fileId.
  unfold GetOrLoadIfAbsent. cbn. rewrite Hmiss. cbn.
  destruct (fileLoadLocks (fc w) !! _) as [[] |] eqn:Hlock; [done | |]; cbn.
  - rewrite Hlock. cbn. rewrite Hmiss. cbn.
    destruct (storage _ _ _ _) as [file [err |]]; [| destruct file as [file |]]; run_simpl;
      rewrite lookup_insert_eq; cbn; eexists; (split; [reflexivity |]); cbn;
      rewrite insert_insert_eq; done.
  - rewrite lookup_insert_eq. cbn. rewrite Hmiss. cbn.
    destruct (storage _ _ _ _) as [file [err |]]; [| destruct file as [file |]]; run_simpl;
      rewrite lookup_insert_eq; cbn; eexists; (split; [reflexivity |]); cbn;
      rewrite !insert_insert_eq; done.
Qed.

(** ** Put, Get, Remove *)

Lemma putAccepts_overwriteRule (storedEntry : option Entry) (file : model.ConfigFileRelease) :
  putAccepts storedEntry file = true ↔ overwriteRule storedEntry file.
Proof.
  unfold putAccepts, overwriteRule. destruct storedEntry as [e |].
  - rewrite orb_true_iff, N.ltb_lt. split.
    + intros [He | Hv]; [right; left | right; right]; eauto.
    + intros [Hn | [(e' & [= <-] & He) | (e' & [= <-] & Hv)]]; [done | by left | by right].
  - split; [by left | done].
Qed.

(** C1: Put replaces the stored entry exactly when its guard holds, and the
    guard holds if and only if there is no entry for the key, or the stored
    entry is a negative placeholder, or the record's version is strictly
    greater than the stored one.  An accepted Put stores a fresh entry whose
    expiry is computed at that moment; a rejected Put returns normally and
    leaves the map, with the entry and its expiry, and the log as they were
    (only putCnt moves).  From a state with no entry for the key,
    Put(v=1,"a") then Put(v=1,"b") leaves content "a", and Put(v=2,"b") after
    them changes it to "b". *)
Theorem Put_overwrite_rule (file : model.ConfigFileRelease) (w : World) :
  let fileId := fileIdOf file in
  let storedEntry := files (fc w) !! fileId in
  let fresh :=
    freshEntry (model.Content file) (model.Md5 file) (model.Version file)
      (clock (clockReads w)) (randSrc (randDraws w)) in
  (putAccepts storedEntry file = true ↔ overwriteRule storedEntry file)
  ∧ (∃ w', exec (Put file) w = Done tt w'
      ∧ files (fc w') =
          (if putAccepts storedEntry file then <[fileId := fresh]> (files (fc w))
           else files (fc w))
      ∧ (putAccepts storedEntry file = false ->
           w' = set_var putCnt (wrap_int (vars w putCnt + 1)) w
           ∧ files (fc w') !! fileId = storedEntry
           ∧ logged w' = logged w))
  ∧ (∀ namespace group fileName md5a md5b,
       files (fc w) !! GenFileId namespace group fileName = None ->
       ∃ w1 w2 w3,
         exec (Put (release namespace group fileName "a" md5a 1)) w = Done tt w1
         ∧ exec (Put (release namespace group fileName "b" md5b 1)) w1 = Done tt w2
         ∧ exec (Put (release namespace group fileName "b" md5b 2)) w2 = Done tt w3
         ∧ Content <$> files (fc w1) !! GenFileId namespace group fileName = Some "a"
         ∧ files (fc w2) = files (fc w1)
         ∧ Content <$> files (fc w3) !! GenFileId namespace group fileName = Some "b").
Proof.
  intros fileId storedEntry fresh. split; [apply putAccepts_overwriteRule |]. split.
  - rewrite run_Put. fold fileId storedEntry fresh. cbn zeta.
    destruct (putAccepts storedEntry file) eqn:Hacc.
    + eexists. split; [reflexivity |]. by split.
    + eexists. split; [reflexivity |]. by split.
  - intros namespace group fileName md5a md5b Hnone.
    do 3 eexists.
    split. { rewrite run_Put. unfold fileIdOf. cbn. rewrite Hnone. reflexivity. }
    split. { rewrite run_Put. unfold fileIdOf. cbn. rewrite lookup_insert_eq. reflexivity. }
    split. { rewrite run_Put. unfold fileIdOf. cbn. rewrite lookup_insert_eq. reflexivity. }
    cbn. rewrite !lookup_insert_eq. done.
Qed.

(** C7: Remove returns normally from every state (it has no error result,
    and it neither panics nor blocks); it deletes the entry of its key, which
    changes nothing when the key is absent; a Get of the key right after it
    reports not-found. *)
Theorem Remove_deletes (namespace group fileName : string) (w : World) :
  let fileId := GenFileId namespace group fileName in
  ∃ w', exec (Remove namespace group fileName) w = Done tt w'
    ∧ files (fc w') = delete fileId (files (fc w))
    ∧ (∀ key, key ≠ fileId -> files (fc w') !! key = files (fc w) !! key)
    ∧ (files (fc w) !! fileId = None -> files (fc w') = files (fc w))
    ∧ exec (Get namespace group fileName) w' = Done None w'.
Proof.
  intros fileId. rewrite run_Remove. eexists. split; [reflexivity |].
  split; [done |]. split; [| split].
  - intros key Hne. cbn. by rewrite lookup_delete_ne.
  - intros Hnone. cbn. by apply delete_id.
  - rewrite run_Get. cbn. by rewrite lookup_delete_eq.
Qed.

(** C9: an entry that is present is a hit for Get and for GetOrLoadIfAbsent
    whatever its ExpireTime and whatever the clock reads: neither operation
    reads the clock, calls storage or touches the map, so the entry stays
    served until something deletes or overwrites it.  In particular this
    holds when the clock is already past the entry's expiry. *)
Theorem hit_ignores_expiry (namespace group fileName : string) (w : World) (e : Entry) :
  files (fc w) !! GenFileId namespace group fileName = Some e ->
  exec (Get namespace group fileName) w = Done (Some e) w
  ∧ ∃ w', exec (GetOrLoadIfAbsent namespace group fileName) w = Done (Some e, None) w'
      ∧ files (fc w') = files (fc w)
      ∧ clockReads w' = clockReads w
      ∧ storageCalls w' = storageCalls w
      ∧ exec (Get namespace group fileName) w' = Done (Some e) w'.
Proof.
  intros Hhit. split.
  - by rewrite run_Get, Hhit.
  - rewrite (run_GetOrLoadIfAbsent_hit _ _ _ _ _ Hhit).
    eexists. split; [reflexivity |]. do 3 (split; [done |]).
    rewrite run_Get. cbn. by rewrite Hhit.
Qed.

(** ** GetOrLoadIfAbsent on a miss *)

Lemma quiescent_unlock (w w' : World) (fileId : string) :
  quiescent w ->
  fileLoadLocks (fc w') = <[fileId := false]> (fileLoadLocks (fc w)) ->
  quiescent w'.
Proof.
  intros Hq Hlocks key. rewrite Hlocks.
  destruct (decide (fileId = key)) as [-> | Hne].
  - by rewrite lookup_insert_eq.
  - rewrite lookup_insert_ne by done. apply Hq.
Qed.

Lemma jitteredExpiry_ttlOf (now : time.Time) (r : Z) :
  jitteredExpiry now (time.Add now (ttlOf r)).
Proof.
  exists (jitterOf r). split; [apply jitterOf_range |].
  by rewrite ttlOf_jitter.
Qed.

(** C2: on a miss, when the storage collaborator answers with an error, the
    error is handed to the caller and nothing is written: the map is exactly
    what it was (no positive and no negative entry for the key), and the next
    GetOrLoadIfAbsent for the key calls storage again. *)
Theorem GetOrLoadIfAbsent_storage_error
    (namespace group fileName : string) (w : World)
    (file : option model.ConfigFileRelease) (err : error) :
  let fileId := GenFileId namespace group fileName in
  files (fc w) !! fileId = None ->
  quiescent w ->
  storage (length (storageCalls w)) namespace group fileName = (file, Some err) ->
  ∃ w',
    exec (GetOrLoadIfAbsent namespace group fileName) w = Done (None, Some err) w'
    ∧ files (fc w') = files (fc w)
    ∧ files (fc w') !! fileId = None
    ∧ storageCalls w' = (namespace, group, fileName) :: storageCalls w
    ∧ ∃ r w'',
        exec (GetOrLoadIfAbsent namespace group fileName) w' = Done r w''
        ∧ r.2 = (storage (S (length (storageCalls w))) namespace group fileName).2
        ∧ storageCalls w'' =
            (namespace, group, fileName) :: (namespace, group, fileName) :: storageCalls w.
Proof.
  intros fileId Hmiss Hq Herr.
  destruct (run_GetOrLoadIfAbsent_miss namespace group fileName w Hmiss (Hq _))
    as (w' & Hrun & Hfiles & Hlocks & Hcalls & _).
  rewrite Herr in Hrun, Hfiles. cbn in Hrun, Hfiles.
  exists w'. split; [done |]. split; [done |].
  assert (Hmiss' : files (fc w') !! fileId = None) by by rewrite Hfiles.
  split; [done |]. split; [done |].
  assert (Hq' : quiescent w') by by eapply quiescent_unlock.
  destruct (run_GetOrLoadIfAbsent_miss namespace group fileName w' Hmiss' (Hq' _))
    as (w'' & Hrun' & _ & _ & Hcalls' & _).
  eexists _, w''. split; [exact Hrun' |]. split.
  - cbn. by rewrite Hcalls.
  - by rewrite Hcalls', Hcalls.
Qed.

(** C3: on a miss, when storage reports no record and no error, the call
    stores and returns the negative entry (empty content, Empty set, expiry
    jittered) with a nil error, after exactly one storage call; a second
    GetOrLoadIfAbsent for the key, right after or in any later state that
    still has the negative entry cached, returns that same entry and calls
    storage no more. *)
Theorem GetOrLoadIfAbsent_absent (namespace group fileName : string) (w : World) :
  let fileId := GenFileId namespace group fileName in
  let emptyEntry := negativeEntry (clock (clockReads w)) (randSrc (randDraws w)) in
  files (fc w) !! fileId = None ->
  quiescent w ->
  storage (length (storageCalls w)) namespace group fileName = (None, None) ->
  Content emptyEntry = "" ∧ Empty emptyEntry = true
  ∧ jitteredExpiry (clock (clockReads w)) (ExpireTime emptyEntry)
  ∧ ∃ w',
      exec (GetOrLoadIfAbsent namespace group fileName) w = Done (Some emptyEntry, None) w'
      ∧ files (fc w') = <[fileId := emptyEntry]> (files (fc w))
      ∧ storageCalls w' = (namespace, group, fileName) :: storageCalls w
      ∧ (∃ w'',
          exec (GetOrLoadIfAbsent namespace group fileName) w' = Done (Some emptyEntry, None) w''
          ∧ files (fc w'') = files (fc w')
          ∧ storageCalls w'' = storageCalls w')
      ∧ (∀ w2, files (fc w2) !! fileId = Some emptyEntry ->
           ∃ w3,
             exec (GetOrLoadIfAbsent namespace group fileName) w2
               = Done (Some emptyEntry, None) w3
             ∧ files (fc w3) = files (fc w2)
             ∧ storageCalls w3 = storageCalls w2).
Proof.
  intros fileId emptyEntry Hmiss Hq Habsent.
  split; [done |]. split; [done |]. split; [apply jitteredExpiry_ttlOf |].
  destruct (run_GetOrLoadIfAbsent_miss namespace group fileName w Hmiss (Hq _))
    as (w' & Hrun & Hfiles & Hlocks & Hcalls & _).
  rewrite Habsent in Hrun, Hfiles. cbn in Hrun, Hfiles.
  assert (Hlater : ∀ w2, files (fc w2) !! fileId = Some emptyEntry ->
    ∃ w3, exec (GetOrLoadIfAbsent namespace group fileName) w2
            = Done (Some emptyEntry, None) w3
      ∧ files (fc w3) = files (fc w2) ∧ storageCalls w3 = storageCalls w2).
  { intros w2 Hhit. rewrite (run_GetOrLoadIfAbsent_hit _ _ _ _ _ Hhit).
    eexists. split; [reflexivity |]. done. }
  exists w'. split; [done |]. split; [done |]. split; [done |].
  split; [| done]. apply Hlater. by rewrite Hfiles, lookup_insert_eq.
Qed.

(** C5: the expiry of every freshly written entry is the clock reading taken
    at the write plus one hour plus a jitter in [0, 10 minutes), so that the
    time to live lies in [60, 70) minutes: for getExpireTime itself, for the
    entry of an accepted Put, and for the entry a load stores, positive or
    negative.  The jitter is the random draw reduced to [0, 600), in seconds:
    each of the 600 values comes from the draws congruent to it, so a uniform
    source gives a uniform jitter. *)
Theorem fresh_entry_expiry (w : World) :
  let now := clock (clockReads w) in
  let r := randSrc (randDraws w) in
  (∃ w', exec getExpireTime w = Done (time.Add now (ttlOf r)) w'
     ∧ ttlOf r = (time.Hour + jitterOf r)%Z
     ∧ (0 <= jitterOf r < 10 * time.Minute)%Z
     ∧ (60 * time.Minute <= time.Sub (time.Add now (ttlOf r)) now < 70 * time.Minute)%Z)
  ∧ (∀ j : Z, (0 <= j < 10 * 60)%Z -> jitterOf j = (j * time.Second)%Z)
  ∧ (∀ file, putAccepts (files (fc w) !! fileIdOf file) file = true ->
       ∃ w' e, exec (Put file) w = Done tt w'
         ∧ files (fc w') !! fileIdOf file = Some e
         ∧ jitteredExpiry now (ExpireTime e))
  ∧ (∀ namespace group fileName file,
       files (fc w) !! GenFileId namespace group fileName = None ->
       quiescent w ->
       storage (length (storageCalls w)) namespace group fileName = (file, None) ->
       ∃ w' e,
         exec (GetOrLoadIfAbsent namespace group fileName) w = Done (Some e, None) w'
         ∧ files (fc w') !! GenFileId namespace group fileName = Some e
         ∧ Empty e = bool_decide (file = None)
         ∧ jitteredExpiry now (ExpireTime e)).
Proof.
  intros now r. split; [| split; [| split]].
  - rewrite run_getExpireTime. eexists. split; [reflexivity |].
    split; [apply ttlOf_jitter |]. split; [apply jitterOf_range |].
    unfold time.Sub, time.Add. rewrite ttlOf_jitter.
    pose proof (jitterOf_range r) as Hj.
    unfold time.Hour, time.Minute, time.Second in *. lia.
  - intros j Hj. unfold jitterOf. by rewrite Z.mod_small.
  - intros file Hacc. rewrite run_Put, Hacc. cbn zeta.
    eexists _, _. split; [reflexivity |]. cbn. rewrite lookup_insert_eq.
    split; [reflexivity |]. apply jitteredExpiry_ttlOf.
  - intros namespace group fileName file Hmiss Hq Hreply.
    destruct (run_GetOrLoadIfAbsent_miss namespace group fileName w Hmiss (Hq _))
      as (w' & Hrun & Hfiles & _).
    rewrite Hreply in Hrun, Hfiles.
    destruct file as [file |]; cbn in Hrun, Hfiles;
      eexists w', _; (split; [exact Hrun |]); rewrite Hfiles, lookup_insert_eq;
      (split; [reflexivity |]); (split; [done |]); apply jitteredExpiry_ttlOf.
Qed.

(** ** The sweeper *)

Lemma run_forEach_expireVisit (l : list (string * Entry)) (cnt : Z) (w : World) :
  ∃ w',
    exec (forEach expireVisit l cnt) w = Done (sweep l (clockReads w) (files (fc w)) cnt).2 w'
    ∧ files (fc w') = (sweep l (clockReads w) (files (fc w)) cnt).1
    ∧ fileLoadLocks (fc w') = fileLoadLocks (fc w)
    ∧ clockReads w' = clockReads w + length l
    ∧ vars w' = vars w
    ∧ logged w' = logged w
    ∧ storageCalls w' = storageCalls w.
Proof.
  revert cnt w. induction l as [| [fileId entry] l IH]; intros cnt w.
  - exists w. cbn. rewrite Nat.add_0_r. done.
  - cbn [forEach]. rewrite run_bind. unfold expireVisit. cbn.
    destruct (time.After (clock (clockReads w)) (ExpireTime entry)); cbn.
    + destruct (IH (wrap_int (cnt + 1))
        (set_files (delete fileId (files (fc w))) (tick_clock w)))
        as (w' & Hrun & Hfiles & Hlocks & Hclock & Hvars & Hlog & Hcalls).
      exists w'. cbn in *. rewrite Hclock. repeat split; try done; lia.
    + destruct (IH cnt (tick_clock w))
        as (w' & Hrun & Hfiles & Hlocks & Hclock & Hvars & Hlog & Hcalls).
      exists w'. cbn in *. rewrite Hclock. repeat split; try done; lia.
Qed.

Lemma sweep_lookup_notin (l : list (string * Entry)) (c : nat) (m : gmap string Entry)
    (cnt : Z) (key : string) :
  key ∉ l.*1 -> (sweep l c m cnt).1 !! key = m !! key.
Proof.
  revert c m cnt. induction l as [| [fileId entry] l IH]; intros c m cnt Hnotin; [done |].
  cbn in Hnotin. apply not_elem_of_cons in Hnotin as [Hne Hnotin]. cbn.
  destruct (time.After (clock c) (ExpireTime entry)).
  - rewrite IH by done. by rewrite lookup_delete_ne.
  - by apply IH.
Qed.

Lemma sweep_lookup_in (l : list (string * Entry)) (c : nat) (m : gmap string Entry)
    (cnt : Z) (i : nat) (key : string) (e : Entry) :
  NoDup l.*1 ->
  l !! i = Some (key, e) ->
  (sweep l c m cnt).1 !! key =
    if time.After (clock (c + i)) (ExpireTime e) then None else m !! key.
Proof.
  revert c m cnt i. induction l as [| [fileId entry] l IH]; intros c m cnt i Hnd Hi; [done |].
  cbn in Hnd. apply NoDup_cons in Hnd as [Hfresh Hnd].
  destruct i as [| i]; cbn in Hi.
  - injection Hi as -> ->. rewrite Nat.add_0_r. cbn.
    destruct (time.After (clock c) (ExpireTime e)).
    + rewrite sweep_lookup_notin by done. apply lookup_delete_eq.
    + by apply sweep_lookup_notin.
  - assert (key ≠ fileId) as Hne.
    { intros ->. apply Hfresh. apply list_elem_of_fmap. exists (fileId, e).
      split; [done |]. by eapply list_elem_of_lookup_2. }
    replace (c + S i) with (S c + i) by lia. cbn.
    destruct (time.After (clock c) (ExpireTime entry)).
    + rewrite (IH (S c) _ _ i Hnd Hi). cbn. by rewrite lookup_delete_ne.
    + exact (IH (S c) m cnt i Hnd Hi).
Qed.

Lemma expiredCount_le (l : list (string * Entry)) (c : nat) :
  expiredCount l c ≤ length l.
Proof.
  revert c. induction l as [| [fileId entry] l IH]; intros c; cbn; [done |].
  specialize (IH (S c)). destruct (time.After _ _); lia.
Qed.



Lemma run_clearExpireEntryTick (w : World) :
  let swept := sweep (map_to_list (files (fc w))) (clockReads w) (files (fc w)) 0 in
  ∃ w',
    exec clearExpireEntryTick w = Done tt w'
    ∧ files (fc w') = swept.1
    ∧ fileLoadLocks (fc w') = fileLoadLocks (fc w)
    ∧ clockReads w' = clockReads w + size (files (fc w))
    ∧ vars w' expireCnt = wrap_int (vars w expireCnt + swept.2)
    ∧ logged w' =
        (if (0 <? swept.2)%Z then LogClearExpired swept.2 :: logged w else logged w).
Proof.
  intros swept.
  destruct (run_forEach_expireVisit (map_to_list (files (fc w))) 0 w)
    as (w1 & Hrun & Hfiles & Hlocks & Hclock & Hvars & Hlog & _).
  fold swept in Hrun, Hfiles. rewrite length_map_to_list in Hclock.
  unfold clearExpireEntryTick, files_RangeWith. rewrite !run_bind.
  change (exec (act files_Range) w) with (Done (map_to_list (files (fc w))) w).
  cbv beta iota. rewrite Hrun. rewrite <- Hfiles, <- Hlocks, <- Hclock, <- Hvars, <- Hlog.
  destruct (0 <? swept.2)%Z; cbn; eexists; (split; [reflexivity |]); done.
Qed.

Lemma sweep_subseteq (l : list (string * Entry)) (c : nat) (m : gmap string Entry) (cnt : Z) :
  (sweep l c m cnt).1 ⊆ m.
Proof.
  revert c m cnt. induction l as [| [fileId entry] l IH]; intros c m cnt; cbn; [done |].
  destruct (time.After _ _); [| apply IH].
  etrans; [apply IH | apply delete_subseteq].
Qed.


(** ** The Empty flag *)

Lemma wellFormed_insert (m : gmap string Entry) (key : string) (e : Entry) :
  wellFormed m -> placeholderShape e -> wellFormed (<[key := e]> m).
Proof.
  intros Hm He key' e' Hlookup.
  destruct (decide (key = key')) as [<- | Hne].
  - rewrite lookup_insert_eq in Hlookup. by injection Hlookup as <-.
  - rewrite lookup_insert_ne in Hlookup by done. by eapply Hm.
Qed.

Lemma wellFormed_subseteq (m m' : gmap string Entry) :
  m' ⊆ m -> wellFormed m -> wellFormed m'.
Proof.
  intros Hsub Hm key e Hlookup. eapply Hm. by eapply lookup_weaken.
Qed.

Lemma placeholderShape_loadedEntry (reply : StoreReply) (now : time.Time) (r : Z) (e : Entry) :
  loadedEntry reply now r = Some e -> placeholderShape e.
Proof.
  unfold loadedEntry. destruct reply as [file [err |]]; cbn; [done |].
  destruct file as [file |]; intros [= <-]; [done |]. by intros _.
Qed.

Lemma run_GetOrLoadIfAbsent_blocked (namespace group fileName : string) (w : World) :
  files (fc w) !! GenFileId namespace group fileName = None ->
  fileLoadLocks (fc w) !! GenFileId namespace group fileName = Some true ->
  exec (GetOrLoadIfAbsent namespace group fileName) w = Blocked.
Proof.
  intros Hmiss Hheld. unfold GetOrLoadIfAbsent. cbn. rewrite Hmiss. cbn.
  rewrite Hheld. cbn. by rewrite Hheld.
Qed.

(** The map after a GetOrLoadIfAbsent that returned: as before, or with the
    loaded entry added under the key (which had none). *)
Lemma GetOrLoadIfAbsent_files (namespace group fileName : string) (w w' : World)
    (r : option Entry * option error) :
  let fileId := GenFileId namespace group fileName in
  exec (GetOrLoadIfAbsent namespace group fileName) w = Done r w' ->
  (files (fc w') = files (fc w)
   ∧ fileLoadLocks (fc w') = fileLoadLocks (fc w))
  ∨ (files (fc w) !! fileId = None
     ∧ files (fc w') =
         from_option (λ e, <[fileId := e]> (files (fc w))) (files (fc w))
           (loadedEntry (storage (length (storageCalls w)) namespace group fileName)
              (clock (clockReads w)) (randSrc (randDraws w)))
     ∧ fileLoadLocks (fc w') = <[fileId := false]> (fileLoadLocks (fc w))).
Proof.
  intros fileId Hrun.
  destruct (files (fc w) !! fileId) as [e |] eqn:Hlookup.
  - rewrite (run_GetOrLoadIfAbsent_hit _ _ _ _ _ Hlookup) in Hrun.
    injection Hrun as _ <-. by left.
  - destruct (decide (fileLoadLocks (fc w) !! fileId = Some true)) as [Hheld | Hfree].
    + by rewrite run_GetOrLoadIfAbsent_blocked in Hrun.
    + destruct (run_GetOrLoadIfAbsent_miss namespace group fileName w Hlookup Hfree)
        as (w1 & Hrun1 & Hfiles & Hlocks & _).
      rewrite Hrun1 in Hrun. injection Hrun as _ <-. right. done.
Qed.

(** From a quiescent world every call returns, in a quiescent world whose map
    is well formed if it was. *)
Lemma callProg_preserves (c : Call) (w : World) :
  quiescent w ->
  wellFormed (files (fc w)) ->
  ∃ w', exec (callProg c) w = Done tt w' ∧ quiescent w' ∧ wellFormed (files (fc w')).
Proof.
  intros Hq Hwf. destruct c as [file | ns g f | ns g f | ns g f | |]; cbn [callProg].
  - rewrite run_Put. cbn zeta. destruct (putAccepts _ _).
    + eexists. split; [reflexivity |]. split; [exact Hq |].
      cbn. by apply wellFormed_insert.
    + eexists. split; [reflexivity |]. done.
  - rewrite run_bind, run_Get. by exists w.
  - rewrite run_bind.
    destruct (files (fc w) !! GenFileId ns g f) as [e |] eqn:Hlookup.
    + rewrite (run_GetOrLoadIfAbsent_hit _ _ _ _ _ Hlookup).
      eexists. split; [reflexivity |]. done.
    + destruct (run_GetOrLoadIfAbsent_miss ns g f w Hlookup (Hq _))
        as (w' & -> & Hfiles & Hlocks & _).
      exists w'. split; [done |]. split; [by eapply quiescent_unlock |].
      rewrite Hfiles. destruct (loadedEntry _ _ _) as [e |] eqn:Hloaded; cbn; [| done].
      apply wellFormed_insert; [done |]. by eapply placeholderShape_loadedEntry.
  - rewrite run_Remove. eexists. split; [reflexivity |]. split; [exact Hq |].
    cbn. eapply wellFormed_subseteq; [apply delete_subseteq | done].
  - destruct (run_clearExpireEntryTick w) as (w' & -> & Hfiles & Hlocks & _).
    exists w'. split; [done |]. split.
    + intros key. rewrite Hlocks. apply Hq.
    + rewrite Hfiles. eapply wellFormed_subseteq; [apply sweep_subseteq | done].
  - eexists. split; [reflexivity |]. done.
Qed.

Lemma runCalls_preserves (calls : list Call) (w : World) :
  quiescent w ->
  wellFormed (files (fc w)) ->
  ∃ w', runCalls calls w = Done tt w' ∧ quiescent w' ∧ wellFormed (files (fc w')).
Proof.
  revert w. induction calls as [| c calls IH]; intros w Hq Hwf; [by exists w |].
  destruct (callProg_preserves c w Hq Hwf) as (w1 & Hrun & Hq1 & Hwf1).
  cbn. rewrite Hrun. by apply IH.
Qed.

Lemma callProg_placeholder_origin (c : Call) (w w' : World) (key : string) (e : Entry) :
  exec (callProg c) w = Done tt w' ->
  files (fc w') !! key = Some e ->
  Empty e = true ->
  files (fc w) !! key = Some e
  ∨ ∃ namespace group fileName,
      c = CallGetOrLoadIfAbsent namespace group fileName
      ∧ key = GenFileId namespace group fileName
      ∧ files (fc w) !! key = None
      ∧ storage (length (storageCalls w)) namespace group fileName = (None, None)
      ∧ e = negativeEntry (clock (clockReads w)) (randSrc (randDraws w)).
Proof.
  intros Hrun Hlookup Hempty.
  destruct c as [file | ns g f | ns g f | ns g f | |]; cbn [callProg] in Hrun.
  - rewrite run_Put in Hrun. cbn zeta in Hrun. destruct (putAccepts _ _).
    + injection Hrun as <-. cbn in Hlookup.
      destruct (decide (fileIdOf file = key)) as [<- | Hne].
      * rewrite lookup_insert_eq in Hlookup. injection Hlookup as <-. done.
      * rewrite lookup_insert_ne in Hlookup by done. by left.
    + injection Hrun as <-. by left.
  - rewrite run_bind, run_Get in Hrun. injection Hrun as <-. by left.
  - rewrite run_bind in Hrun.
    destruct (exec (GetOrLoadIfAbsent ns g f) w) as [r w1 | |] eqn:Hgol; [| done | done].
    injection Hrun as <-.
    destruct (GetOrLoadIfAbsent_files _ _ _ _ _ _ Hgol)
      as [[Hfiles _] | (Hmiss & Hfiles & _)]; rewrite Hfiles in Hlookup; [by left |].
    destruct (storage _ _ _ _) as [file [err |]] eqn:Hreply; cbn in Hlookup; [by left |].
    destruct (decide (GenFileId ns g f = key)) as [<- | Hne];
      [| destruct file; cbn in Hlookup; rewrite lookup_insert_ne in Hlookup by done;
         by left].
    destruct file as [file |]; cbn in Hlookup; rewrite lookup_insert_eq in Hlookup;
      injection Hlookup as <-; [done |].
    right. by exists ns, g, f.
  - rewrite run_Remove in Hrun. injection Hrun as <-. left. cbn in Hlookup.
    by apply lookup_delete_Some in Hlookup as [_ ?].
  - destruct (run_clearExpireEntryTick w) as (w1 & Hrun1 & Hfiles & _).
    rewrite Hrun1 in Hrun. injection Hrun as <-. left.
    rewrite Hfiles in Hlookup. eapply lookup_weaken; [done | apply sweep_subseteq].
  - cbn in Hrun. injection Hrun as <-. by left.
Qed.

(** C10: the entry an accepted Put stores, and the entry a load stores for a
    record, have Empty = false and the record's content, also when that
    content is the empty string.  After any call, an entry of the map with
    Empty = true was in the map before the call, or the call is a
    GetOrLoadIfAbsent whose storage reply was no record and no error and the
    entry is the negative entry, with empty content, zero version and empty
    checksum.  So in every state reached from a new cache every Empty entry
    has that shape; and a Put of a record with empty content is not taken for
    a placeholder: a following Put with an equal or lower version is
    rejected. *)
Theorem Empty_only_on_placeholders :
  (∀ file w, putAccepts (files (fc w) !! fileIdOf file) file = true ->
     ∃ w' e, exec (Put file) w = Done tt w'
       ∧ files (fc w') !! fileIdOf file = Some e
       ∧ Empty e = false ∧ Content e = model.Content file)
  ∧ (∀ namespace group fileName file w,
       files (fc w) !! GenFileId namespace group fileName = None ->
       quiescent w ->
       storage (length (storageCalls w)) namespace group fileName = (Some file, None) ->
       ∃ w' e,
         exec (GetOrLoadIfAbsent namespace group fileName) w = Done (Some e, None) w'
         ∧ files (fc w') !! GenFileId namespace group fileName = Some e
         ∧ Empty e = false ∧ Content e = model.Content file)
  ∧ (∀ c w w' key e,
       exec (callProg c) w = Done tt w' ->
       files (fc w') !! key = Some e ->
       Empty e = true ->
       files (fc w) !! key = Some e
       ∨ (∃ namespace group fileName,
            c = CallGetOrLoadIfAbsent namespace group fileName
            ∧ key = GenFileId namespace group fileName
            ∧ storage (length (storageCalls w)) namespace group fileName = (None, None))
         ∧ Content e = "" ∧ Version e = 0%N ∧ Md5 e = "")
  ∧ (∀ calls, ∃ w', runCalls calls initWorld = Done tt w'
       ∧ ∀ key e, files (fc w') !! key = Some e -> Empty e = true ->
           Content e = "" ∧ Md5 e = "" ∧ Version e = 0%N)
  ∧ (∀ file file' w,
       model.Content file = "" ->
       putAccepts (files (fc w) !! fileIdOf file) file = true ->
       fileIdOf file' = fileIdOf file ->
       (model.Version file' <= model.Version file)%N ->
       ∃ w' w'', exec (Put file) w = Done tt w'
         ∧ exec (Put file') w' = Done tt w''
         ∧ files (fc w'') = files (fc w')
         ∧ Content <$> files (fc w'') !! fileIdOf file = Some "").
Proof.
  split; [| split; [| split; [| split]]].
  - intros file w Hacc. rewrite run_Put, Hacc. cbn zeta.
    eexists _, _. split; [reflexivity |]. cbn. rewrite lookup_insert_eq. done.
  - intros namespace group fileName file w Hmiss Hq Hreply.
    destruct (run_GetOrLoadIfAbsent_miss namespace group fileName w Hmiss (Hq _))
      as (w' & Hrun & Hfiles & _).
    rewrite Hreply in Hrun, Hfiles. cbn in Hrun, Hfiles.
    eexists w', _. split; [exact Hrun |]. rewrite Hfiles, lookup_insert_eq. done.
  - intros c w w' key e Hrun Hlookup Hempty.
    destruct (callProg_placeholder_origin c w w' key e Hrun Hlookup Hempty)
      as [Hold | (ns & g & f & -> & -> & _ & Hreply & ->)]; [by left |].
    right. split; [by exists ns, g, f | done].
  - intros calls.
    destruct (runCalls_preserves calls initWorld) as (w' & Hrun & _ & Hwf).
    + intros key. cbn. by rewrite lookup_empty.
    + intros key e. cbn. by rewrite lookup_empty.
    + exists w'. split; [done |]. intros key e Hlookup Hempty. by eapply Hwf.
  - intros file file' w Hcontent Hacc Hid Hle.
    eexists _, _. split. { rewrite run_Put, Hacc. reflexivity. }
    assert (Hrej : putAccepts (Some (freshEntry (model.Content file) (model.Md5 file)
      (model.Version file) (clock (clockReads w)) (randSrc (randDraws w)))) file' = false).
    { cbn. apply N.ltb_ge. done. }
    split. { rewrite run_Put. cbn. rewrite Hid, lookup_insert_eq, Hrej. reflexivity. }
    split; [done |]. cbn. by rewrite lookup_insert_eq, Hcontent.
Qed.

(** ** The key scheme *)

Lemma append_nil (r : string) : "" +:+ r = r.
Proof. reflexivity. Qed.

Lemma append_cons (c : ascii) (a r : string) : String c a +:+ r = String c (a +:+ r).
Proof. reflexivity. Qed.

Lemma append_separator_inj (a a' r r' : string) :
  hasSeparator a = false ->
  hasSeparator a' = false ->
  a +:+ FileIdSeparator +:+ r = a' +:+ FileIdSeparator +:+ r' ->
  a = a' ∧ r = r'.
Proof.
  revert a'. induction a as [| c a IH]; intros [| c' a'] Ha Ha' Heq;
    unfold FileIdSeparator in *;
    rewrite ?append_cons, ?append_nil in Heq; cbn in Ha, Ha'.
  - by injection Heq as ->.
  - injection Heq as <- _. done.
  - injection Heq as -> _. done.
  - injection Heq as -> Heq.
    apply orb_false_iff in Ha as [_ Ha]. apply orb_false_iff in Ha' as [_ Ha'].
    destruct (IH a' Ha Ha' Heq) as [-> ->]. done.
Qed.

(** Keys are unambiguous as long as namespace and group are free of the
    separator. *)
Lemma GenFileId_inj (namespace group fileName namespace' group' fileName' : string) :
  hasSeparator namespace = false -> hasSeparator group = false ->
  hasSeparator namespace' = false -> hasSeparator group' = false ->
  GenFileId namespace group fileName = GenFileId namespace' group' fileName' ->
  namespace = namespace' ∧ group = group' ∧ fileName = fileName'.
Proof.
  intros Hn Hg Hn' Hg' Heq. unfold GenFileId in Heq.
  apply append_separator_inj in Heq as [-> Heq]; [| done | done].
  apply append_separator_inj in Heq as [-> ->]; done.
Qed.

(** C8: the key is namespace, separator, group, separator, file name, joined
    as they are, with "+" for the separator.  Two different triples whose
    parts contain "+" get the same key, so GenFileId is not injective, and
    the cache serves under one identity what was put under the other.  Only
    such triples collide: among triples whose namespace and group are free
    of "+", equal keys come from equal triples. *)
Theorem GenFileId_not_injective :
  (∀ namespace group fileName,
     GenFileId namespace group fileName =
       namespace +:+ "+" +:+ group +:+ "+" +:+ fileName)
  ∧ (("a+", "b", "c") : FileKey) ≠ ("a", "+b", "c")
  ∧ hasSeparator "a+" = true ∧ hasSeparator "+b" = true
  ∧ GenFileId "a+" "b" "c" = GenFileId "a" "+b" "c"
  ∧ ¬ (∀ namespace group fileName namespace' group' fileName',
         GenFileId namespace group fileName = GenFileId namespace' group' fileName' ->
         (namespace, group, fileName) = (namespace', group', fileName'))
  ∧ (∀ content md5 version w,
       files (fc w) !! GenFileId "a+" "b" "c" = None ->
       ∃ w' e,
         exec (Put (release "a+" "b" "c" content md5 version)) w = Done tt w'
         ∧ exec (Get "a" "+b" "c") w' = Done (Some e) w'
         ∧ Content e = content)
  ∧ (∀ namespace group fileName namespace' group' fileName',
       hasSeparator namespace = false -> hasSeparator group = false ->
       hasSeparator namespace' = false -> hasSeparator group' = false ->
       GenFileId namespace group fileName = GenFileId namespace' group' fileName' ->
       (namespace, group, fileName) = (namespace', group', fileName')).
Proof.
  split; [done |]. split; [done |]. split; [done |]. split; [done |].
  split; [done |]. split; [| split].
  - intros Hinj. by specialize (Hinj "a+" "b" "c" "a" "+b" "c" eq_refl).
  - intros content md5 version w Hnone.
    eexists _, _. split.
    { rewrite run_Put. unfold fileIdOf. cbn [release model.Namespace model.Group
        model.FileName]. rewrite Hnone. reflexivity. }
    split. { rewrite run_Get. cbn. rewrite lookup_insert_eq. reflexivity. }
    reflexivity.
  - intros namespace group fileName namespace' group' fileName' Hn Hg Hn' Hg' Heq.
    by destruct (GenFileId_inj _ _ _ _ _ _ Hn Hg Hn' Hg' Heq) as (-> & -> & ->).
Qed.

(** ** Goroutines: the interleaving semantics *)

Lemma run_schedule_rtc {A : Type} (sched : list nat) (pool pool' : list (Prog A))
    (w w' : World) :
  run_schedule sched pool w = Some (pool', w') ->
  rtc pool_step (pool, w) (pool', w').
Proof.
  revert pool w. induction sched as [| i sched IH]; intros pool w Hrun; cbn in Hrun.
  - injection Hrun as -> ->. apply rtc_refl.
  - destruct (pool !! i) as [p |] eqn:Hp; [| done].
    destruct (thread_step p w) as [[p' w1] |] eqn:Hstep; [| done].
    eapply rtc_l; [| by apply IH]. by econstructor.
Qed.

(** A single goroutine that runs alone goes through its program as [run]
    does. *)
Lemma run_alone {A : Type} (p : Prog A) (w w' : World) (a : A) :
  run p w = Done a w' ->
  rtc pool_step ([p], w) ([Ret a], w').
Proof.
  revert w. induction p as [a0 | R op k IH]; intros w Hrun; cbn in Hrun.
  - injection Hrun as -> ->. apply rtc_refl.
  - destruct (perform op w) as [r w1 | |] eqn:Hop; [| done | done].
    eapply rtc_l; [| by apply IH].
    apply (pool_step_thread [Act op k] w 0 (Act op k) (k r) w1); [done |].
    cbn. by rewrite Hop.
Qed.

(** *** GetOrLoadIfAbsent, stage by stage *)

Lemma GetOrLoadIfAbsent_follows (namespace group fileName : string) :
  follows (GetOrLoadIfAbsent namespace group fileName)
    (namespace, group, fileName) AtGetCntLoad.
Proof. unfold GetOrLoadIfAbsent. follow_stages. Qed.

(** *** Pools of GetOrLoadIfAbsent calls *)

Lemma tracks_callers (keys : list FileKey) : tracks (callers keys) (startStages keys).
Proof.
  unfold tracks, callers, startStages.
  apply Forall2_fmap, Forall_Forall2_diag, Forall_forall.
  intros [[namespace group] fileName] _. apply GetOrLoadIfAbsent_follows.
Qed.

Lemma follows_step (p p' : Prog (option Entry * option error)) (k : FileKey) (s : Stage)
    (w w' : World) :
  follows p k s ->
  thread_step p w = Some (p', w') ->
  ∃ s', stageStep k s w = Done s' w' ∧ follows p' k s'.
Proof.
  destruct p as [r | R op kont]; [done |]. cbn. intros [_ Hf] Hstep.
  specialize (Hf w). destruct (perform op w); [| done | done].
  by injection Hstep as <- <-.
Qed.

Lemma follows_stuck (p : Prog (option Entry * option error)) (k : FileKey) (s : Stage)
    (w : World) :
  follows p k s ->
  thread_step p w = None ->
  returned p = true ∨ stageStep k s w = Blocked ∨ stageStep k s w = Panic.
Proof.
  destruct p as [r | R op kont]; [by left |]. cbn. intros [_ Hf] Hstep.
  specialize (Hf w). destruct (perform op w); [done | |]; auto.
Qed.

Lemma follows_progress (p : Prog (option Entry * option error)) (k : FileKey) (s s' : Stage)
    (w w' : World) :
  follows p k s ->
  stageStep k s w = Done s' w' ->
  ∃ p', thread_step p w = Some (p', w').
Proof.
  destruct p as [r | R op kont]; cbn.
  - intros -> Hstep. done.
  - intros [_ Hf] Hstep. specialize (Hf w).
    destruct (perform op w) as [r w1 | |]; [| congruence | congruence].
    destruct Hf as (s1 & Hs1 & _). rewrite Hstep in Hs1. injection Hs1 as _ <-. eauto.
Qed.

Lemma follows_returned (p : Prog (option Entry * option error)) (k : FileKey) (s : Stage) :
  follows p k s ->
  (returned p = true ↔ ∃ r, s = Returned r) ∧ (∀ r, s = Returned r -> p = Ret r).
Proof.
  destruct p as [r | R op kont]; cbn.
  - intros ->. split; [split; eauto |]. by intros r' [= ->].
  - intros [Hne _]. split; [split; [done |] |].
    + intros [r ->]. by destruct (Hne r).
    + intros r ->. by destruct (Hne r).
Qed.

Lemma tracks_step (pool pool' : list (Prog (option Entry * option error)))
    (ts : list Thread) (w w' : World) :
  tracks pool ts ->
  pool_step (pool, w) (pool', w') ->
  ∃ ts', stages_step (ts, w) (ts', w') ∧ tracks pool' ts'.
Proof.
  intros Htr Hstep. inversion Hstep as [pool0 w0 i p p' w1 Hp Hth]; subst.
  destruct (Forall2_lookup_l _ _ _ _ _ Htr Hp) as ([k s] & Ht & Hf).
  destruct (follows_step _ _ _ _ _ _ Hf Hth) as (s' & Hs & Hf').
  exists (<[i := (k, s')]> ts). split; [by econstructor |].
  by apply Forall2_insert.
Qed.

Lemma tracks_rtc (x y : list (Prog (option Entry * option error)) * World)
    (ts : list Thread) :
  rtc pool_step x y ->
  tracks x.1 ts ->
  ∃ ts', rtc stages_step (ts, x.2) (ts', y.2) ∧ tracks y.1 ts'.
Proof.
  intros Hrtc. revert ts. induction Hrtc as [x | x y z Hstep _ IH]; intros ts Htr.
  - by exists ts.
  - destruct x as [pool w], y as [pool1 w1].
    destruct (tracks_step _ _ _ _ _ Htr Hstep) as (ts1 & Hs1 & Htr1).
    destruct (IH ts1 Htr1) as (ts' & Hrtc' & Htr').
    exists ts'. split; [| done]. by eapply rtc_l.
Qed.

(** *** Counting goroutines *)

Lemma count_insert (P : Thread -> bool) (ts : list Thread) (i : nat) (t t' : Thread) :
  ts !! i = Some t ->
  count P (<[i := t']> ts) + (if P t then 1 else 0) = count P ts + (if P t' then 1 else 0).
Proof.
  revert i. induction ts as [| t0 ts IH]; intros [| i] Hi; try done.
  - injection Hi as ->. cbn. lia.
  - change (ts !! i = Some t) in Hi. specialize (IH i Hi).
    change (<[S i := t']> (t0 :: ts)) with (t0 :: <[i := t']> ts).
    cbn [count]. lia.
Qed.

Lemma count_lookup (P : Thread -> bool) (ts : list Thread) (i : nat) (t : Thread) :
  ts !! i = Some t -> P t = true -> 1 ≤ count P ts.
Proof.
  revert i. induction ts as [| t0 ts IH]; intros [| i] Hi HP; try done; cbn in *.
  - injection Hi as ->. rewrite HP. lia.
  - specialize (IH i Hi HP). lia.
Qed.

Lemma count_two (P : Thread -> bool) (ts : list Thread) (i j : nat) (t t' : Thread) :
  ts !! i = Some t -> ts !! j = Some t' -> P t = true -> P t' = true -> i ≠ j ->
  2 ≤ count P ts.
Proof.
  revert i j. induction ts as [| t0 ts IH]; intros [| i] [| j] Hi Hj HP HP' Hne;
    try done; cbn in *.
  - injection Hi as ->. rewrite HP. pose proof (count_lookup P ts j t' Hj HP'). lia.
  - injection Hj as ->. rewrite HP'. pose proof (count_lookup P ts i t Hi HP). lia.
  - assert (i ≠ j) as Hne' by lia. specialize (IH i j Hi Hj HP HP' Hne'). lia.
Qed.

Lemma count_pos (P : Thread -> bool) (ts : list Thread) :
  1 ≤ count P ts -> ∃ i t, ts !! i = Some t ∧ P t = true.
Proof.
  induction ts as [| t0 ts IH]; cbn; [lia |]. intros Hpos.
  destruct (P t0) eqn:HP.
  - exists 0, t0. done.
  - destruct IH as (i & t & Hi & Ht); [lia |]. exists (S i), t. done.
Qed.

Lemma count_le (P Q : Thread -> bool) (ts : list Thread) :
  (∀ t, P t = true -> Q t = true) -> count P ts ≤ count Q ts.
Proof.
  intros Himpl. induction ts as [| t0 ts IH]; cbn; [done |].
  specialize (Himpl t0). destruct (P t0), (Q t0); try lia;
    by specialize (Himpl eq_refl).
Qed.

(** *** What a step does to the shared objects *)

Lemma stageStep_locks (k : FileKey) (s s' : Stage) (w w' : World) :
  stageStep k s w = Done s' w' ->
  (fileLoadLocks (fc w') = fileLoadLocks (fc w)
   ∧ holdsLock s' = holdsLock s
   ∧ (hasMutex s' = true -> hasMutex s = true ∨ is_Some (fileLoadLocks (fc w) !! keyId k)))
  ∨ (s = AtLoadOrStore ∧ s' = AtLock
     ∧ fileLoadLocks (fc w) !! keyId k = None
     ∧ fileLoadLocks (fc w') = <[keyId k := false]> (fileLoadLocks (fc w)))
  ∨ (s = AtLock ∧ s' = AtDoubleCheck
     ∧ fileLoadLocks (fc w) !! keyId k = Some false
     ∧ fileLoadLocks (fc w') = <[keyId k := true]> (fileLoadLocks (fc w)))
  ∨ (∃ r, s = AtUnlock r ∧ s' = Returned r
     ∧ fileLoadLocks (fc w) !! keyId k = Some true
     ∧ fileLoadLocks (fc w') = <[keyId k := false]> (fileLoadLocks (fc w))).
Proof.
  intros Hstep. destruct s; cbn in Hstep; repeat case_match; simplify_eq; cbn;
    try (left; split; [done |]; split; [done |]; by eauto);
    try (right; left; done);
    try (right; right; left; done);
    try (right; right; right; by eexists).
Qed.

Lemma stageStep_flight (k : FileKey) (s s' : Stage) (w w' : World) :
  stageStep k s w = Done s' w' ->
  (storageInFlight w' = storageInFlight w ∧ storageCalls w' = storageCalls w
   ∧ isAwait s = false ∧ isAwait s' = false)
  ∨ (s = AtInvoke ∧ s' = AtAwait (length (storageCalls w))
     ∧ storageCalls w' = k :: storageCalls w
     ∧ storageInFlight w' = (length (storageCalls w), k) :: storageInFlight w)
  ∨ (∃ n, s = AtAwait n ∧ isAwait s' = false
     ∧ storageCalls w' = storageCalls w
     ∧ storageInFlight w' = filter (λ c, c.1 ≠ n) (storageInFlight w)).
Proof.
  intros Hstep. destruct s; cbn in Hstep; repeat case_match; simplify_eq; cbn;
    try (left; done); try (right; left; done);
    try (right; right; by eexists).
Qed.

Lemma stageStep_files (k : FileKey) (s s' : Stage) (w w' : World) :
  stageStep k s w = Done s' w' ->
  files (fc w') = files (fc w)
  ∨ ∃ e, s = AtStore e ∧ s' = AtUnlock (Some e, None)
      ∧ files (fc w') = <[keyId k := e]> (files (fc w)).
Proof.
  intros Hstep. destruct s; cbn in Hstep; repeat case_match; simplify_eq; cbn;
    try (left; done); right; by eexists.
Qed.

(** *** The mutex invariant *)

Lemma lockInv_start (keys : list FileKey) (w : World) :
  quiescent w -> storageInFlight w = [] -> lockInv (startStages keys) w.
Proof.
  intros Hq Hflight. split.
  - intros id. rewrite bool_decide_eq_false_2 by apply Hq.
    unfold startStages. induction keys as [| k keys IH]; [done |].
    cbn. unfold holdsFor at 1. cbn. by rewrite andb_false_r.
  - intros i k s Hi. unfold startStages in Hi.
    apply list_lookup_fmap_Some in Hi as (k' & [= -> ->] & _). done.
  - intros c. rewrite Hflight. by intros ?%elem_of_nil.
  - intros c. rewrite Hflight. by intros ?%elem_of_nil.
  - rewrite Hflight. constructor.
Qed.

Lemma holdsFor_other (id : string) (k : FileKey) (s : Stage) :
  keyId k ≠ id -> holdsFor id (k, s) = false.
Proof. intros Hne. unfold holdsFor. cbn. by rewrite bool_decide_eq_false_2. Qed.

Lemma holdsFor_self (k : FileKey) (s : Stage) :
  holdsFor (keyId k) (k, s) = holdsLock s.
Proof. unfold holdsFor. cbn. by rewrite bool_decide_eq_true_2. Qed.

(** The count of holders follows the mutex through a step. *)
Lemma lock_count_step (ts : list Thread) (i : nat) (k : FileKey) (s s' : Stage)
    (locks locks' : gmap string bool) (id : string) :
  ts !! i = Some (k, s) ->
  count (holdsFor id) ts = (if bool_decide (locks !! id = Some true) then 1 else 0) ->
  (if bool_decide (locks' !! id = Some true) then 1 else 0)
    + (if holdsFor id (k, s) then 1 else 0)
  = (if bool_decide (locks !! id = Some true) then 1 else 0)
    + (if holdsFor id (k, s') then 1 else 0) ->
  count (holdsFor id) (<[i := (k, s')]> ts)
  = (if bool_decide (locks' !! id = Some true) then 1 else 0).
Proof.
  intros Hi Hcount Hbalance.
  pose proof (count_insert (holdsFor id) ts i (k, s) (k, s') Hi) as Hins. lia.
Qed.

Lemma lockInv_step (ts ts' : list Thread) (w w' : World) :
  stages_step (ts, w) (ts', w') -> lockInv ts w -> lockInv ts' w'.
Proof.
  intros Hstep [Hcount Hreg Hthreads Htickets Hnodup].
  inversion Hstep as [ts0 w0 i k s s' w1 Hi Hs]; subst.
  assert (Hlen : i < length ts) by by eapply lookup_lt_Some.
  assert (Hgrow : ∀ id, is_Some (fileLoadLocks (fc w) !! id) ->
    is_Some (fileLoadLocks (fc w') !! id)).
  { intros id Hsome.
    destruct (stageStep_locks _ _ _ _ _ Hs)
      as [(-> & _) | [(_ & _ & _ & ->) | [(_ & _ & _ & ->) | (r & _ & _ & _ & ->)]]];
      [done | | |]; (destruct (decide (keyId k = id)) as [<- | Hne];
        [by rewrite lookup_insert_eq | by rewrite lookup_insert_ne]). }
  split.
  - intros id. apply (lock_count_step ts i k s s' (fileLoadLocks (fc w))); [done | done |].
    destruct (stageStep_locks _ _ _ _ _ Hs)
      as [(-> & Hholds & _) | [(-> & -> & Hnone & ->) | [(-> & -> & Hfree & ->)
         | (r & -> & -> & Hheld & ->)]]].
    + unfold holdsFor. cbn. rewrite Hholds. lia.
    + destruct (decide (keyId k = id)) as [<- | Hne].
      * rewrite !holdsFor_self, lookup_insert_eq, Hnone. done.
      * rewrite !holdsFor_other, lookup_insert_ne by done. done.
    + destruct (decide (keyId k = id)) as [<- | Hne].
      * rewrite !holdsFor_self, lookup_insert_eq, Hfree. done.
      * rewrite !holdsFor_other, lookup_insert_ne by done. done.
    + destruct (decide (keyId k = id)) as [<- | Hne].
      * rewrite !holdsFor_self, lookup_insert_eq, Hheld. done.
      * rewrite !holdsFor_other, lookup_insert_ne by done. done.
  - intros j k' s0 Hj Hmutex.
    destruct (decide (i = j)) as [<- | Hne].
    + rewrite list_lookup_insert_eq in Hj by done. injection Hj as <- <-.
      destruct (stageStep_locks _ _ _ _ _ Hs)
        as [(-> & _ & Hhas) | [(_ & _ & _ & ->) | [(_ & _ & _ & ->) | (r & _ & _ & _ & ->)]]];
        [| by rewrite lookup_insert_eq ..].
      destruct (Hhas Hmutex) as [Hold | Hsome]; [by eapply Hreg | done].
    + rewrite list_lookup_insert_ne in Hj by done. apply Hgrow. by eapply Hreg.
  - intros c Hc.
    destruct (stageStep_flight _ _ _ _ _ Hs)
      as [(Hfl & _ & Hs0 & _) | [(-> & -> & _ & Hfl) | (n & -> & _ & _ & Hfl)]];
      rewrite Hfl in Hc.
    + destruct (Hthreads c Hc) as [j Hj]. exists j.
      rewrite list_lookup_insert_ne; [done |]. intros <-.
      rewrite Hi in Hj. injection Hj as -> ->. done.
    + apply elem_of_cons in Hc as [-> | Hc].
      * exists i. by rewrite list_lookup_insert_eq.
      * destruct (Hthreads c Hc) as [j Hj]. exists j.
        rewrite list_lookup_insert_ne; [done |]. intros <-.
        rewrite Hi in Hj. by injection Hj.
    + apply list_elem_of_filter in Hc as [Hne Hc].
      destruct (Hthreads c Hc) as [j Hj]. exists j.
      rewrite list_lookup_insert_ne; [done |]. intros <-.
      rewrite Hi in Hj. injection Hj as _ ->. done.
  - intros c Hc.
    destruct (stageStep_flight _ _ _ _ _ Hs)
      as [(Hfl & Hcalls & _) | [(_ & _ & Hcalls & Hfl) | (n & _ & _ & Hcalls & Hfl)]];
      rewrite Hfl in Hc; rewrite Hcalls.
    + by apply Htickets.
    + cbn. apply elem_of_cons in Hc as [-> | Hc]; [cbn; lia |].
      specialize (Htickets c Hc). lia.
    + apply list_elem_of_filter in Hc as [_ Hc]. by apply Htickets.
  - destruct (stageStep_flight _ _ _ _ _ Hs)
      as [(Hfl & _) | [(_ & _ & _ & Hfl) | (n & _ & _ & _ & Hfl)]]; rewrite Hfl.
    + done.
    + cbn. apply NoDup_cons. split; [| done].
      intros Hin. apply list_elem_of_fmap in Hin as (c & Hc1 & Hc).
      specialize (Htickets c Hc). lia.
    + eapply sublist_NoDup; [exact Hnodup |].
      apply fmap_sublist, sublist_filter.
Qed.

Lemma lockInv_rtc (x y : list Thread * World) :
  rtc stages_step x y -> lockInv x.1 x.2 -> lockInv y.1 y.2.
Proof.
  induction 1 as [x | x y z Hstep _ IH]; [done |].
  intros Hinv. apply IH. destruct x, y. by eapply lockInv_step.
Qed.

(** *** Consequences of the mutex invariant *)

(** Calls in flight for the same file id are one and the same call. *)
Lemma lockInv_one_in_flight (ts : list Thread) (w : World) (c1 c2 : nat * FileKey) :
  lockInv ts w ->
  c1 ∈ storageInFlight w -> c2 ∈ storageInFlight w ->
  keyId c1.2 = keyId c2.2 ->
  c1 = c2.
Proof.
  intros Hinv Hc1 Hc2 Hid.
  destruct (flight_threads _ _ Hinv c1 Hc1) as [i Hi].
  destruct (flight_threads _ _ Hinv c2 Hc2) as [j Hj].
  destruct (decide (i = j)) as [<- | Hne].
  - rewrite Hi in Hj. injection Hj as Hk Hn. destruct c1, c2; cbn in *. congruence.
  - pose proof (lock_count _ _ Hinv (keyId c1.2)) as Hcount.
    assert (2 ≤ count (holdsFor (keyId c1.2)) ts) as Htwo.
    { eapply (count_two _ _ i j); [exact Hi | exact Hj | | | done].
      - apply holdsFor_self.
      - rewrite Hid. apply holdsFor_self. }
    case_bool_decide; lia.
Qed.

(** A goroutine that holds the mutex of its key can always take its step. *)
Lemma holder_steps (k : FileKey) (s : Stage) (w : World) :
  holdsLock s = true ->
  fileLoadLocks (fc w) !! keyId k = Some true ->
  ∃ s' w', stageStep k s w = Done s' w'.
Proof.
  intros Hholds Hheld. destruct s; try done; cbn; rewrite ?Hheld; try case_match; eauto.
Qed.

Lemma lockInv_held (ts : list Thread) (w : World) (i : nat) (k : FileKey) (s : Stage) :
  lockInv ts w -> ts !! i = Some (k, s) -> holdsLock s = true ->
  fileLoadLocks (fc w) !! keyId k = Some true.
Proof.
  intros Hinv Hi Hholds.
  pose proof (lock_count _ _ Hinv (keyId k)) as Hcount.
  pose proof (count_lookup (holdsFor (keyId k)) ts i (k, s) Hi) as Hpos.
  rewrite holdsFor_self in Hpos. specialize (Hpos Hholds).
  case_bool_decide; [done | lia].
Qed.

(** No goroutine of the pool ever panics. *)
Lemma lockInv_no_panic (ts : list Thread) (w : World) (i : nat) (k : FileKey) (s : Stage) :
  lockInv ts w -> ts !! i = Some (k, s) -> stageStep k s w ≠ Panic.
Proof.
  intros Hinv Hi.
  destruct (decide (holdsLock s = true)) as [Hholds | Hfree].
  - destruct (holder_steps k s w Hholds) as (s' & w' & ->); [| done].
    by eapply lockInv_held.
  - destruct s; try done; cbn; repeat case_match; try done.
    destruct (lock_registered _ _ Hinv i k AtLock Hi eq_refl) as [b Hb]. congruence.
Qed.

(** A goroutine that cannot step has returned, or waits at Lock for the
    mutex of its own file id, which another goroutine of the pool holds; and
    that one can step. *)
Lemma lockInv_blocked (ts : list Thread) (w : World) (i : nat) (k : FileKey) (s : Stage) :
  lockInv ts w -> ts !! i = Some (k, s) -> stageStep k s w = Blocked ->
  (∃ r, s = Returned r)
  ∨ (s = AtLock
     ∧ ∃ j k' s', j ≠ i ∧ ts !! j = Some (k', s') ∧ keyId k' = keyId k
         ∧ holdsLock s' = true
         ∧ ∃ s'' w', stageStep k' s' w = Done s'' w').
Proof.
  intros Hinv Hi Hblocked.
  destruct s; cbn in Hblocked; repeat case_match; try done; [| by eauto].
  right. split; [done |].
  pose proof (lock_count _ _ Hinv (keyId k)) as Hcount.
  rewrite bool_decide_eq_true_2 in Hcount by done.
  destruct (count_pos (holdsFor (keyId k)) ts) as (j & [k' s'] & Hj & Hholds); [lia |].
  unfold holdsFor in Hholds. cbn in Hholds.
  apply andb_true_iff in Hholds as [Hid Hholds]. apply bool_decide_eq_true in Hid.
  exists j, k', s'. split; [| split; [done | split; [done | split; [done |]]]].
  - intros ->. rewrite Hi in Hj. injection Hj as <- <-. done.
  - apply holder_steps; [done |]. by rewrite Hid.
Qed.

(** *** Loads of one file id *)

Lemma stageStep_load (k : FileKey) (s s' : Stage) (w w' : World) :
  noErrorFor (keyId k) ->
  stageStep k s w = Done s' w' ->
  stageOk (files (fc w) !! keyId k) s ->
  (files (fc w') = files (fc w) ∧ storageCalls w' = storageCalls w
   ∧ stageOk (files (fc w) !! keyId k) s' ∧ loading s' = loading s)
  ∨ (s = AtInvoke ∧ (∃ n, s' = AtAwait n)
     ∧ files (fc w') = files (fc w) ∧ files (fc w) !! keyId k = None
     ∧ storageCalls w' = k :: storageCalls w)
  ∨ (∃ e, s = AtStore e ∧ s' = AtUnlock (Some e, None)
     ∧ files (fc w) !! keyId k = None
     ∧ files (fc w') = <[keyId k := e]> (files (fc w))
     ∧ storageCalls w' = storageCalls w).
Proof.
  intros Hok Hstep Hstage.
  destruct s; cbn in Hstep, Hstage; try done.
  all: try (specialize (Hok ticket k eq_refl)).
  all: repeat case_match; simplify_eq; cbn.
  all: try (left; repeat split; by eauto).
  - right. left. repeat split; eauto.
  - right. right. eexists. repeat split; eauto.
Qed.

Lemma callsFor_cons (id : string) (k : FileKey) (calls : list FileKey) :
  callsFor id (k :: calls) =
    (if bool_decide (keyId k = id) then 1 else 0) + callsFor id calls.
Proof.
  unfold callsFor. rewrite filter_cons.
  case_decide; case_bool_decide; done.
Qed.

Lemma loadingFor_other (id : string) (k : FileKey) (s : Stage) :
  keyId k ≠ id -> loadingFor id (k, s) = false.
Proof. intros Hne. unfold loadingFor. cbn. by rewrite bool_decide_eq_false_2. Qed.

Lemma loadingFor_self (k : FileKey) (s : Stage) :
  loadingFor (keyId k) (k, s) = loading s.
Proof. unfold loadingFor. cbn. by rewrite bool_decide_eq_true_2. Qed.

Lemma loading_holdsFor (id : string) (t : Thread) :
  loadingFor id t = true -> holdsFor id t = true.
Proof.
  unfold loadingFor, holdsFor. intros [-> Hl]%andb_true_iff. cbn.
  by destruct t.2.
Qed.

Lemma loadInv_start (id : string) (keys : list FileKey) (w : World) :
  files (fc w) !! id = None ->
  loadInv id (callsFor id (storageCalls w)) (startStages keys) w.
Proof.
  intros Hnone. split.
  - intros i k s Hi _. unfold startStages in Hi.
    apply list_lookup_fmap_Some in Hi as (k' & [= -> ->] & _). done.
  - rewrite Hnone. replace (count (loadingFor id) (startStages keys)) with 0; [lia |].
    unfold startStages. induction keys as [| k keys IH]; [done |].
    cbn. unfold loadingFor at 1. cbn. by rewrite andb_false_r.
Qed.

Lemma loadInv_step (id : string) (base : nat) (ts ts' : list Thread) (w w' : World) :
  noErrorFor id ->
  stages_step (ts, w) (ts', w') ->
  lockInv ts w -> loadInv id base ts w -> loadInv id base ts' w'.
Proof.
  intros Hok Hstep Hlock [Hstages Hcalls].
  inversion Hstep as [ts0 w0 i k s s' w1 Hi Hs]; subst.
  assert (Hlen : i < length ts) by by eapply lookup_lt_Some.
  destruct (decide (keyId k = id)) as [<- | Hne].
  - pose proof (Hstages i k s Hi eq_refl) as Hstage.
    pose proof (count_insert (loadingFor (keyId k)) ts i (k, s) (k, s') Hi) as Hins.
    rewrite !loadingFor_self in Hins.
    destruct (stageStep_load k s s' w w' Hok Hs Hstage)
      as [(Hf & Hc & Hok' & Hl) | [(-> & (n & ->) & Hf & Hnone & Hc)
         | (e & -> & -> & Hnone & Hf & Hc)]].
    + split.
      * intros j k' s0 Hj Hk'. rewrite Hf.
        destruct (decide (i = j)) as [<- | Hij].
        -- rewrite list_lookup_insert_eq in Hj by done. by injection Hj as <- <-.
        -- rewrite list_lookup_insert_ne in Hj by done. by eapply Hstages.
      * rewrite Hf, Hc, Hcalls. rewrite Hl in Hins.
        destruct (files (fc w) !! keyId k); [done |]. lia.
    + split.
      * intros j k' s0 Hj Hk'. rewrite Hf.
        destruct (decide (i = j)) as [<- | Hij].
        -- rewrite list_lookup_insert_eq in Hj by done. by injection Hj as <- <-.
        -- rewrite list_lookup_insert_ne in Hj by done. by eapply Hstages.
      * rewrite Hf, Hc, callsFor_cons, bool_decide_eq_true_2, Hcalls, Hnone by done.
        cbn in Hins. lia.
    + assert (Hnew : files (fc w') !! keyId k = Some e) by by rewrite Hf, lookup_insert_eq.
      pose proof (lock_count _ _ Hlock (keyId k)) as Hholders.
      split.
      * intros j k' s0 Hj Hk'. rewrite Hnew.
        destruct (decide (i = j)) as [<- | Hij].
        -- rewrite list_lookup_insert_eq in Hj by done. injection Hj as <- <-.
           cbn. by eexists.
        -- rewrite list_lookup_insert_ne in Hj by done.
           pose proof (Hstages j k' s0 Hj Hk') as Hold. rewrite Hnone in Hold.
           destruct (holdsLock s0) eqn:Hholds.
           ++ assert (2 ≤ count (holdsFor (keyId k)) ts) as Htwo.
              { eapply (count_two _ _ i j); [exact Hi | exact Hj | | | done].
                - apply holdsFor_self.
                - rewrite <- Hk', holdsFor_self. done. }
              case_bool_decide; lia.
           ++ destruct s0; try done. cbn in Hold. by destruct Hold as (? & ? & _).
      * rewrite Hnew, Hc, Hcalls, Hnone.
        pose proof (count_lookup (loadingFor (keyId k)) ts i _ Hi) as Hpos.
        rewrite loadingFor_self in Hpos. specialize (Hpos eq_refl).
        pose proof (count_le (loadingFor (keyId k)) (holdsFor (keyId k)) ts
          (loading_holdsFor (keyId k))) as Hle.
        case_bool_decide; lia.
  - assert (Hfiles : files (fc w') !! id = files (fc w) !! id).
    { destruct (stageStep_files _ _ _ _ _ Hs) as [-> | (e & _ & _ & ->)]; [done |].
      by rewrite lookup_insert_ne. }
    assert (Hsame : callsFor id (storageCalls w') = callsFor id (storageCalls w)).
    { destruct (stageStep_flight _ _ _ _ _ Hs)
        as [(_ & -> & _) | [(_ & _ & -> & _) | (n & _ & _ & -> & _)]]; [done | | done].
      by rewrite callsFor_cons, bool_decide_eq_false_2. }
    pose proof (count_insert (loadingFor id) ts i (k, s) (k, s') Hi) as Hins.
    rewrite !loadingFor_other in Hins by done.
    split.
    + intros j k' s0 Hj Hk'. rewrite Hfiles.
      destruct (decide (i = j)) as [<- | Hij].
      * rewrite list_lookup_insert_eq in Hj by done. by injection Hj as <- <-.
      * rewrite list_lookup_insert_ne in Hj by done. by eapply Hstages.
    + rewrite Hfiles, Hsame, Hcalls. destruct (files (fc w) !! id); [done |]. lia.
Qed.

Lemma loadInv_rtc (id : string) (base : nat) (x y : list Thread * World) :
  noErrorFor id ->
  rtc stages_step x y ->
  lockInv x.1 x.2 -> loadInv id base x.1 x.2 ->
  lockInv y.1 y.2 ∧ loadInv id base y.1 y.2.
Proof.
  intros Hok. induction 1 as [x | x y z Hstep _ IH]; [done |].
  intros Hlock Hload. destruct x, y. apply IH.
  - by eapply lockInv_step.
  - by eapply loadInv_step.
Qed.

(** *** Termination and progress *)

Lemma rank_step (k : FileKey) (s s' : Stage) (w w' : World) :
  stageStep k s w = Done s' w' -> rank s' < rank s.
Proof.
  intros Hstep. destruct s; cbn in Hstep; repeat case_match; simplify_eq; cbn; lia.
Qed.

Lemma remaining_insert (ts : list Thread) (i : nat) (k : FileKey) (s s' : Stage) :
  ts !! i = Some (k, s) ->
  remaining (<[i := (k, s')]> ts) + rank s = remaining ts + rank s'.
Proof.
  unfold remaining. revert i. induction ts as [| t ts IH]; intros [| i] Hi; try done.
  - injection Hi as ->. cbn. lia.
  - change (ts !! i = Some (k, s)) in Hi. specialize (IH i Hi).
    change (<[S i := (k, s')]> (t :: ts)) with (t :: <[i := (k, s')]> ts).
    cbn in *. lia.
Qed.

Lemma remaining_start (keys : list FileKey) :
  remaining (startStages keys) = 14 * length keys.
Proof.
  unfold remaining, startStages. induction keys as [| k keys IH]; [done |].
  cbn in *. lia.
Qed.

Lemma stages_step_remaining (ts ts' : list Thread) (w w' : World) :
  stages_step (ts, w) (ts', w') -> remaining ts' < remaining ts.
Proof.
  intros Hstep. inversion Hstep as [ts0 w0 i k s s' w1 Hi Hs]; subst.
  pose proof (remaining_insert ts i k s s' Hi). pose proof (rank_step _ _ _ _ _ Hs). lia.
Qed.

Lemma stages_step_keys (ts ts' : list Thread) (w w' : World) :
  stages_step (ts, w) (ts', w') -> ts'.*1 = ts.*1.
Proof.
  intros Hstep. inversion Hstep as [ts0 w0 i k s s' w1 Hi Hs]; subst.
  rewrite list_fmap_insert. cbn. apply list_insert_id.
  by rewrite list_lookup_fmap, Hi.
Qed.

(** Everything a run of the stage machine keeps. *)
Lemma stages_nsteps (n : nat) (x y : list Thread * World) :
  nsteps stages_step n x y ->
  lockInv x.1 x.2 ->
  lockInv y.1 y.2 ∧ y.1.*1 = x.1.*1 ∧ n + remaining y.1 ≤ remaining x.1
  ∧ rtc stages_step x y.
Proof.
  induction 1 as [x | n x y z Hstep _ IH]; intros Hlock.
  - split; [done |]. split; [done |]. split; [lia | done].
  - destruct x as [ts w], y as [ts1 w1].
    destruct IH as (Hlock' & Hkeys & Hrem & Hrtc); [by eapply lockInv_step |].
    split; [done |]. split; [| split].
    + rewrite Hkeys. by eapply stages_step_keys.
    + pose proof (stages_step_remaining _ _ _ _ Hstep). cbn [fst snd] in *. lia.
    + by eapply rtc_l.
Qed.

Lemma tracks_nsteps (n : nat) (x y : list (Prog (option Entry * option error)) * World)
    (ts : list Thread) :
  nsteps pool_step n x y ->
  tracks x.1 ts ->
  ∃ ts', nsteps stages_step n (ts, x.2) (ts', y.2) ∧ tracks y.1 ts'.
Proof.
  intros Hn. revert ts. induction Hn as [x | n x y z Hstep _ IH]; intros ts Htr.
  - exists ts. split; [| done]. destruct x. constructor.
  - destruct x as [pool w], y as [pool1 w1].
    destruct (tracks_step _ _ _ _ _ Htr Hstep) as (ts1 & Hs1 & Htr1).
    destruct (IH ts1 Htr1) as (ts' & Hn' & Htr').
    exists ts'. split; [| done]. by econstructor.
Qed.

Lemma run_schedule_nsteps {A : Type} (sched : list nat) (pool pool' : list (Prog A))
    (w w' : World) :
  run_schedule sched pool w = Some (pool', w') ->
  nsteps pool_step (length sched) (pool, w) (pool', w').
Proof.
  revert pool w. induction sched as [| i sched IH]; intros pool w Hrun; cbn in Hrun.
  - injection Hrun as -> ->. constructor.
  - destruct (pool !! i) as [p |] eqn:Hp; [| done].
    destruct (thread_step p w) as [[p' w1] |] eqn:Hstep; [| done].
    cbn. econstructor; [| by apply IH]. by econstructor.
Qed.

(** While a goroutine has not returned, some goroutine can step. *)
Lemma stages_progress (ts : list Thread) (w : World) (i : nat) (k : FileKey) (s : Stage) :
  lockInv ts w ->
  ts !! i = Some (k, s) ->
  (∀ r, s ≠ Returned r) ->
  ∃ j k' s' s'' w', ts !! j = Some (k', s') ∧ stageStep k' s' w = Done s'' w'.
Proof.
  intros Hlock Hi Hrun.
  destruct (stageStep k s w) as [s' w' | |] eqn:Hstep.
  - by exists i, k, s, s', w'.
  - destruct (lockInv_blocked _ _ _ _ _ Hlock Hi Hstep)
      as [[r ->] | (_ & j & k' & s' & _ & Hj & _ & _ & s'' & w' & Hs')].
    + by destruct (Hrun r).
    + by exists j, k', s', s'', w'.
  - by destruct (lockInv_no_panic _ _ _ _ _ Hlock Hi).
Qed.

Lemma follows_panic (p : Prog (option Entry * option error)) (k : FileKey) (s : Stage)
    (w : World) :
  follows p k s -> thread_panics p w = true -> stageStep k s w = Panic.
Proof.
  destruct p as [r | R op kont]; [done |]. cbn. intros [_ Hf] Hpanic.
  specialize (Hf w). by destruct (perform op w).
Qed.

(** What holds of a pool of callers after [n] steps from a quiescent world:
    the stages its goroutines are at keep the invariants above. *)
Lemma callers_nsteps (keys : list FileKey) (w0 : World) (n : nat)
    (pool : list (Prog (option Entry * option error))) (w : World) :
  quiescent w0 -> storageInFlight w0 = [] ->
  nsteps pool_step n (callers keys, w0) (pool, w) ->
  ∃ ts, tracks pool ts ∧ ts.*1 = keys ∧ lockInv ts w
    ∧ n + remaining ts ≤ 14 * length keys
    ∧ ∀ id, noErrorFor id -> files (fc w0) !! id = None ->
        loadInv id (callsFor id (storageCalls w0)) ts w.
Proof.
  intros Hq Hflight Hn.
  destruct (tracks_nsteps n _ _ (startStages keys) Hn (tracks_callers keys))
    as (ts & Hsn & Htr).
  destruct (stages_nsteps n _ _ Hsn (lockInv_start keys w0 Hq Hflight))
    as (Hlock & Hkeys & Hrem & Hrtc).
  cbn [fst snd] in *. exists ts. split; [done |]. split; [| split; [done | split]].
  - rewrite Hkeys. unfold startStages. rewrite <- list_fmap_compose. apply list_fmap_id.
  - by rewrite remaining_start in Hrem.
  - intros id Hok Hnone.
    apply (loadInv_rtc id _ _ _ Hok Hrtc); cbn.
    + by apply lockInv_start.
    + by apply loadInv_start.
Qed.

Lemma keys_lookup (ts : list Thread) (keys : list FileKey) (i : nat) (k : FileKey) (s : Stage) :
  ts.*1 = keys -> ts !! i = Some (k, s) -> keys !! i = Some k.
Proof. intros <- Hi. by rewrite list_lookup_fmap, Hi. Qed.

Lemma stages_lookup (ts : list Thread) (keys : list FileKey) (i : nat) (k : FileKey) :
  ts.*1 = keys -> keys !! i = Some k -> ∃ s, ts !! i = Some (k, s).
Proof.
  intros <- Hi. rewrite list_lookup_fmap in Hi.
  destruct (ts !! i) as [[k' s] |]; [| done]. injection Hi as ->. by exists s.
Qed.

(** C4, amended: N goroutines call GetOrLoadIfAbsent concurrently, on keys
    that may coincide, from a world with no mutex held and no storage call in
    flight.  In every state they reach (and they reach it in at most 14 steps
    each): at most one storage call is in flight per file id; no goroutine
    panics; a goroutine that cannot step waits for the mutex of its own file
    id, held by another goroutine that can step, so that callers for a
    different file id never block it and the pool never deadlocks.  For a
    file id with no cached entry whose storage calls answer without error,
    at most one storage call is made, and once all callers have returned
    exactly one was made and every caller for that id got the one entry that
    is now cached. *)
Theorem stampede_protection (keys : list FileKey) (w0 : World) (n : nat)
    (pool : list (Prog (option Entry * option error))) (w : World) :
  quiescent w0 -> storageInFlight w0 = [] ->
  nsteps pool_step n (callers keys, w0) (pool, w) ->
  n ≤ 14 * length keys
  ∧ (NoDup (storageInFlight w)
     ∧ ∀ c1 c2, c1 ∈ storageInFlight w -> c2 ∈ storageInFlight w ->
         keyId c1.2 = keyId c2.2 -> c1 = c2)
  ∧ (∀ i p, pool !! i = Some p -> thread_panics p w = false)
  ∧ (∀ i p k, pool !! i = Some p -> keys !! i = Some k ->
       returned p = false -> thread_step p w = None ->
       ∃ j q k', j ≠ i ∧ pool !! j = Some q ∧ keys !! j = Some k'
         ∧ keyId k' = keyId k ∧ is_Some (thread_step q w))
  ∧ ((∃ i p, pool !! i = Some p ∧ returned p = false) ->
       ∃ st, pool_step (pool, w) st)
  ∧ (∀ id, noErrorFor id -> files (fc w0) !! id = None ->
       callsFor id (storageCalls w) ≤ callsFor id (storageCalls w0) + 1
       ∧ ((∀ i p, pool !! i = Some p -> returned p = true) ->
          (∃ i k, keys !! i = Some k ∧ keyId k = id) ->
          callsFor id (storageCalls w) = callsFor id (storageCalls w0) + 1
          ∧ ∃ e, files (fc w) !! id = Some e
              ∧ ∀ i k, keys !! i = Some k -> keyId k = id ->
                  pool !! i = Some (Ret (Some e, None)))).
Proof.
  intros Hq Hflight Hn.
  destruct (callers_nsteps keys w0 n pool w Hq Hflight Hn)
    as (ts & Htr & Hkeys & Hlock & Hrem & Hload).
  split; [lia |]. split; [| split; [| split; [| split]]].
  - split.
    + eapply NoDup_fmap_1, (flight_nodup _ _ Hlock).
    + intros c1 c2. by apply lockInv_one_in_flight with ts.
  - intros i p Hp. destruct (thread_panics p w) eqn:Hpanic; [| done].
    destruct (Forall2_lookup_l _ _ _ _ _ Htr Hp) as ([k s] & Ht & Hf).
    exfalso. apply (lockInv_no_panic _ _ _ _ _ Hlock Ht). by eapply follows_panic.
  - intros i p k Hp Hk Hrun Hstuck.
    destruct (Forall2_lookup_l _ _ _ _ _ Htr Hp) as ([k0 s] & Ht & Hf).
    rewrite (keys_lookup _ _ _ _ _ Hkeys Ht) in Hk. injection Hk as ->.
    destruct (follows_stuck _ _ _ _ Hf Hstuck) as [Hret | [Hblocked | Hpanic]].
    + congruence.
    + destruct (lockInv_blocked _ _ _ _ _ Hlock Ht Hblocked)
        as [[r ->] | (_ & j & k' & s' & Hne & Hj & Hid & _ & s'' & w' & Hs')].
      { apply follows_returned in Hf as [Hret _].
        assert (returned p = true) by (apply Hret; by eexists). congruence. }
      destruct (Forall2_lookup_r _ _ _ _ _ Htr Hj) as (q & Hq' & Hfq).
      destruct (follows_progress _ _ _ _ _ _ Hfq Hs') as [q' Hstep].
      exists j, q, k'. split; [done |]. split; [done |].
      split; [by eapply keys_lookup |]. split; [done | by eexists].
    + by destruct (lockInv_no_panic _ _ _ _ _ Hlock Ht).
  - intros (i & p & Hp & Hrun).
    destruct (Forall2_lookup_l _ _ _ _ _ Htr Hp) as ([k s] & Ht & Hf).
    destruct (stages_progress ts w i k s Hlock Ht) as (j & k' & s' & s'' & w' & Hj & Hs').
    { intros r ->. apply follows_returned in Hf as [Hret _].
      assert (returned p = true) by (apply Hret; by eexists). congruence. }
    destruct (Forall2_lookup_r _ _ _ _ _ Htr Hj) as (q & Hq' & Hfq).
    destruct (follows_progress _ _ _ _ _ _ Hfq Hs') as [q' Hstep].
    eexists. by econstructor.
  - intros id Hok Hnone. destruct (Hload id Hok Hnone) as [Hstages Hcalls].
    split.
    + rewrite Hcalls. destruct (files (fc w) !! id); [lia |].
      pose proof (count_le (loadingFor id) (holdsFor id) ts (loading_holdsFor id)).
      pose proof (lock_count _ _ Hlock id). case_bool_decide; lia.
    + intros Hall (i0 & k0 & Hk0 & Hid0).
      assert (Hdone : ∀ i k, keys !! i = Some k -> keyId k = id ->
        ∃ e, files (fc w) !! id = Some e ∧ pool !! i = Some (Ret (Some e, None))).
      { intros i k Hk Hid.
        destruct (stages_lookup _ _ _ _ Hkeys Hk) as [s Ht].
        destruct (Forall2_lookup_r _ _ _ _ _ Htr Ht) as (p & Hp & Hf).
        apply follows_returned in Hf as [Hret Heq]. cbn in Hret, Heq.
        destruct Hret as [[r ->] _]; [by eapply Hall |].
        pose proof (Hstages i k _ Ht Hid) as Hstage. cbn in Hstage.
        destruct Hstage as (e & He & ->).
        exists e. split; [done |]. by rewrite (Heq _ eq_refl) in Hp. }
      destruct (Hdone i0 k0 Hk0 Hid0) as (e & He & _).
      split; [by rewrite Hcalls, He |].
      exists e. split; [done |]. intros i k Hk Hid.
      destruct (Hdone i k Hk Hid) as (e' & He' & Hp). congruence.
Qed.

(** ** Put, Get, Remove and loads, composed *)

(** X1: whatever the cache held, after Put(record) the record's key holds a
    positive entry (Empty = false) whose version is at least the record's:
    the entry just written for the record, or the entry that was there
    already.  Put touches no other key, no load mutex, not the storage
    collaborator and not the log. *)
Theorem Put_leaves_current_entry (file : model.ConfigFileRelease) (w : World) :
  ∃ w' e,
    exec (Put file) w = Done tt w'
    ∧ files (fc w') !! fileIdOf file = Some e
    ∧ Empty e = false
    ∧ (model.Version file <= Version e)%N
    ∧ (payload e = payloadOf file ∨ files (fc w) !! fileIdOf file = Some e)
    ∧ (∀ key, key ≠ fileIdOf file -> files (fc w') !! key = files (fc w) !! key)
    ∧ fileLoadLocks (fc w') = fileLoadLocks (fc w)
    ∧ storageCalls w' = storageCalls w
    ∧ storageInFlight w' = storageInFlight w
    ∧ logged w' = logged w.
Proof.
  rewrite run_Put. cbn zeta.
  destruct (putAccepts (files (fc w) !! fileIdOf file) file) eqn:Hacc.
  - eexists _, _. split; [reflexivity |]. cbn.
    split; [apply lookup_insert_eq |]. split; [done |]. split; [cbn; lia |].
    split; [by left |]. split; [| done].
    intros key Hne. by rewrite lookup_insert_ne.
  - unfold putAccepts in Hacc.
    destruct (files (fc w) !! fileIdOf file) as [e |] eqn:Hlookup; [| done].
    apply orb_false_iff in Hacc as [Hempty Hver]. apply N.ltb_ge in Hver.
    exists (set_var putCnt (wrap_int (vars w putCnt + 1)) w), e.
    split; [reflexivity |]. cbn. rewrite Hlookup. repeat split; auto.
Qed.

(** What Put leaves under the record's key, expiry apart. *)
Lemma Put_payload (file : model.ConfigFileRelease) (w : World) :
  ∃ w',
    exec (Put file) w = Done tt w'
    ∧ payload <$> files (fc w') !! fileIdOf file =
        if putAccepts (files (fc w) !! fileIdOf file) file
        then Some (payloadOf file)
        else payload <$> files (fc w) !! fileIdOf file.
Proof.
  rewrite run_Put. cbn zeta.
  destruct (putAccepts (files (fc w) !! fileIdOf file) file);
    eexists; (split; [reflexivity |]); cbn; [| done].
  by rewrite lookup_insert_eq.
Qed.

(** Put's guard reads the Empty flag and the version only. *)
Lemma putAccepts_payload (cur : option Entry) (file : model.ConfigFileRelease)
    (content md5 : string) (version : N) (empty : bool) :
  payload <$> cur = Some (content, md5, version, empty) ->
  putAccepts cur file = empty || (version <? model.Version file)%N.
Proof.
  destruct cur as [e |]; [| done]. unfold payload. cbn. by intros [= _ _ <- <-].
Qed.

(** X2: two Puts for one key with different versions, run one after the
    other, leave the same content, checksum and version in either order; from
    a state with no entry for the key it is the record with the higher
    version. *)
Theorem Put_order_irrelevant (a b : model.ConfigFileRelease) (w : World) :
  fileIdOf a = fileIdOf b ->
  model.Version a ≠ model.Version b ->
  ∃ wab wba,
    exec (Put a;; Put b) w = Done tt wab
    ∧ exec (Put b;; Put a) w = Done tt wba
    ∧ payload <$> files (fc wab) !! fileIdOf a = payload <$> files (fc wba) !! fileIdOf a
    ∧ (files (fc w) !! fileIdOf a = None ->
       payload <$> files (fc wab) !! fileIdOf a =
         Some (payloadOf (if (model.Version a <? model.Version b)%N then b else a))).
Proof.
  intros Hid Hne.
  destruct (Put_payload a w) as (wa & Ha & Pa).
  destruct (Put_payload b wa) as (wab & Hab & Pab).
  destruct (Put_payload b w) as (wb & Hb & Pb).
  destruct (Put_payload a wb) as (wba & Hba & Pba).
  exists wab, wba. rewrite !run_bind, Ha, Hb. split; [done |]. split; [done |].
  rewrite <- Hid in Pab, Pb. rewrite Pab, Pba. clear Ha Hab Hb Hba Pab Pba.
  destruct (files (fc w) !! fileIdOf a) as [s |] eqn:Hs.
  - cbn in Pa, Pb.
    destruct (Empty s) eqn:Hempty, (N.ltb_spec (Version s) (model.Version a)),
      (N.ltb_spec (Version s) (model.Version b)); cbn in Pa, Pb;
      rewrite (putAccepts_payload _ _ _ _ _ _ Pa), (putAccepts_payload _ _ _ _ _ _ Pb);
      cbn; rewrite ?Hempty; cbn;
      destruct (N.ltb_spec (model.Version a) (model.Version b)),
        (N.ltb_spec (model.Version b) (model.Version a)),
        (N.ltb_spec (Version s) (model.Version a)),
        (N.ltb_spec (Version s) (model.Version b)); try lia; cbn;
      rewrite ?Pa, ?Pb; done.
  - cbn in Pa, Pb.
    rewrite (putAccepts_payload _ _ _ _ _ _ Pa), (putAccepts_payload _ _ _ _ _ _ Pb).
    cbn. destruct (N.ltb_spec (model.Version a) (model.Version b)),
      (N.ltb_spec (model.Version b) (model.Version a)); try lia; cbn;
      rewrite ?Pa, ?Pb; done.
Qed.

(** X3: Remove resets the key.  After Remove(K) the next Put for K is
    accepted whatever its version, also one lower than the version that was
    cached, and the next GetOrLoadIfAbsent(K) goes to storage, once, and
    returns what storage answers now. *)
Theorem Remove_resets_key (namespace group fileName : string) (w : World) :
  let fileId := GenFileId namespace group fileName in
  let reply := storage (length (storageCalls w)) namespace group fileName in
  quiescent w ->
  ∃ w1,
    exec (Remove namespace group fileName) w = Done tt w1
    ∧ (∀ file, fileIdOf file = fileId ->
         ∃ w2, exec (Put file) w1 = Done tt w2
           ∧ payload <$> files (fc w2) !! fileId = Some (payloadOf file))
    ∧ ∃ w2,
        exec (GetOrLoadIfAbsent namespace group fileName) w1 =
          Done (loadedEntry reply (clock (clockReads w)) (randSrc (randDraws w)), reply.2) w2
        ∧ storageCalls w2 = (namespace, group, fileName) :: storageCalls w.
Proof.
  intros fileId reply Hq. rewrite run_Remove. eexists. split; [reflexivity |].
  set (w1 := set_files _ _).
  assert (Hmiss : files (fc w1) !! fileId = None) by apply lookup_delete_eq.
  split.
  - intros file Hid. destruct (Put_payload file w1) as (w2 & Hrun & Hp).
    exists w2. split; [done |]. rewrite Hid in Hp. rewrite Hp.
    by rewrite Hmiss.
  - destruct (run_GetOrLoadIfAbsent_miss namespace group fileName w1 Hmiss (Hq _))
      as (w2 & Hrun & _ & _ & Hcalls & _).
    exists w2. split; [exact Hrun | exact Hcalls].
Qed.

(** X4: read-through.  On a miss, when storage answers with a record and no
    error, the call makes exactly one storage call, for the (namespace,
    group, fileName) it was given, stores a positive entry with the record's
    content, checksum and version under the key it was asked for, and returns
    it; Get and a second GetOrLoadIfAbsent then return that entry without
    calling storage, and a later Put with a version that is not greater is
    rejected. *)
Theorem GetOrLoadIfAbsent_record
    (namespace group fileName : string) (w : World) (file : model.ConfigFileRelease) :
  let fileId := GenFileId namespace group fileName in
  let entry :=
    freshEntry (model.Content file) (model.Md5 file) (model.Version file)
      (clock (clockReads w)) (randSrc (randDraws w)) in
  files (fc w) !! fileId = None ->
  quiescent w ->
  storage (length (storageCalls w)) namespace group fileName = (Some file, None) ->
  ∃ w',
    exec (GetOrLoadIfAbsent namespace group fileName) w = Done (Some entry, None) w'
    ∧ payload entry = payloadOf file
    ∧ files (fc w') = <[fileId := entry]> (files (fc w))
    ∧ storageCalls w' = (namespace, group, fileName) :: storageCalls w
    ∧ logged w' = logged w
    ∧ exec (Get namespace group fileName) w' = Done (Some entry) w'
    ∧ (∃ w'',
        exec (GetOrLoadIfAbsent namespace group fileName) w' = Done (Some entry, None) w''
        ∧ storageCalls w'' = storageCalls w')
    ∧ (∀ older, fileIdOf older = fileId ->
         (model.Version older <= model.Version file)%N ->
         ∃ w'', exec (Put older) w' = Done tt w'' ∧ files (fc w'') = files (fc w')).
Proof.
  intros fileId entry Hmiss Hq Hreply.
  destruct (run_GetOrLoadIfAbsent_miss namespace group fileName w Hmiss (Hq _))
    as (w' & Hrun & Hfiles & _ & Hcalls & Hlog & _).
  rewrite Hreply in Hrun, Hfiles, Hlog. cbn in Hrun, Hfiles, Hlog.
  assert (Hhit : files (fc w') !! fileId = Some entry)
    by (rewrite Hfiles; apply lookup_insert_eq).
  unfold fileId in Hhit.
  exists w'. split; [exact Hrun |]. split; [done |]. split; [exact Hfiles |].
  split; [exact Hcalls |]. split; [exact Hlog |]. split; [| split].
  - by rewrite run_Get, Hhit.
  - rewrite (run_GetOrLoadIfAbsent_hit _ _ _ _ _ Hhit). eexists. by split.
  - intros older Hid Hver. rewrite run_Put. cbn zeta.
    unfold fileId in Hid. rewrite Hid, Hhit. cbn.
    apply N.ltb_ge in Hver. rewrite Hver. eexists. by split.
Qed.

(** The counters and the calls in flight after a GetOrLoadIfAbsent that
    loads. *)
Lemma run_GetOrLoadIfAbsent_miss_vars (namespace group fileName : string) (w : World) :
  let fileId := GenFileId namespace group fileName in
  files (fc w) !! fileId = None ->
  fileLoadLocks (fc w) !! fileId ≠ Some true ->
  ∃ r w',
    exec (GetOrLoadIfAbsent namespace group fileName) w = Done r w'
    ∧ (∀ c, vars w' c =
         match c with
         | getCnt => wrap_int (vars w getCnt + 1)
         | loadCnt => wrap_int (vars w loadCnt + 1)
         | _ => vars w c
         end)
    ∧ storageInFlight w' =
        filter (λ c, c.1 ≠ length (storageCalls w)) (storageInFlight w).
Proof.
  intros fileId Hmiss Hfree. subst fileId.
  unfold GetOrLoadIfAbsent. cbn. rewrite Hmiss. cbn.
  destruct (fileLoadLocks (fc w) !! _) as [[] |] eqn:Hlock; [done | |]; cbn.
  - rewrite Hlock. cbn. rewrite Hmiss. cbn.
    destruct (storage _ _ _ _) as [file [err |]]; [| destruct file as [file |]]; run_simpl;
      rewrite lookup_insert_eq; cbn; eexists _, _; (split; [reflexivity |]);
      (split; [by intros [] |]); cbn; by destruct (decide (length (storageCalls w) ≠ length (storageCalls w))).
  - rewrite lookup_insert_eq. cbn. rewrite Hmiss. cbn.
    destruct (storage _ _ _ _) as [file [err |]]; [| destruct file as [file |]]; run_simpl;
      rewrite lookup_insert_eq; cbn; eexists _, _; (split; [reflexivity |]);
      (split; [by intros [] |]); cbn; by destruct (decide (length (storageCalls w) ≠ length (storageCalls w))).
Qed.

(** X5: from a world with no mutex held and no storage call in flight,
    GetOrLoadIfAbsent always returns (it neither blocks nor panics), again
    with no mutex held and no call in flight, and with exactly one of an
    entry and an error: an entry that is then cached under the key, or the
    error storage answered to this call, with the map as it was and no entry
    for the key. *)
Theorem GetOrLoadIfAbsent_returns (namespace group fileName : string) (w : World) :
  let fileId := GenFileId namespace group fileName in
  quiescent w ->
  storageInFlight w = [] ->
  ∃ r w',
    exec (GetOrLoadIfAbsent namespace group fileName) w = Done r w'
    ∧ quiescent w'
    ∧ storageInFlight w' = []
    ∧ ((∃ e, r = (Some e, None) ∧ files (fc w') !! fileId = Some e)
       ∨ (∃ err, r = (None, Some err)
            ∧ (storage (length (storageCalls w)) namespace group fileName).2 = Some err
            ∧ files (fc w') = files (fc w)
            ∧ files (fc w') !! fileId = None)).
Proof.
  intros fileId Hq Hflight.
  destruct (files (fc w) !! fileId) as [e |] eqn:Hlookup.
  - rewrite (run_GetOrLoadIfAbsent_hit _ _ _ _ _ Hlookup).
    eexists _, _. split; [reflexivity |]. split; [exact Hq |]. split; [done |].
    left. by exists e.
  - destruct (run_GetOrLoadIfAbsent_miss namespace group fileName w Hlookup (Hq _))
      as (w' & Hrun & Hfiles & Hlocks & _).
    destruct (run_GetOrLoadIfAbsent_miss_vars namespace group fileName w Hlookup (Hq _))
      as (r & w'' & Hrun' & _ & Hfl).
    rewrite Hrun in Hrun'. injection Hrun' as _ <-.
    eexists _, w'. split; [exact Hrun |]. split; [by eapply quiescent_unlock |].
    split; [by rewrite Hfl, Hflight |].
    destruct (storage _ _ _ _) as [file [err |]]; cbn in Hfiles |- *.
    + right. exists err. rewrite Hfiles. done.
    + left. destruct file as [file |]; cbn in Hfiles |- *; eexists;
        (split; [reflexivity |]); rewrite Hfiles; apply lookup_insert_eq.
Qed.

(** ** How entries come and go *)

(** X6: while a key stays cached its entry is replaced only by a newer Put.
    When a call finds an entry under a key and leaves an entry under it, it
    is the same entry, unless the call is a Put of a record for that key, the
    entry left is the record's, and the entry found was a placeholder or had
    a strictly lower version.  Loads, Remove and the ticks never replace an
    entry, and the version of a positive entry never goes down. *)
Theorem entry_replaced_only_by_Put
    (c : Call) (w w' : World) (key : string) (e e' : Entry) :
  exec (callProg c) w = Done tt w' ->
  files (fc w) !! key = Some e ->
  files (fc w') !! key = Some e' ->
  (e' = e
   ∨ ∃ file,
       c = CallPut file ∧ fileIdOf file = key ∧ payload e' = payloadOf file
       ∧ (Empty e = true ∨ (Version e < Version e')%N))
  ∧ (Empty e = false -> (Version e <= Version e')%N).
Proof.
  intros Hrun He He'.
  assert (Hmain : e' = e
    ∨ ∃ file,
        c = CallPut file ∧ fileIdOf file = key ∧ payload e' = payloadOf file
        ∧ (Empty e = true ∨ (Version e < Version e')%N)); last first.
  { split; [exact Hmain |]. intros Hpos.
    destruct Hmain as [-> | (file & _ & _ & _ & [Hempty | Hlt])]; [lia | congruence | lia]. }
  destruct c as [file | ns g f | ns g f | ns g f | |]; cbn [callProg] in Hrun.
  - rewrite run_Put in Hrun. cbn zeta in Hrun.
    destruct (putAccepts _ _) eqn:Hacc; injection Hrun as <-; cbn in He';
      [| left; congruence].
    destruct (decide (fileIdOf file = key)) as [<- | Hne].
    + rewrite lookup_insert_eq in He'. injection He' as <-.
      right. exists file. split; [done |]. split; [done |]. split; [done |].
      rewrite He in Hacc. cbn in Hacc.
      apply orb_true_iff in Hacc as [? | ?%N.ltb_lt]; [by left | by right].
    + rewrite lookup_insert_ne in He' by done. left. congruence.
  - rewrite run_bind, run_Get in Hrun. injection Hrun as <-. left. congruence.
  - rewrite run_bind in Hrun.
    destruct (exec (GetOrLoadIfAbsent ns g f) w) as [r w1 | |] eqn:Hgol; [| done | done].
    injection Hrun as <-. left.
    destruct (GetOrLoadIfAbsent_files _ _ _ _ _ _ Hgol)
      as [[Hfiles _] | (Hmiss & Hfiles & _)]; rewrite Hfiles in He'; [congruence |].
    destruct (decide (GenFileId ns g f = key)) as [<- | Hne]; [congruence |].
    destruct (loadedEntry _ _ _); cbn in He'; [| congruence].
    rewrite lookup_insert_ne in He' by done. congruence.
  - rewrite run_Remove in Hrun. injection Hrun as <-. left. cbn in He'.
    apply lookup_delete_Some in He' as [_ ?]. congruence.
  - destruct (run_clearExpireEntryTick w) as (w1 & Hrun1 & Hfiles & _).
    rewrite Hrun1 in Hrun. injection Hrun as <-. left.
    rewrite Hfiles in He'.
    pose proof (lookup_weaken _ _ _ _ He' (sweep_subseteq _ _ _ _)). congruence.
  - cbn in Hrun. injection Hrun as <-. left. cbn in He'. congruence.
Qed.

(** X7: how entries come and go.  A call after which a key has an entry
    that it had not before is a Put of a record for that key, or a
    GetOrLoadIfAbsent for it that storage answered without error.  A call
    after which a key has lost its entry is a Remove for that key, or a
    sweeper tick that read the clock strictly after the entry's expiry. *)
Theorem entry_lifecycle (c : Call) (w w' : World) (key : string) :
  exec (callProg c) w = Done tt w' ->
  (files (fc w) !! key = None -> is_Some (files (fc w') !! key) ->
     (∃ file, c = CallPut file ∧ fileIdOf file = key)
     ∨ (∃ namespace group fileName,
          c = CallGetOrLoadIfAbsent namespace group fileName
          ∧ GenFileId namespace group fileName = key
          ∧ (storage (length (storageCalls w)) namespace group fileName).2 = None))
  ∧ (∀ e, files (fc w) !! key = Some e -> files (fc w') !! key = None ->
       (∃ namespace group fileName,
          c = CallRemove namespace group fileName
          ∧ GenFileId namespace group fileName = key)
       ∨ (c = TickClearExpire
          ∧ ∃ i, i < size (files (fc w))
              ∧ time.After (clock (clockReads w + i)) (ExpireTime e) = true)).
Proof.
  intros Hrun.
  destruct c as [file | ns g f | ns g f | ns g f | |]; cbn [callProg] in Hrun.
  - rewrite run_Put in Hrun. cbn zeta in Hrun.
    destruct (putAccepts _ _) eqn:Hacc; injection Hrun as <-; cbn.
    + split.
      * intros Hnone Hsome. left. exists file. split; [done |].
        destruct (decide (fileIdOf file = key)) as [| Hne]; [done |].
        rewrite lookup_insert_ne, Hnone in Hsome by done. by destruct Hsome.
      * intros e He Hnone. apply lookup_insert_None in Hnone as [Hnone _]. congruence.
    + split; [intros Hnone [e He]; congruence | intros e He Hnone; congruence].
  - rewrite run_bind, run_Get in Hrun. injection Hrun as <-.
    split; [intros Hnone [e He]; congruence | intros e He Hnone; congruence].
  - rewrite run_bind in Hrun.
    destruct (exec (GetOrLoadIfAbsent ns g f) w) as [r w1 | |] eqn:Hgol; [| done | done].
    injection Hrun as <-.
    destruct (GetOrLoadIfAbsent_files _ _ _ _ _ _ Hgol)
      as [[Hfiles _] | (Hmiss & Hfiles & _)]; rewrite Hfiles.
    { split; [intros Hnone [e He]; congruence | intros e He Hnone; congruence]. }
    unfold loadedEntry.
    destruct (storage _ _ _ _) as [file [err |]] eqn:Hreply; cbn.
    { split; [intros Hnone [e He]; congruence | intros e He Hnone; congruence]. }
    split.
    + intros Hnone Hsome. right. exists ns, g, f. split; [done |].
      split; [| by rewrite Hreply].
      destruct (decide (GenFileId ns g f = key)) as [| Hne]; [done |].
      destruct file; cbn in Hsome; rewrite lookup_insert_ne, Hnone in Hsome by done;
        by destruct Hsome.
    + intros e He Hnone.
      destruct file; cbn in Hnone; apply lookup_insert_None in Hnone as [Hnone _];
        congruence.
  - rewrite run_Remove in Hrun. injection Hrun as <-. cbn. split.
    + intros Hnone [e He]. apply lookup_delete_Some in He as [_ He]. congruence.
    + intros e He Hnone. left. exists ns, g, f. split; [done |].
      destruct (decide (GenFileId ns g f = key)) as [| Hne]; [done |].
      rewrite lookup_delete_ne in Hnone by done. congruence.
  - destruct (run_clearExpireEntryTick w) as (w1 & Hrun1 & Hfiles & _).
    rewrite Hrun1 in Hrun. injection Hrun as <-. cbn zeta in Hfiles. rewrite Hfiles.
    split.
    + intros Hnone [e He].
      pose proof (lookup_weaken _ _ _ _ He (sweep_subseteq _ _ _ _)). congruence.
    + intros e He Hnone. right. split; [done |].
      pose proof He as Hin.
      apply elem_of_map_to_list, list_elem_of_lookup in Hin as [i Hi].
      exists i. split.
      { rewrite <- length_map_to_list. by eapply lookup_lt_Some. }
      rewrite (sweep_lookup_in _ _ _ _ i key e (NoDup_fst_map_to_list _) Hi) in Hnone.
      destruct (time.After _ _); [done | congruence].
  - cbn in Hrun. injection Hrun as <-. cbn.
    split; [intros Hnone [e He]; congruence | intros e He Hnone; congruence].
Qed.

(** X8: how long an entry lives.  An entry whose expiry is a clock reading
    [now] plus the time to live of a random draw, as it is for every entry
    written by Put or by a load, positive or negative, survives every sweeper
    tick whose clock readings are at most [now] plus one hour, and is deleted
    by every sweeper tick whose clock readings are at least [now] plus
    seventy minutes, whatever the draw was. *)
Theorem entry_lifetime (key : string) (e : Entry) (now : time.Time) (r : Z) (w : World) :
  ExpireTime e = time.Add now (ttlOf r) ->
  files (fc w) !! key = Some e ->
  ∃ w',
    exec clearExpireEntryTick w = Done tt w'
    ∧ ((∀ i, i < size (files (fc w)) ->
          (clock (clockReads w + i) <= now + time.Hour)%Z) ->
       files (fc w') !! key = Some e)
    ∧ ((∀ i, i < size (files (fc w)) ->
          (now + 70 * time.Minute <= clock (clockReads w + i))%Z) ->
       files (fc w') !! key = None).
Proof.
  intros Hexp Hlookup.
  destruct (run_clearExpireEntryTick w) as (w' & Hrun & Hfiles & _).
  exists w'. split; [exact Hrun |]. cbn zeta in Hfiles. rewrite Hfiles.
  pose proof Hlookup as Hin.
  apply elem_of_map_to_list, list_elem_of_lookup in Hin as [i Hi].
  assert (Hlt : i < size (files (fc w))).
  { rewrite <- length_map_to_list. by eapply lookup_lt_Some. }
  rewrite (sweep_lookup_in _ _ _ _ i key e (NoDup_fst_map_to_list _) Hi).
  rewrite Hexp, ttlOf_jitter. pose proof (jitterOf_range r) as Hj.
  unfold time.After, time.Add. split; intros Hclock; specialize (Hclock i Hlt).
  - rewrite bool_decide_eq_false_2; [exact Hlookup |]. lia.
  - rewrite bool_decide_eq_true_2; [done |].
    unfold time.Hour, time.Minute in *. lia.
Qed.

(** ** The lock registry *)

(** A call leaves the registry as it was, or it is a GetOrLoadIfAbsent that
    missed and the registry has the mutex of its key, unlocked. *)
Lemma callProg_locks (c : Call) (w w' : World) :
  exec (callProg c) w = Done tt w' ->
  fileLoadLocks (fc w') = fileLoadLocks (fc w)
  ∨ ∃ namespace group fileName,
      c = CallGetOrLoadIfAbsent namespace group fileName
      ∧ files (fc w) !! GenFileId namespace group fileName = None
      ∧ fileLoadLocks (fc w') =
          <[GenFileId namespace group fileName := false]> (fileLoadLocks (fc w)).
Proof.
  intros Hrun. destruct c as [file | ns g f | ns g f | ns g f | |]; cbn [callProg] in Hrun.
  - rewrite run_Put in Hrun. cbn zeta in Hrun.
    destruct (putAccepts _ _); injection Hrun as <-; by left.
  - rewrite run_bind, run_Get in Hrun. injection Hrun as <-. by left.
  - rewrite run_bind in Hrun.
    destruct (exec (GetOrLoadIfAbsent ns g f) w) as [r w1 | |] eqn:Hgol; [| done | done].
    injection Hrun as <-.
    destruct (GetOrLoadIfAbsent_files _ _ _ _ _ _ Hgol)
      as [[_ Hlocks] | (Hmiss & _ & Hlocks)]; [by left |].
    right. by exists ns, g, f.
  - rewrite run_Remove in Hrun. injection Hrun as <-. by left.
  - destruct (run_clearExpireEntryTick w) as (w1 & Hrun1 & _ & Hlocks & _).
    rewrite Hrun1 in Hrun. injection Hrun as <-. by left.
  - cbn in Hrun. injection Hrun as <-. by left.
Qed.

(** X9: the lock registry only grows.  Along any history of calls a file id
    that has a load mutex keeps it: Remove and the sweeper delete entries,
    never mutexes.  A mutex that is new at the end of the history was
    registered by a GetOrLoadIfAbsent of the history for that file id. *)
Theorem lock_registry_only_grows (calls : list Call) (w w' : World) :
  runCalls calls w = Done tt w' ->
  (∀ id, is_Some (fileLoadLocks (fc w) !! id) -> is_Some (fileLoadLocks (fc w') !! id))
  ∧ (∀ id, is_Some (fileLoadLocks (fc w') !! id) ->
       is_Some (fileLoadLocks (fc w) !! id)
       ∨ ∃ namespace group fileName,
           CallGetOrLoadIfAbsent namespace group fileName ∈ calls
           ∧ id = GenFileId namespace group fileName).
Proof.
  revert w. induction calls as [| c calls IH]; intros w Hrun.
  - injection Hrun as <-. split; [done |]. intros id Hid. by left.
  - cbn in Hrun.
    destruct (exec (callProg c) w) as [[] w1 | |] eqn:Hc; [| done | done].
    destruct (IH w1 Hrun) as [Hkeep Hnew].
    destruct (callProg_locks c w w1 Hc) as [Hlocks | (ns & g & f & -> & _ & Hlocks)].
    + rewrite Hlocks in Hkeep, Hnew. split; [done |].
      intros id Hid. destruct (Hnew id Hid) as [? | (ns & g & f & Hin & ->)]; [by left |].
      right. exists ns, g, f. split; [by right | done].
    + split.
      * intros id Hid. apply Hkeep. rewrite Hlocks.
        destruct (decide (GenFileId ns g f = id)) as [<- | Hne].
        -- rewrite lookup_insert_eq. by eexists.
        -- by rewrite lookup_insert_ne.
      * intros id Hid. destruct (Hnew id Hid) as [Hold | (ns' & g' & f' & Hin & ->)].
        -- rewrite Hlocks in Hold.
           destruct (decide (GenFileId ns g f = id)) as [<- | Hne].
           ++ right. exists ns, g, f. split; [by left | done].
           ++ rewrite lookup_insert_ne in Hold by done. by left.
        -- right. exists ns', g', f'. split; [by right | done].
Qed.

(** ** The counters *)

(** What a sweeper tick leaves alone. *)
Lemma run_clearExpireEntryTick_frame (w : World) :
  ∃ w',
    exec clearExpireEntryTick w = Done tt w'
    ∧ (∀ c, c ≠ expireCnt -> vars w' c = vars w c)
    ∧ storageCalls w' = storageCalls w.
Proof.
  destruct (run_forEach_expireVisit (map_to_list (files (fc w))) 0 w)
    as (w1 & Hrun & _ & _ & _ & Hvars & _ & Hcalls).
  unfold clearExpireEntryTick, files_RangeWith. rewrite !run_bind.
  change (exec (act files_Range) w) with (Done (map_to_list (files (fc w))) w).
  cbv beta iota. rewrite Hrun. rewrite <- Hvars, <- Hcalls.
  destruct (0 <? _)%Z; cbn; eexists; (split; [reflexivity |]); (split; [| done]);
    by intros [].
Qed.

(** What one call does to the counters and to the record of storage calls. *)
Lemma callProg_counters (c : Call) (w : World) :
  quiescent w ->
  ∃ w',
    exec (callProg c) w = Done tt w'
    ∧ quiescent w'
    ∧ vars w' putCnt = (if isPut c then wrap_int (vars w putCnt + 1) else vars w putCnt)
    ∧ vars w' getCnt =
        (if isGetOrLoadIfAbsent c then wrap_int (vars w getCnt + 1) else vars w getCnt)
    ∧ vars w' removeCnt =
        (if isRemove c then wrap_int (vars w removeCnt + 1) else vars w removeCnt)
    ∧ ((vars w' loadCnt = vars w loadCnt ∧ storageCalls w' = storageCalls w)
       ∨ (isGetOrLoadIfAbsent c = true
          ∧ vars w' loadCnt = wrap_int (vars w loadCnt + 1)
          ∧ ∃ k, storageCalls w' = k :: storageCalls w)).
Proof.
  intros Hq. destruct c as [file | ns g f | ns g f | ns g f | |]; cbn [callProg].
  - rewrite run_Put. cbn zeta.
    destruct (putAccepts _ _); eexists; (split; [reflexivity |]); (split; [exact Hq |]);
      cbn; repeat split; by left.
  - rewrite run_bind, run_Get. exists w. repeat split; try done. by left.
  - rewrite run_bind.
    destruct (files (fc w) !! GenFileId ns g f) as [e |] eqn:Hlookup.
    + rewrite (run_GetOrLoadIfAbsent_hit _ _ _ _ _ Hlookup).
      eexists. split; [reflexivity |]. split; [exact Hq |]. cbn. repeat split. by left.
    + destruct (run_GetOrLoadIfAbsent_miss ns g f w Hlookup (Hq _))
        as (w' & Hrun & _ & Hlocks & Hcalls & _).
      destruct (run_GetOrLoadIfAbsent_miss_vars ns g f w Hlookup (Hq _))
        as (r & w'' & Hrun' & Hvars & _).
      rewrite Hrun in Hrun'. injection Hrun' as _ <-. rewrite Hrun.
      exists w'. split; [done |]. split; [by eapply quiescent_unlock |].
      rewrite !Hvars. cbn. repeat split. right. repeat split. by eexists.
  - rewrite run_Remove. eexists. split; [reflexivity |]. split; [exact Hq |].
    cbn. repeat split. by left.
  - destruct (run_clearExpireEntryTick w) as (w' & Hrun & _ & Hlocks & _).
    destruct (run_clearExpireEntryTick_frame w) as (w'' & Hrun' & Hvars & Hcalls).
    rewrite Hrun in Hrun'. injection Hrun' as <-.
    exists w'. split; [done |]. split; [intros key; rewrite Hlocks; apply Hq |].
    rewrite !Hvars by done. cbn. repeat split. by left.
  - eexists. split; [reflexivity |]. split; [exact Hq |]. cbn. repeat split. by left.
Qed.

(** Along a history that cannot overflow them, the counters count. *)
Lemma runCalls_counters (calls : list Call) (w : World) :
  quiescent w ->
  counterRoom (length calls) (vars w putCnt) ->
  counterRoom (length calls) (vars w getCnt) ->
  counterRoom (length calls) (vars w removeCnt) ->
  counterRoom (length calls) (vars w loadCnt) ->
  ∃ w',
    runCalls calls w = Done tt w'
    ∧ vars w' putCnt = (vars w putCnt + Z.of_nat (countCalls isPut calls))%Z
    ∧ vars w' getCnt = (vars w getCnt + Z.of_nat (countCalls isGetOrLoadIfAbsent calls))%Z
    ∧ vars w' removeCnt = (vars w removeCnt + Z.of_nat (countCalls isRemove calls))%Z
    ∧ (vars w' loadCnt - vars w loadCnt =
         Z.of_nat (length (storageCalls w')) - Z.of_nat (length (storageCalls w)))%Z
    ∧ (vars w' loadCnt - vars w loadCnt
         <= Z.of_nat (countCalls isGetOrLoadIfAbsent calls))%Z.
Proof.
  revert w. induction calls as [| c calls IH];
    intros w Hq [Hp0 Hp1] [Hg0 Hg1] [Hr0 Hr1] [Hl0 Hl1].
  - exists w. cbn. repeat split; lia.
  - cbn [length] in *.
    destruct (callProg_counters c w Hq) as (w1 & Hrun & Hq1 & Hput & Hget & Hrem & Hload).
    assert (Hwrap : ∀ v, (0 <= v)%Z -> (v + Z.of_nat (S (length calls)) < 2 ^ 63)%Z ->
      wrap_int (v + 1) = (v + 1)%Z) by (intros v ? ?; apply wrap_int_small; lia).
    rewrite Hwrap in Hput, Hget, Hrem by done.
    assert (Hload' : (vars w1 loadCnt = vars w loadCnt ∧ storageCalls w1 = storageCalls w)
      ∨ (isGetOrLoadIfAbsent c = true ∧ vars w1 loadCnt = (vars w loadCnt + 1)%Z
         ∧ ∃ k, storageCalls w1 = k :: storageCalls w)).
    { destruct Hload as [? | (? & Hl & ?)]; [by left |]. right.
      rewrite Hwrap in Hl by done. done. }
    clear Hload Hwrap.
    destruct (IH w1 Hq1) as (w' & Hrun' & Hput' & Hget' & Hrem' & Hload1 & Hload2).
    { split; destruct (isPut c); lia. }
    { split; destruct (isGetOrLoadIfAbsent c); lia. }
    { split; destruct (isRemove c); lia. }
    { split; destruct Hload' as [[-> _] | (_ & -> & _)]; lia. }
    exists w'. cbn [runCalls countCalls]. rewrite Hrun. split; [exact Hrun' |].
    rewrite Hput', Hget', Hrem', Hput, Hget, Hrem.
    split; [destruct (isPut c); lia |].
    split; [destruct (isGetOrLoadIfAbsent c); lia |].
    split; [destruct (isRemove c); lia |].
    destruct Hload' as [[Hl Hc] | (Hgol & Hl & k & Hc)].
    + rewrite <- Hl, <- Hc. split; [done |]. destruct (isGetOrLoadIfAbsent c); lia.
    + rewrite Hgol. rewrite Hc in Hload1. cbn [length] in Hload1. split; lia.
Qed.

(** X10: the counters after a history of calls on a new cache, run one after
    the other (fewer than 2^63 of them): putCnt is the number of Put calls,
    getCnt the number of GetOrLoadIfAbsent calls (Get is not counted),
    removeCnt the number of Remove calls, and loadCnt the number of storage
    calls made, which is at most getCnt.  A status tick then logs exactly
    these numbers, in the order getCnt, putCnt, loadCnt, removeCnt,
    expireCnt, and changes nothing but the log. *)
Theorem counters_account (calls : list Call) :
  (Z.of_nat (length calls) < 2 ^ 63)%Z ->
  ∃ w',
    runCalls calls initWorld = Done tt w'
    ∧ vars w' putCnt = Z.of_nat (countCalls isPut calls)
    ∧ vars w' getCnt = Z.of_nat (countCalls isGetOrLoadIfAbsent calls)
    ∧ vars w' removeCnt = Z.of_nat (countCalls isRemove calls)
    ∧ vars w' loadCnt = Z.of_nat (length (storageCalls w'))
    ∧ (vars w' loadCnt <= vars w' getCnt)%Z
    ∧ exec logStatusTick w' =
        Done tt (add_log
          (LogCacheStatus
             (Z.of_nat (countCalls isGetOrLoadIfAbsent calls))
             (Z.of_nat (countCalls isPut calls))
             (Z.of_nat (length (storageCalls w')))
             (Z.of_nat (countCalls isRemove calls))
             (vars w' expireCnt)) w').
Proof.
  intros Hlen.
  destruct (runCalls_counters calls initWorld) as (w' & Hrun & Hput & Hget & Hrem & Hl1 & Hl2).
  { intros key. cbn. by rewrite lookup_empty. }
  1-4: (split; cbn; lia).
  cbn in Hput, Hget, Hrem, Hl1, Hl2.
  exists w'. split; [exact Hrun |].
  assert (Hload : vars w' loadCnt = Z.of_nat (length (storageCalls w'))) by lia.
  split; [lia |]. split; [lia |]. split; [lia |]. split; [exact Hload |].
  split; [lia |].
  cbn. rewrite Hget, Hput, Hrem, Hload. reflexivity.
Qed.

(** ** Keys that collide *)

Lemma append_length (a r : string) :
  String.length (a +:+ r) = String.length a + String.length r.
Proof.
  induction a as [| c a IH]; [done |]. rewrite append_cons. cbn. by rewrite IH.
Qed.

Lemma append_inv_tail (a a' r : string) : a +:+ r = a' +:+ r -> a = a'.
Proof.
  revert a'. induction a as [| c a IH]; intros [| c' a'] Heq;
    rewrite ?append_cons, ?append_nil in Heq.
  - done.
  - apply (f_equal String.length) in Heq. cbn in Heq. rewrite append_length in Heq. lia.
  - apply (f_equal String.length) in Heq. cbn in Heq. rewrite append_length in Heq. lia.
  - injection Heq as -> Heq. by rewrite (IH a' Heq).
Qed.

(** X11: two triples with the same key that agree on two of namespace,
    group and file name agree on the third, whatever characters they
    contain: within one namespace and group different file names never
    collide, and a collision needs at least two parts that differ. *)
Theorem GenFileId_collision_two_parts
    (namespace group fileName namespace' group' fileName' : string) :
  GenFileId namespace group fileName = GenFileId namespace' group' fileName' ->
  (namespace = namespace' -> group = group' -> fileName = fileName')
  ∧ (namespace = namespace' -> fileName = fileName' -> group = group')
  ∧ (group = group' -> fileName = fileName' -> namespace = namespace').
Proof.
  unfold GenFileId. intros Heq. split; [| split].
  - intros <- <-. by do 4 apply (inj (String.append _)) in Heq.
  - intros <- <-. do 2 apply (inj (String.append _)) in Heq.
    by apply append_inv_tail in Heq.
  - intros <- <-. by apply append_inv_tail in Heq.
Qed.

(** ** Calls that run concurrently *)


(** X12: two goroutines Put to one key.  When the second passes its check
    first (its record would be accepted) and stores last, its record is what
    the cache holds in the end, whatever the version of the first: Put's
    check and its store are two actions, and the higher version does not
    always win. *)
Theorem Put_race (a b : model.ConfigFileRelease) (w : World) :
  fileIdOf a = fileIdOf b ->
  putAccepts (files (fc w) !! fileIdOf b) b = true ->
  ∃ w',
    rtc pool_step ([Put a; Put b], w) ([Ret tt; Ret tt], w')
    ∧ payload <$> files (fc w') !! fileIdOf b = Some (payloadOf b).
Proof.
  intros Hid Hacc. unfold fileIdOf in Hid, Hacc.
  destruct (putAccepts (files (fc w) !! fileIdOf a) a) eqn:Ha; unfold fileIdOf in Ha.
  - eexists. split.
    + apply (run_schedule_rtc [1; 1; 1; 0; 0; 0; 0; 0; 0; 1; 1; 1]).
      unfold Put, Get. run_simpl. rewrite Hid.
      unfold putAccepts in Hacc, Ha. rewrite Hid in Ha.
      destruct (files (fc w) !! _) as [s |]; run_simpl;
        rewrite ?Ha, ?Hacc; run_simpl; reflexivity.
    + cbn. unfold fileIdOf. by rewrite lookup_insert_eq.
  - eexists. split.
    + apply (run_schedule_rtc [1; 1; 1; 0; 0; 0; 1; 1; 1]).
      unfold Put, Get. run_simpl. rewrite Hid.
      unfold putAccepts in Hacc, Ha. rewrite Hid in Ha.
      destruct (files (fc w) !! _) as [s |]; [| done]; run_simpl;
        rewrite ?Ha, ?Hacc; run_simpl; reflexivity.
    + cbn. unfold fileIdOf. by rewrite lookup_insert_eq.
Qed.

(** X13: a load and a Put for one key.  When the Put runs while the load's
    storage call is out (after the load's double check, before its store),
    the load then stores what storage answered over the record just put,
    whatever the two versions: the store that ends a load is unconditional. *)
Theorem load_overwrites_concurrent_Put
    (namespace group fileName : string) (file put : model.ConfigFileRelease) (w : World) :
  let fileId := GenFileId namespace group fileName in
  fileIdOf put = fileId ->
  files (fc w) !! fileId = None ->
  fileLoadLocks (fc w) !! fileId ≠ Some true ->
  storage (length (storageCalls w)) namespace group fileName = (Some file, None) ->
  ∃ w',
    rtc pool_step
      ([callProg (CallGetOrLoadIfAbsent namespace group fileName); callProg (CallPut put)], w)
      ([Ret tt; Ret tt], w')
    ∧ payload <$> files (fc w') !! fileId = Some (payloadOf file)
    ∧ fileLoadLocks (fc w') !! fileId = Some false.
Proof.
  intros fileId Hid Hmiss Hfree Hreply. subst fileId. unfold fileIdOf in Hid.
  destruct (fileLoadLocks (fc w) !! GenFileId namespace group fileName)
    as [[] |] eqn:Hlock; [done | |].
  - eexists. split.
    + apply (run_schedule_rtc (replicate 10 0 ++ replicate 6 1 ++ replicate 4 0)).
      unfold callProg, GetOrLoadIfAbsent, Put, Get. run_simpl. rewrite Hmiss. run_simpl.
      rewrite Hlock. run_simpl. rewrite Hlock. run_simpl. rewrite Hmiss. run_simpl.
      rewrite Hreply. run_simpl. rewrite Hid, Hmiss. run_simpl.
      rewrite lookup_insert_eq. run_simpl. reflexivity.
    + cbn. by rewrite !lookup_insert_eq.
  - eexists. split.
    + apply (run_schedule_rtc (replicate 10 0 ++ replicate 6 1 ++ replicate 4 0)).
      unfold callProg, GetOrLoadIfAbsent, Put, Get. run_simpl. rewrite Hmiss. run_simpl.
      rewrite Hlock. run_simpl. rewrite lookup_insert_eq. run_simpl. rewrite Hmiss. run_simpl.
      rewrite Hreply. run_simpl. rewrite Hid, Hmiss. run_simpl.
      rewrite lookup_insert_eq. run_simpl. reflexivity.
    + cbn. by rewrite !lookup_insert_eq.
Qed.

(** X14: the sweeper and a Put for one key.  The sweeper checks the entry
    it was handed and then deletes whatever the key holds.  When the only
    entry of the map has expired and a Put of a newer record for its key
    runs between the sweeper's check and its delete, both return, the Put
    counted and wrote its entry, and the map is empty: the entry just
    written is the one deleted, and it is counted and logged as expired. *)
Theorem sweeper_deletes_concurrent_Put
    (file : model.ConfigFileRelease) (e : Entry) (w : World) :
  files (fc w) = {[fileIdOf file := e]} ->
  time.After (clock (clockReads w)) (ExpireTime e) = true ->
  putAccepts (Some e) file = true ->
  ∃ w',
    rtc pool_step ([clearExpireEntryTick; Put file], w) ([Ret tt; Ret tt], w')
    ∧ files (fc w') = ∅
    ∧ vars w' putCnt = wrap_int (vars w putCnt + 1)
    ∧ vars w' expireCnt = wrap_int (vars w expireCnt + 1)
    ∧ logged w' = LogClearExpired 1 :: logged w.
Proof.
  intros Hfiles Hexp Hacc. unfold fileIdOf in Hfiles. cbn in Hacc.
  eexists. split.
  - apply (run_schedule_rtc (replicate 2 0 ++ replicate 6 1 ++ replicate 4 0)).
    unfold clearExpireEntryTick, files_RangeWith, Put, Get. run_simpl.
    rewrite Hfiles, map_to_list_singleton. run_simpl. rewrite Hexp. run_simpl.
    rewrite Hfiles, lookup_singleton_eq. run_simpl. rewrite Hacc. run_simpl.
    reflexivity.
  - cbn. rewrite Hfiles, delete_insert_eq, delete_singleton_eq. done.
Qed.

(** X15: the counters are incremented by a read and a write.  Two
    goroutines that call Remove can both read removeCnt before either writes
    it: both calls return, both keys are deleted, and removeCnt has grown by
    one, not by two. *)
Theorem counter_lost_update
    (namespace group fileName namespace' group' fileName' : string) (w : World) :
  ∃ w',
    rtc pool_step
      ([Remove namespace group fileName; Remove namespace' group' fileName'], w)
      ([Ret tt; Ret tt], w')
    ∧ vars w' removeCnt = wrap_int (vars w removeCnt + 1)
    ∧ files (fc w') =
        delete (GenFileId namespace' group' fileName')
          (delete (GenFileId namespace group fileName) (files (fc w))).
Proof.
  eexists. split.
  - apply (run_schedule_rtc [0; 1; 0; 1; 0; 1]). reflexivity.
  - done.
Qed.

(** ** Concurrent callers of a cached key *)

Lemma hitInv_start (id : string) (e : Entry) (keys : list FileKey) (w : World) :
  files (fc w) !! id = Some e ->
  hitInv id e (callsFor id (storageCalls w)) (startStages keys) w.
Proof.
  intros Hhit. split; [done | done |].
  intros i k s Hi _. unfold startStages in Hi.
  apply list_lookup_fmap_Some in Hi as (k' & [= -> ->] & _). done.
Qed.

Lemma hitInv_step (id : string) (e : Entry) (base : nat) (ts ts' : list Thread)
    (w w' : World) :
  stages_step (ts, w) (ts', w') -> hitInv id e base ts w -> hitInv id e base ts' w'.
Proof.
  intros Hstep [Hentry Hcalls Hstages].
  inversion Hstep as [ts0 w0 i k s s' w1 Hi Hs]; subst.
  destruct (decide (keyId k = id)) as [Hid | Hne].
  - pose proof (Hstages i k s Hi Hid) as Hfast.
    assert (files (fc w') = files (fc w) ∧ storageCalls w' = storageCalls w
            ∧ fastStage e s') as (Hf & Hc & Hfast').
    { destruct s; try done; cbn in Hs.
      - by injection Hs as <- <-.
      - by injection Hs as <- <-.
      - rewrite Hid, Hentry in Hs. by injection Hs as <- <-. }
    split; [by rewrite Hf | by rewrite Hc |].
    intros j k' s'' Hj Hid'. destruct (decide (j = i)) as [-> | Hji].
    + rewrite list_lookup_insert_eq in Hj by (by eapply lookup_lt_Some).
      by injection Hj as <- <-.
    + rewrite list_lookup_insert_ne in Hj by done. by eapply Hstages.
  - split.
    + destruct (stageStep_files _ _ _ _ _ Hs) as [-> | (e' & _ & _ & ->)]; [done |].
      by rewrite lookup_insert_ne.
    + destruct (stageStep_flight _ _ _ _ _ Hs)
        as [(_ & -> & _) | [(_ & _ & -> & _) | (n & _ & _ & -> & _)]]; [done | | done].
      rewrite callsFor_cons, bool_decide_eq_false_2 by done. done.
    + intros j k' s'' Hj Hid'. destruct (decide (j = i)) as [-> | Hji].
      * rewrite list_lookup_insert_eq in Hj by (by eapply lookup_lt_Some).
        injection Hj as <- <-. done.
      * rewrite list_lookup_insert_ne in Hj by done. by eapply Hstages.
Qed.

Lemma hitInv_rtc (id : string) (e : Entry) (base : nat) (x y : list Thread * World) :
  rtc stages_step x y ->
  hitInv id e base x.1 x.2 -> hitInv id e base y.1 y.2 ∧ y.1.*1 = x.1.*1.
Proof.
  induction 1 as [x | x y z Hstep _ IH]; [done |].
  destruct x as [ts w], y as [ts1 w1]. intros Hinv.
  destruct IH as [Hinv' Hkeys]; [by eapply hitInv_step |].
  split; [done |]. rewrite Hkeys. by eapply stages_step_keys.
Qed.

(** X16: callers of a cached key stay off the storage and off the mutex.
    When the map holds an entry for a file id and any number of goroutines
    call GetOrLoadIfAbsent concurrently, for that id or for others, then in
    every state they reach the entry is still there, no storage call was made
    for the id, and every caller for the id can take its next step, whoever
    holds which mutex, until it has returned that entry with a nil error. *)
Theorem cached_key_fast_path (keys : list FileKey) (w0 : World) (id : string) (e : Entry)
    (pool : list (Prog (option Entry * option error))) (w : World) :
  files (fc w0) !! id = Some e ->
  rtc pool_step (callers keys, w0) (pool, w) ->
  files (fc w) !! id = Some e
  ∧ callsFor id (storageCalls w) = callsFor id (storageCalls w0)
  ∧ ∀ i k p, keys !! i = Some k -> keyId k = id -> pool !! i = Some p ->
      p = Ret (Some e, None) ∨ is_Some (thread_step p w).
Proof.
  intros Hhit Hrtc.
  destruct (tracks_rtc _ _ (startStages keys) Hrtc (tracks_callers keys))
    as (ts & Hsteps & Htr).
  destruct (hitInv_rtc id e _ _ _ Hsteps (hitInv_start id e keys w0 Hhit))
    as [[Hentry Hcalls Hstages] Hkeys].
  cbn [fst snd] in *. split; [done |]. split; [done |].
  intros i k p Hk Hid Hp.
  destruct (Forall2_lookup_l _ _ _ _ _ Htr Hp) as ([k' s] & Ht & Hf).
  assert (k' = k) as ->.
  { assert (ts.*1 !! i = Some k') as Hk' by (by rewrite list_lookup_fmap, Ht).
    rewrite Hkeys in Hk'. unfold startStages in Hk'.
    rewrite <- list_fmap_compose, list_lookup_fmap, Hk in Hk'. by injection Hk' as <-. }
  pose proof (Hstages i k s Ht Hid) as Hfast. cbn [fst snd] in Hf.
  assert (s = Returned (Some e, None) ∨ ∃ s' w', stageStep k s w = Done s' w')
    as [-> | (s' & w' & Hs)].
  { destruct s; try done; cbn.
    - right. by eexists _, _.
    - right. by eexists _, _.
    - right. rewrite Hid, Hentry. by eexists _, _.
    - left. by rewrite Hfast. }
  - left. apply follows_returned in Hf as [_ Heq]. by apply Heq.
  - right. destruct (follows_progress _ _ _ _ _ _ Hf Hs) as [p' Hstep]. by eexists.
Qed.

(** ** Loads among the other calls *)

Lemma plain_bind {A B : Type} (p : Prog A) (f : A -> Prog B) :
  plain p -> (∀ a, plain (f a)) -> plain (p ≫= f).
Proof.
  intros Hp Hf. induction p as [a | R op k IH]; [apply Hf |].
  destruct Hp as [Hop Hk]. unfold mbind, Prog_bind. cbn. split; [done |].
  intros r. apply IH, Hk.
Qed.

Lemma plain_forEach_expireVisit (l : list (string * Entry)) (cnt : Z) :
  plain (forEach expireVisit l cnt).
Proof.
  revert cnt. induction l as [| [fileId entry] l IH]; intros cnt; [done |].
  cbn. split; [done |]. intros now.
  destruct (time.After now (ExpireTime entry)); cbn; [split; [done |]; intros _ |]; apply IH.
Qed.

(** Put, Get, Remove and the two ticks take no load mutex and call no
    storage. *)
Lemma plain_callProg (c : Call) :
  isGetOrLoadIfAbsent c = false -> plain (callProg c).
Proof.
  destruct c as [file | ns g f | ns g f | ns g f | |]; intros Hc; [| | done | | |].
  - cbn. split; [done |]. intros v. split; [done |]. intros _. split; [done |].
    intros [e |]; cbn; [destruct (Empty e || _) |]; cbn; try done;
      (split; [done |]; intros r; split; [done |]; intros now; split; done).
  - cbn. split; [done |]. by intros [e |].
  - cbn. split; [done |]. intros v. split; [done |]. intros _. split; done.
  - cbn. split; [done |]. intros l.
    apply (plain_bind (forEach expireVisit l 0%Z)); [apply plain_forEach_expireVisit |].
    intros cnt. destruct (0 <? cnt)%Z; cbn; repeat (split; [done |]; intros ?); done.
  - cbn. repeat (split; [done |]; intros ?). done.
Qed.

Lemma plain_callsProg (calls : list Call) :
  Forall (λ c, isGetOrLoadIfAbsent c = false) calls -> plain (callsProg calls).
Proof.
  induction 1 as [| c calls Hc _ IH]; [done |].
  cbn [callsProg]. apply plain_bind; [by apply plain_callProg | done].
Qed.

(** A step of a plain program leaves the mutexes and the storage calls as
    they are, and a plain program that has not returned can step. *)
Lemma plain_step {A : Type} (p p' : Prog A) (w w' : World) :
  plain p ->
  thread_step p w = Some (p', w') ->
  plain p'
  ∧ fileLoadLocks (fc w') = fileLoadLocks (fc w)
  ∧ storageInFlight w' = storageInFlight w
  ∧ storageCalls w' = storageCalls w.
Proof.
  destruct p as [a | R op k]; [done |]. cbn. intros [Hop Hk] Hstep.
  destruct op; cbn in Hop, Hstep; try done;
    try (injection Hstep as <- <-; split; [apply Hk | done]).
  rewrite Hop in Hstep. injection Hstep as <- <-. split; [apply Hk | done].
Qed.

Lemma plain_progress {A : Type} (p : Prog A) (w : World) :
  plain p -> returned p = false -> is_Some (thread_step p w) ∧ thread_panics p w = false.
Proof.
  destruct p as [a | R op k]; [done |]. cbn. intros [Hop _] _.
  destruct op; cbn in Hop |- *; try done; try (split; [by eexists | done]).
  rewrite Hop. split; [by eexists | done].
Qed.

Lemma lockInv_frame (ts : list Thread) (w w' : World) :
  fileLoadLocks (fc w') = fileLoadLocks (fc w) ->
  storageInFlight w' = storageInFlight w ->
  storageCalls w' = storageCalls w ->
  lockInv ts w -> lockInv ts w'.
Proof.
  intros Hlocks Hflight Hcalls [H1 H2 H3 H4 H5].
  split; rewrite ?Hlocks, ?Hflight, ?Hcalls; done.
Qed.

Lemma system_rtc {B : Type}
    (x y : list (Prog (option Entry * option error)) * list (Prog B) * World)
    (ts : list Thread) :
  rtc system_step x y ->
  tracks x.1.1 ts -> lockInv ts x.2 -> Forall plain x.1.2 ->
  ∃ ts', tracks y.1.1 ts' ∧ ts'.*1 = ts.*1 ∧ lockInv ts' y.2 ∧ Forall plain y.1.2.
Proof.
  intros Hrtc. revert ts.
  induction Hrtc as [x | x y z Hstep _ IH]; intros ts Htr Hlock Hplain; [by exists ts |].
  inversion Hstep as [pool pool' rest w w' Hpool | pool rest rest' w w' Hpool]; subst;
    cbn [fst snd] in *.
  - destruct (tracks_step _ _ _ _ _ Htr Hpool) as (ts1 & Hs1 & Htr1).
    destruct (IH ts1 Htr1) as (ts' & Htr' & Hkeys & Hlock' & Hplain'); [| done |].
    { by eapply lockInv_step. }
    exists ts'. split; [done |]. split; [| done].
    rewrite Hkeys. by eapply stages_step_keys.
  - inversion Hpool as [rest0 w0 i p p' w1 Hp Hth]; subst.
    destruct (plain_step p p' w w') as (Hp' & Hlocks & Hflight & Hcalls); [| done |].
    { by eapply Forall_lookup_1. }
    apply (IH ts); [done | by eapply lockInv_frame |].
    apply Forall_insert; done.
Qed.

(** The calls of such a goroutine, run alone, are the history [runCalls]
    runs. *)
Lemma run_callsProg (calls : list Call) (w : World) :
  exec (callsProg calls) w = runCalls calls w.
Proof.
  revert w. induction calls as [| c calls IH]; intros w; [done |].
  cbn [callsProg runCalls]. rewrite run_bind.
  destruct (exec (callProg c) w) as [[] w1 | |]; [apply IH | done | done].
Qed.

Lemma run_system_rtc {A B : Type} (sched : list (nat + nat))
    (pool pool' : list (Prog A)) (rest rest' : list (Prog B)) (w w' : World) :
  run_system sched pool rest w = Some (pool', rest', w') ->
  rtc system_step (pool, rest, w) (pool', rest', w').
Proof.
  revert pool rest w. induction sched as [| [i | j] sched IH]; intros pool rest w Hrun;
    cbn in Hrun.
  - injection Hrun as -> -> ->. apply rtc_refl.
  - destruct (pool !! i) as [p |] eqn:Hp; [| done].
    destruct (thread_step p w) as [[p' w1] |] eqn:Hstep; [| done].
    eapply rtc_l; [| by apply IH]. constructor. by econstructor.
  - destruct (rest !! j) as [q |] eqn:Hq; [| done].
    destruct (thread_step q w) as [[q' w1] |] eqn:Hstep; [| done].
    eapply rtc_l; [| by apply IH]. constructor. by econstructor.
Qed.

(** X17: loads stay exclusive among the other calls.  N goroutines call
    GetOrLoadIfAbsent while other goroutines make Put, Get and Remove calls
    and run sweeper and status ticks, each any number of them in a row, all
    interleaved in any way, from a world with no mutex held and no storage
    call in flight.  In every state reached: at most one storage call is in
    flight per file id; no goroutine panics; a goroutine of the other calls
    that has not finished can always take its next step (Put, Get, Remove and
    the ticks never wait); and a caller of GetOrLoadIfAbsent that cannot step
    waits for the mutex of its own file id, held by another caller that can
    step. *)
Theorem loads_exclusive_among_other_calls
    (keys : list FileKey) (others : list (list Call)) (w0 : World)
    (pool : list (Prog (option Entry * option error))) (rest : list (Prog unit))
    (w : World) :
  quiescent w0 -> storageInFlight w0 = [] ->
  Forall (Forall (λ c, isGetOrLoadIfAbsent c = false)) others ->
  rtc system_step (callers keys, callsProg <$> others, w0) (pool, rest, w) ->
  (NoDup (storageInFlight w)
   ∧ ∀ c1 c2, c1 ∈ storageInFlight w -> c2 ∈ storageInFlight w ->
       keyId c1.2 = keyId c2.2 -> c1 = c2)
  ∧ (∀ i p, pool !! i = Some p -> thread_panics p w = false)
  ∧ (∀ j q, rest !! j = Some q -> returned q = false ->
       is_Some (thread_step q w) ∧ thread_panics q w = false)
  ∧ (∀ i p k, pool !! i = Some p -> keys !! i = Some k ->
       returned p = false -> thread_step p w = None ->
       ∃ j q k', j ≠ i ∧ pool !! j = Some q ∧ keys !! j = Some k'
         ∧ keyId k' = keyId k ∧ is_Some (thread_step q w)).
Proof.
  intros Hq Hflight Hothers Hrtc.
  destruct (system_rtc _ _ (startStages keys) Hrtc)
    as (ts & Htr & Hkeys & Hlock & Hplain); cbn [fst snd] in *.
  { apply tracks_callers. }
  { by apply lockInv_start. }
  { apply Forall_fmap. eapply Forall_impl; [exact Hothers |].
    intros calls. apply plain_callsProg. }
  assert (Hkeys' : ts.*1 = keys).
  { rewrite Hkeys. unfold startStages. rewrite <- list_fmap_compose. apply list_fmap_id. }
  split; [| split; [| split]].
  - split.
    + eapply NoDup_fmap_1, (flight_nodup _ _ Hlock).
    + intros c1 c2. by apply lockInv_one_in_flight with ts.
  - intros i p Hp. destruct (thread_panics p w) eqn:Hpanic; [| done].
    destruct (Forall2_lookup_l _ _ _ _ _ Htr Hp) as ([k s] & Ht & Hf).
    exfalso. apply (lockInv_no_panic _ _ _ _ _ Hlock Ht). by eapply follows_panic.
  - intros j q Hj Hrun. apply plain_progress; [| done]. by eapply Forall_lookup_1.
  - intros i p k Hp Hk Hrun Hstuck.
    destruct (Forall2_lookup_l _ _ _ _ _ Htr Hp) as ([k0 s] & Ht & Hf).
    rewrite (keys_lookup _ _ _ _ _ Hkeys' Ht) in Hk. injection Hk as ->.
    destruct (follows_stuck _ _ _ _ Hf Hstuck) as [Hret | [Hblocked | Hpanic]].
    + congruence.
    + destruct (lockInv_blocked _ _ _ _ _ Hlock Ht Hblocked)
        as [[r ->] | (_ & j & k' & s' & Hne & Hj & Hid & _ & s'' & w' & Hs')].
      { apply follows_returned in Hf as [Hret _].
        assert (returned p = true) by (apply Hret; by eexists). congruence. }
      destruct (Forall2_lookup_r _ _ _ _ _ Htr Hj) as (q & Hq' & Hfq).
      destruct (follows_progress _ _ _ _ _ _ Hfq Hs') as [q' Hstep].
      exists j, q, k'. split; [done |]. split; [done |].
      split; [by eapply keys_lookup |]. split; [done | by eexists].
    + by destruct (lockInv_no_panic _ _ _ _ _ Hlock Ht).
Qed.

(** X18: every load mutex is released.  N goroutines call
    GetOrLoadIfAbsent beside goroutines that make the other calls, as above.
    In a state where all the callers of GetOrLoadIfAbsent have returned, with
    an entry or with a storage error, no load mutex is held and no storage
    call is in flight, whatever the other goroutines are doing. *)
Theorem mutexes_released
    (keys : list FileKey) (others : list (list Call)) (w0 : World)
    (pool : list (Prog (option Entry * option error))) (rest : list (Prog unit))
    (w : World) :
  quiescent w0 -> storageInFlight w0 = [] ->
  Forall (Forall (λ c, isGetOrLoadIfAbsent c = false)) others ->
  rtc system_step (callers keys, callsProg <$> others, w0) (pool, rest, w) ->
  (∀ i p, pool !! i = Some p -> returned p = true) ->
  quiescent w ∧ storageInFlight w = [].
Proof.
  intros Hq Hflight Hothers Hrtc Hall.
  destruct (system_rtc _ _ (startStages keys) Hrtc)
    as (ts & Htr & _ & Hlock & _); cbn [fst snd] in *.
  { apply tracks_callers. }
  { by apply lockInv_start. }
  { apply Forall_fmap. eapply Forall_impl; [exact Hothers |].
    intros calls. apply plain_callsProg. }
  assert (Hret : ∀ i k s, ts !! i = Some (k, s) -> ∃ r, s = Returned r).
  { intros i k s Ht. destruct (Forall2_lookup_r _ _ _ _ _ Htr Ht) as (p & Hp & Hf).
    apply follows_returned in Hf as [Hiff _]. apply Hiff. by eapply Hall. }
  split.
  - intros id Hheld. pose proof (lock_count _ _ Hlock id) as Hcount.
    rewrite bool_decide_eq_true_2 in Hcount by done.
    destruct (count_pos (holdsFor id) ts) as (i & [k s] & Ht & Hholds); [lia |].
    destruct (Hret i k s Ht) as [r ->].
    unfold holdsFor in Hholds. cbn in Hholds. by rewrite andb_false_r in Hholds.
  - destruct (storageInFlight w) as [| c l] eqn:Hl; [done |].
    destruct (flight_threads _ _ Hlock c) as [i Ht]; [rewrite Hl; by left |].
    by destruct (Hret i _ _ Ht) as [r ?].
Qed.

End Cache.

(** ** Concrete runs *)

Lemma quiescent_initWorld : quiescent initWorld.
Proof. intros key. cbn. by rewrite lookup_empty. Qed.

(** From a new cache: Put(v=1,"a"), Put(v=1,"b"), Put(v=2,"b") on one key. *)
Lemma Put_overwrite_rule_witness :
  files (fc initWorld) !! GenFileId "ns" "group" "app.yaml" = None
  ∧ ∃ w1 w2 w3,
      run demoClock demoRand emptyStore
        (Put (release "ns" "group" "app.yaml" "a" "0cc175b9" 1)) initWorld = Done tt w1
      ∧ run demoClock demoRand emptyStore
          (Put (release "ns" "group" "app.yaml" "b" "92eb5ffe" 1)) w1 = Done tt w2
      ∧ run demoClock demoRand emptyStore
          (Put (release "ns" "group" "app.yaml" "b" "92eb5ffe" 2)) w2 = Done tt w3
      ∧ Content <$> files (fc w1) !! GenFileId "ns" "group" "app.yaml" = Some "a"
      ∧ files (fc w2) = files (fc w1)
      ∧ Content <$> files (fc w3) !! GenFileId "ns" "group" "app.yaml" = Some "b".
Proof.
  assert (Hnone : files (fc initWorld) !! GenFileId "ns" "group" "app.yaml" = None)
    by reflexivity.
  split; [exact Hnone |].
  exact (proj2 (proj2 (Put_overwrite_rule demoClock demoRand emptyStore
    (release "ns" "group" "app.yaml" "a" "0cc175b9" 1) initWorld))
    "ns" "group" "app.yaml" "0cc175b9" "92eb5ffe" Hnone).
Defined.

(** A stale entry is still a hit. *)
Lemma hit_ignores_expiry_witness :
  time.After (demoClock (clockReads staleWorld)) (ExpireTime staleEntry) = true
  ∧ files (fc staleWorld) !! GenFileId "ns" "group" "app.yaml" = Some staleEntry
  ∧ run demoClock demoRand emptyStore (Get "ns" "group" "app.yaml") staleWorld
      = Done (Some staleEntry) staleWorld.
Proof.
  assert (Hhit : files (fc staleWorld) !! GenFileId "ns" "group" "app.yaml" = Some staleEntry)
    by (vm_compute; reflexivity).
  split; [vm_compute; reflexivity |]. split; [exact Hhit |].
  exact (proj1 (hit_ignores_expiry demoClock demoRand emptyStore
    "ns" "group" "app.yaml" staleWorld staleEntry Hhit)).
Defined.

(** A failing storage against a new cache. *)
Lemma GetOrLoadIfAbsent_storage_error_witness :
  files (fc initWorld) !! GenFileId "ns" "group" "app.yaml" = None
  ∧ quiescent initWorld
  ∧ failingStore (length (storageCalls initWorld)) "ns" "group" "app.yaml"
      = (None, Some "storage unavailable")
  ∧ ∃ w', run demoClock demoRand failingStore (GetOrLoadIfAbsent "ns" "group" "app.yaml")
            initWorld = Done (None, Some "storage unavailable") w'
      ∧ files (fc w') = files (fc initWorld).
Proof.
  split; [reflexivity |]. split; [exact quiescent_initWorld |]. split; [reflexivity |].
  destruct (GetOrLoadIfAbsent_storage_error demoClock demoRand failingStore
    "ns" "group" "app.yaml" initWorld None "storage unavailable"
    eq_refl quiescent_initWorld eq_refl) as (w' & Hrun & Hfiles & _).
  exists w'. split; [exact Hrun | exact Hfiles].
Defined.

(** A key storage does not know, against a new cache. *)
Lemma GetOrLoadIfAbsent_absent_witness :
  files (fc initWorld) !! GenFileId "ns" "group" "app.yaml" = None
  ∧ quiescent initWorld
  ∧ emptyStore (length (storageCalls initWorld)) "ns" "group" "app.yaml" = (None, None)
  ∧ ∃ e w', run demoClock demoRand emptyStore (GetOrLoadIfAbsent "ns" "group" "app.yaml")
              initWorld = Done (Some e, None) w'
      ∧ Empty e = true
      ∧ storageCalls w' = [("ns", "group", "app.yaml")].
Proof.
  split; [reflexivity |]. split; [exact quiescent_initWorld |]. split; [reflexivity |].
  destruct (GetOrLoadIfAbsent_absent demoClock demoRand emptyStore
    "ns" "group" "app.yaml" initWorld eq_refl quiescent_initWorld eq_refl)
    as (_ & Hempty & _ & w' & Hrun & _ & Hcalls & _).
  eexists _, w'. split; [exact Hrun |]. split; [exact Hempty | exact Hcalls].
Defined.

(** A Put into a new cache expires between 60 and 70 minutes later. *)
Lemma fresh_entry_expiry_witness :
  ∃ w' e,
    run demoClock demoRand emptyStore
      (Put (release "ns" "group" "app.yaml" "a" "0cc175b9" 1)) initWorld = Done tt w'
    ∧ files (fc w') !! GenFileId "ns" "group" "app.yaml" = Some e
    ∧ jitteredExpiry (demoClock 0) (ExpireTime e).
Proof.
  exact (proj1 (proj2 (proj2 (fresh_entry_expiry demoClock demoRand emptyStore initWorld)))
    (release "ns" "group" "app.yaml" "a" "0cc175b9" 1) eq_refl).
Defined.



(** A record with empty content is stored with Empty = false. *)
Lemma Empty_only_on_placeholders_witness :
  ∃ w' e,
    run demoClock demoRand emptyStore
      (Put (release "ns" "group" "app.yaml" "" "d41d8cd9" 7)) initWorld = Done tt w'
    ∧ files (fc w') !! GenFileId "ns" "group" "app.yaml" = Some e
    ∧ Empty e = false ∧ Content e = "".
Proof.
  exact (proj1 (Empty_only_on_placeholders demoClock demoRand emptyStore)
    (release "ns" "group" "app.yaml" "" "d41d8cd9" 7) initWorld eq_refl).
Defined.

(** Three concurrent callers, two on one key, storage with records: the
    shared key is loaded once and both its callers get the same entry. *)
Lemma stampede_protection_witness :
  quiescent initWorld ∧ storageInFlight initWorld = []
  ∧ ∃ pool w e,
      nsteps (pool_step demoClock demoRand recordStore) (length demoSchedule)
        (callers demoKeys, initWorld) (pool, w)
      ∧ callsFor (keyId demoKey) (storageCalls w) = 1
      ∧ files (fc w) !! keyId demoKey = Some e
      ∧ pool !! 0 = Some (Ret (Some e, None))
      ∧ pool !! 1 = Some (Ret (Some e, None)).
Proof.
  split; [exact quiescent_initWorld |]. split; [reflexivity |].
  assert (Hrun : ∃ e1 e2 w,
    run_schedule demoClock demoRand recordStore demoSchedule (callers demoKeys) initWorld
    = Some ([Ret (Some e1, None); Ret (Some e1, None); Ret (Some e2, None)], w)).
  { vm_compute. eexists _, _, _. reflexivity. }
  destruct Hrun as (e1 & e2 & w & Hrun).
  apply run_schedule_nsteps in Hrun.
  destruct (stampede_protection demoClock demoRand recordStore demoKeys initWorld
    (length demoSchedule) _ w quiescent_initWorld eq_refl Hrun)
    as (_ & _ & _ & _ & _ & Hload).
  destruct (Hload (keyId demoKey)) as [_ Honce].
  { intros n k _. reflexivity. }
  { reflexivity. }
  destruct Honce as (Hcalls & e & Hfiles & Hpool).
  { intros [| [| [| i]]] p Hp; cbn in Hp; [| | | done]; by injection Hp as <-. }
  { exists 0, demoKey. split; reflexivity. }
  eexists _, w, e. split; [exact Hrun |]. split; [exact Hcalls |].
  split; [exact Hfiles |]. split.
  - apply (Hpool 0 demoKey); reflexivity.
  - apply (Hpool 1 demoKey); reflexivity.
Defined.

(** Two concurrent callers for one key with no cached entry, storage that
    fails: both have returned, and storage was called twice for the key. *)
Lemma stampede_counterexample :
  files (fc initWorld) !! keyId demoKey = None
  ∧ ∃ pool w,
      nsteps (pool_step demoClock demoRand failingStore) (length failSchedule)
        (callers [demoKey; demoKey], initWorld) (pool, w)
      ∧ pool = [Ret (None, Some "storage unavailable");
                Ret (None, Some "storage unavailable")]
      ∧ storageCalls w = [demoKey; demoKey]
      ∧ callsFor (keyId demoKey) (storageCalls w) = 2
      ∧ callsFor (keyId demoKey) (storageCalls w)
          ≠ callsFor (keyId demoKey) (storageCalls initWorld) + 1.
Proof.
  split; [reflexivity |].
  assert (Hrun : ∃ w,
    run_schedule demoClock demoRand failingStore failSchedule
      (callers [demoKey; demoKey]) initWorld
    = Some ([Ret (None, Some "storage unavailable");
             Ret (None, Some "storage unavailable")], w)
    ∧ storageCalls w = [demoKey; demoKey]).
  { vm_compute. eexists. split; reflexivity. }
  destruct Hrun as (w & Hrun & Hcalls).
  eexists _, w. split; [by apply run_schedule_nsteps |]. split; [done |].
  split; [done |]. rewrite Hcalls. split; [vm_compute; reflexivity |].
  vm_compute. discriminate.
Qed.

(** ** Concrete runs of the composed calls *)

Lemma quiescent_freshWorld : quiescent freshWorld.
Proof. intros key. cbn. by rewrite lookup_empty. Qed.

(** Put(v=1) and Put(v=2) on one key of a new cache, in both orders. *)
Lemma Put_order_irrelevant_witness :
  fileIdOf releaseV1 = fileIdOf releaseV2
  ∧ model.Version releaseV1 ≠ model.Version releaseV2
  ∧ ∃ wab wba,
      run demoClock demoRand emptyStore (Put releaseV1;; Put releaseV2) initWorld
        = Done tt wab
      ∧ run demoClock demoRand emptyStore (Put releaseV2;; Put releaseV1) initWorld
          = Done tt wba
      ∧ payload <$> files (fc wab) !! fileIdOf releaseV1 = Some (payloadOf releaseV2)
      ∧ payload <$> files (fc wba) !! fileIdOf releaseV1 = Some (payloadOf releaseV2).
Proof.
  assert (Hne : model.Version releaseV1 ≠ model.Version releaseV2) by (intros [=]).
  split; [reflexivity |]. split; [exact Hne |].
  destruct (Put_order_irrelevant demoClock demoRand emptyStore releaseV1 releaseV2 initWorld
    eq_refl Hne) as (wab & wba & Hab & Hba & Heq & Hmax).
  exists wab, wba. split; [exact Hab |]. split; [exact Hba |].
  rewrite <- Heq. split; exact (Hmax eq_refl).
Defined.

(** Remove of a key cached at version 1, then Put(v=1) again, or a load. *)
Lemma Remove_resets_key_witness :
  quiescent freshWorld
  ∧ ∃ w1,
      run demoClock demoRand recordStore (Remove "ns" "group" "app.yaml") freshWorld
        = Done tt w1
      ∧ (∃ w2, run demoClock demoRand recordStore (Put releaseV1) w1 = Done tt w2
           ∧ payload <$> files (fc w2) !! GenFileId "ns" "group" "app.yaml"
               = Some (payloadOf releaseV1))
      ∧ ∃ r w2,
          run demoClock demoRand recordStore (GetOrLoadIfAbsent "ns" "group" "app.yaml") w1
            = Done r w2
          ∧ storageCalls w2 = [("ns", "group", "app.yaml")].
Proof.
  split; [exact quiescent_freshWorld |].
  destruct (Remove_resets_key demoClock demoRand recordStore "ns" "group" "app.yaml"
    freshWorld quiescent_freshWorld) as (w1 & Hrun & Hput & w2 & Hload & Hcalls).
  exists w1. split; [exact Hrun |]. split; [exact (Hput releaseV1 eq_refl) |].
  eexists _, w2. split; [exact Hload | exact Hcalls].
Defined.

(** A load of a record storage has, into a new cache. *)
Lemma GetOrLoadIfAbsent_record_witness :
  files (fc initWorld) !! GenFileId "ns" "group" "app.yaml" = None
  ∧ quiescent initWorld
  ∧ recordStore (length (storageCalls initWorld)) "ns" "group" "app.yaml"
      = (Some storedRelease, None)
  ∧ ∃ e w',
      run demoClock demoRand recordStore (GetOrLoadIfAbsent "ns" "group" "app.yaml")
        initWorld = Done (Some e, None) w'
      ∧ payload e = payloadOf storedRelease
      ∧ storageCalls w' = [("ns", "group", "app.yaml")]
      ∧ run demoClock demoRand recordStore (Get "ns" "group" "app.yaml") w'
          = Done (Some e) w'.
Proof.
  split; [reflexivity |]. split; [exact quiescent_initWorld |]. split; [reflexivity |].
  destruct (GetOrLoadIfAbsent_record demoClock demoRand recordStore
    "ns" "group" "app.yaml" initWorld storedRelease eq_refl quiescent_initWorld eq_refl)
    as (w' & Hrun & Hp & _ & Hcalls & _ & Hget & _).
  eexists _, w'. split; [exact Hrun |]. split; [exact Hp |].
  split; [exact Hcalls | exact Hget].
Defined.

(** A load into a new cache returns. *)
Lemma GetOrLoadIfAbsent_returns_witness :
  quiescent initWorld ∧ storageInFlight initWorld = []
  ∧ ∃ r w',
      run demoClock demoRand failingStore (GetOrLoadIfAbsent "ns" "group" "app.yaml")
        initWorld = Done r w'
      ∧ quiescent w' ∧ storageInFlight w' = [].
Proof.
  split; [exact quiescent_initWorld |]. split; [reflexivity |].
  destruct (GetOrLoadIfAbsent_returns demoClock demoRand failingStore
    "ns" "group" "app.yaml" initWorld quiescent_initWorld eq_refl)
    as (r & w' & Hrun & Hq & Hflight & _).
  exists r, w'. split; [exact Hrun |]. split; [exact Hq | exact Hflight].
Defined.

(** Put(v=2) over the entry at version 1. *)
Lemma entry_replaced_only_by_Put_witness :
  ∃ w' e',
    run demoClock demoRand emptyStore (callProg (CallPut releaseV2)) freshWorld = Done tt w'
    ∧ files (fc freshWorld) !! keyId demoKey = Some freshlyPut
    ∧ files (fc w') !! keyId demoKey = Some e'
    ∧ (Version freshlyPut <= Version e')%N.
Proof.
  assert (Hrun : ∃ w' e',
    run demoClock demoRand emptyStore (callProg (CallPut releaseV2)) freshWorld = Done tt w'
    ∧ files (fc w') !! keyId demoKey = Some e').
  { eexists _, _. split; [vm_compute; reflexivity |]. vm_compute. reflexivity. }
  destruct Hrun as (w' & e' & Hrun & He').
  assert (He : files (fc freshWorld) !! keyId demoKey = Some freshlyPut)
    by (vm_compute; reflexivity).
  exists w', e'. split; [exact Hrun |]. split; [exact He |]. split; [exact He' |].
  exact (proj2 (entry_replaced_only_by_Put demoClock demoRand emptyStore
    (CallPut releaseV2) freshWorld w' (keyId demoKey) freshlyPut e' Hrun He He') eq_refl).
Defined.

(** A Remove is what makes the entry of [freshWorld] go. *)
Lemma entry_lifecycle_witness :
  ∃ w',
    run demoClock demoRand emptyStore (callProg (CallRemove "ns" "group" "app.yaml"))
      freshWorld = Done tt w'
    ∧ files (fc freshWorld) !! keyId demoKey = Some freshlyPut
    ∧ files (fc w') !! keyId demoKey = None
    ∧ ∃ namespace group fileName,
        GenFileId namespace group fileName = keyId demoKey
        ∧ CallRemove "ns" "group" "app.yaml" = CallRemove namespace group fileName.
Proof.
  assert (Hrun : ∃ w',
    run demoClock demoRand emptyStore (callProg (CallRemove "ns" "group" "app.yaml"))
      freshWorld = Done tt w'
    ∧ files (fc w') !! keyId demoKey = None).
  { eexists. split; [vm_compute; reflexivity |]. vm_compute. reflexivity. }
  destruct Hrun as (w' & Hrun & Hgone).
  assert (He : files (fc freshWorld) !! keyId demoKey = Some freshlyPut)
    by (vm_compute; reflexivity).
  pose proof (proj2 (entry_lifecycle demoClock demoRand emptyStore
    (CallRemove "ns" "group" "app.yaml") freshWorld w' (keyId demoKey) Hrun)
    freshlyPut He Hgone) as Hwhy.
  exists w'. split; [exact Hrun |]. split; [exact He |]. split; [exact Hgone |].
  destruct Hwhy as [(ns & g & f & Hc & Hid) | [Hc _]]; [| discriminate Hc].
  exists ns, g, f. split; [exact Hid | exact Hc].
Defined.

(** The entry of [freshWorld], written at the first clock reading, survives
    a tick that reads the clock a second later. *)
Lemma entry_lifetime_witness :
  ExpireTime freshlyPut = time.Add (demoClock 0) (ttlOf (demoRand 0))
  ∧ files (fc freshWorld) !! keyId demoKey = Some freshlyPut
  ∧ ∃ w',
      run demoClock demoRand emptyStore clearExpireEntryTick freshWorld = Done tt w'
      ∧ files (fc w') !! keyId demoKey = Some freshlyPut.
Proof.
  assert (Hlookup : files (fc freshWorld) !! keyId demoKey = Some freshlyPut)
    by (vm_compute; reflexivity).
  split; [reflexivity |]. split; [exact Hlookup |].
  destruct (entry_lifetime demoClock demoRand emptyStore (keyId demoKey) freshlyPut
    (demoClock 0) (demoRand 0) freshWorld eq_refl Hlookup) as (w' & Hrun & Hkeep & _).
  exists w'. split; [exact Hrun |]. apply Hkeep.
  assert (size (files (fc freshWorld)) = 1) as -> by (vm_compute; reflexivity).
  intros i Hi. change (clockReads freshWorld) with 0.
  unfold demoClock, time.Hour, time.Minute, time.Second. lia.
Defined.

(** The mutex a load registered is still there after a Remove and a tick. *)
Lemma lock_registry_only_grows_witness :
  ∃ w',
    runCalls demoClock demoRand recordStore demoHistory initWorld = Done tt w'
    ∧ ∀ id, is_Some (fileLoadLocks (fc w') !! id) ->
        is_Some (fileLoadLocks (fc initWorld) !! id)
        ∨ ∃ namespace group fileName,
            CallGetOrLoadIfAbsent namespace group fileName ∈ demoHistory
            ∧ id = GenFileId namespace group fileName.
Proof.
  assert (Hrun : ∃ w',
    runCalls demoClock demoRand recordStore demoHistory initWorld = Done tt w').
  { vm_compute. eexists. reflexivity. }
  destruct Hrun as [w' Hrun]. exists w'. split; [exact Hrun |].
  exact (proj2 (lock_registry_only_grows demoClock demoRand recordStore
    demoHistory initWorld w' Hrun)).
Defined.

(** The counters after the demo history. *)
Lemma counters_account_witness :
  (Z.of_nat (length demoHistory) < 2 ^ 63)%Z
  ∧ ∃ w',
      runCalls demoClock demoRand recordStore demoHistory initWorld = Done tt w'
      ∧ vars w' putCnt = 1%Z ∧ vars w' getCnt = 1%Z ∧ vars w' removeCnt = 1%Z
      ∧ vars w' loadCnt = Z.of_nat (length (storageCalls w')).
Proof.
  assert (Hlen : (Z.of_nat (length demoHistory) < 2 ^ 63)%Z) by (vm_compute; reflexivity).
  split; [exact Hlen |].
  destruct (counters_account demoClock demoRand recordStore demoHistory Hlen)
    as (w' & Hrun & Hput & Hget & Hrem & Hload & _).
  exists w'. split; [exact Hrun |]. split; [exact Hput |]. split; [exact Hget |].
  split; [exact Hrem | exact Hload].
Defined.

(** Within one namespace and group, equal keys mean equal file names. *)
Lemma GenFileId_collision_two_parts_witness :
  GenFileId "ns" "a+b" "app.yaml" = GenFileId "ns" "a+b" "app.yaml"
  ∧ ("ns" = "ns" -> "a+b" = "a+b" -> "app.yaml" = "app.yaml").
Proof.
  split; [reflexivity |].
  exact (proj1 (GenFileId_collision_two_parts "ns" "a+b" "app.yaml" "ns" "a+b" "app.yaml"
    eq_refl)).
Defined.

(** Put(v=2) and Put(v=1) race on a new cache: version 1 is what stays. *)
Lemma Put_race_witness :
  fileIdOf releaseV2 = fileIdOf releaseV1
  ∧ putAccepts (files (fc initWorld) !! fileIdOf releaseV1) releaseV1 = true
  ∧ (model.Version releaseV1 < model.Version releaseV2)%N
  ∧ ∃ w',
      rtc (pool_step demoClock demoRand emptyStore)
        ([Put releaseV2; Put releaseV1], initWorld) ([Ret tt; Ret tt], w')
      ∧ payload <$> files (fc w') !! fileIdOf releaseV1 = Some (payloadOf releaseV1).
Proof.
  split; [reflexivity |]. split; [reflexivity |]. split; [reflexivity |].
  exact (Put_race demoClock demoRand emptyStore releaseV2 releaseV1 initWorld
    eq_refl eq_refl).
Defined.

(** A load of version 3 from storage and a Put of version 7: version 3 is
    what stays. *)
Lemma load_overwrites_concurrent_Put_witness :
  fileIdOf releaseV7 = GenFileId "ns" "group" "app.yaml"
  ∧ files (fc initWorld) !! GenFileId "ns" "group" "app.yaml" = None
  ∧ fileLoadLocks (fc initWorld) !! GenFileId "ns" "group" "app.yaml" ≠ Some true
  ∧ recordStore (length (storageCalls initWorld)) "ns" "group" "app.yaml"
      = (Some storedRelease, None)
  ∧ (model.Version storedRelease < model.Version releaseV7)%N
  ∧ ∃ w',
      rtc (pool_step demoClock demoRand recordStore)
        ([callProg (CallGetOrLoadIfAbsent "ns" "group" "app.yaml");
          callProg (CallPut releaseV7)], initWorld)
        ([Ret tt; Ret tt], w')
      ∧ payload <$> files (fc w') !! GenFileId "ns" "group" "app.yaml"
          = Some (payloadOf storedRelease).
Proof.
  split; [reflexivity |]. split; [reflexivity |].
  split; [exact (quiescent_initWorld _) |]. split; [reflexivity |].
  split; [reflexivity |].
  destruct (load_overwrites_concurrent_Put demoClock demoRand recordStore
    "ns" "group" "app.yaml" storedRelease releaseV7 initWorld
    eq_refl eq_refl (quiescent_initWorld _) eq_refl) as (w' & Hrtc & Hp & _).
  exists w'. split; [exact Hrtc | exact Hp].
Defined.

(** The sweeper finds the stale entry expired, Put(v=2) replaces it, the
    sweeper deletes the key. *)
Lemma sweeper_deletes_concurrent_Put_witness :
  files (fc staleOnly) = {[fileIdOf releaseV2 := staleEntry]}
  ∧ time.After (demoClock (clockReads staleOnly)) (ExpireTime staleEntry) = true
  ∧ putAccepts (Some staleEntry) releaseV2 = true
  ∧ ∃ w',
      rtc (pool_step demoClock demoRand emptyStore)
        ([clearExpireEntryTick; Put releaseV2], staleOnly) ([Ret tt; Ret tt], w')
      ∧ files (fc w') = ∅
      ∧ vars w' putCnt = 1%Z.
Proof.
  assert (Hexp : time.After (demoClock (clockReads staleOnly)) (ExpireTime staleEntry) = true)
    by (vm_compute; reflexivity).
  split; [reflexivity |]. split; [exact Hexp |]. split; [reflexivity |].
  destruct (sweeper_deletes_concurrent_Put demoClock demoRand emptyStore
    releaseV2 staleEntry staleOnly eq_refl Hexp eq_refl) as (w' & Hrtc & Hfiles & Hput & _).
  exists w'. split; [exact Hrtc |]. split; [exact Hfiles | exact Hput].
Defined.

(** Two callers of a cached key beside a caller of another key. *)
Lemma cached_key_fast_path_witness :
  files (fc staleWorld) !! keyId demoKey = Some staleEntry
  ∧ ∃ pool w,
      rtc (pool_step demoClock demoRand recordStore) (callers demoKeys, staleWorld) (pool, w)
      ∧ pool !! 0 = Some (Ret (Some staleEntry, None))
      ∧ files (fc w) !! keyId demoKey = Some staleEntry
      ∧ callsFor (keyId demoKey) (storageCalls w)
          = callsFor (keyId demoKey) (storageCalls staleWorld).
Proof.
  assert (Hhit : files (fc staleWorld) !! keyId demoKey = Some staleEntry)
    by (vm_compute; reflexivity).
  split; [exact Hhit |].
  assert (Hrun : ∃ pool w,
    run_schedule demoClock demoRand recordStore (replicate 3 0 ++ replicate 2 1)
      (callers demoKeys) staleWorld = Some (pool, w)
    ∧ pool !! 0 = Some (Ret (Some staleEntry, None))).
  { eexists _, _. split; reflexivity. }
  destruct Hrun as (pool & w & Hrun & Hpool).
  apply run_schedule_rtc in Hrun.
  destruct (cached_key_fast_path demoClock demoRand recordStore demoKeys staleWorld
    (keyId demoKey) staleEntry pool w Hhit Hrun) as (Hentry & Hcalls & _).
  exists pool, w. split; [exact Hrun |]. split; [exact Hpool |].
  split; [exact Hentry | exact Hcalls].
Defined.

(** Three callers beside a goroutine that writes and the background tasks:
    one storage call is in flight while the others run. *)
Lemma loads_exclusive_among_other_calls_witness :
  quiescent initWorld ∧ storageInFlight initWorld = []
  ∧ Forall (Forall (λ c, isGetOrLoadIfAbsent c = false)) demoOthers
  ∧ ∃ pool rest w,
      rtc (system_step demoClock demoRand recordStore)
        (callers demoKeys, callsProg <$> demoOthers, initWorld) (pool, rest, w)
      ∧ storageInFlight w = [(0, demoKey)]
      ∧ (∀ i p, pool !! i = Some p -> thread_panics demoClock demoRand recordStore p w = false)
      ∧ ∀ j q, rest !! j = Some q -> returned q = false ->
          is_Some (thread_step demoClock demoRand recordStore q w).
Proof.
  assert (Hothers : Forall (Forall (λ c, isGetOrLoadIfAbsent c = false)) demoOthers)
    by (repeat constructor).
  split; [exact quiescent_initWorld |]. split; [reflexivity |]. split; [exact Hothers |].
  assert (Hflight : flightAfter (run_system demoClock demoRand recordStore inFlightSchedule
    (callers demoKeys) (callsProg <$> demoOthers) initWorld) = [(0, demoKey)])
    by (vm_compute; reflexivity).
  destruct (run_system demoClock demoRand recordStore inFlightSchedule
    (callers demoKeys) (callsProg <$> demoOthers) initWorld)
    as [[[pool rest] w] |] eqn:Hrun; [| discriminate Hflight].
  apply run_system_rtc in Hrun.
  destruct (loads_exclusive_among_other_calls demoClock demoRand recordStore
    demoKeys demoOthers initWorld pool rest w quiescent_initWorld eq_refl Hothers Hrun)
    as (_ & Hpanic & Hrest & _).
  exists pool, rest, w. split; [exact Hrun |]. split; [exact Hflight |].
  split; [exact Hpanic |]. intros j q Hj Hq. exact (proj1 (Hrest j q Hj Hq)).
Defined.

(** The three callers have all returned while the other goroutines are
    under way: no mutex is held. *)
Lemma mutexes_released_witness :
  quiescent initWorld ∧ storageInFlight initWorld = []
  ∧ Forall (Forall (λ c, isGetOrLoadIfAbsent c = false)) demoOthers
  ∧ ∃ pool rest w,
      rtc (system_step demoClock demoRand recordStore)
        (callers demoKeys, callsProg <$> demoOthers, initWorld) (pool, rest, w)
      ∧ (∀ i p, pool !! i = Some p -> returned p = true)
      ∧ quiescent w ∧ storageInFlight w = [].
Proof.
  assert (Hothers : Forall (Forall (λ c, isGetOrLoadIfAbsent c = false)) demoOthers)
    by (repeat constructor).
  split; [exact quiescent_initWorld |]. split; [reflexivity |]. split; [exact Hothers |].
  assert (Hret : allReturned (run_system demoClock demoRand recordStore returnedSchedule
    (callers demoKeys) (callsProg <$> demoOthers) initWorld) = true)
    by (vm_compute; reflexivity).
  destruct (run_system demoClock demoRand recordStore returnedSchedule
    (callers demoKeys) (callsProg <$> demoOthers) initWorld)
    as [[[pool rest] w] |] eqn:Hrun; [| discriminate Hret].
  apply run_system_rtc in Hrun. cbn in Hret.
  assert (Hall : ∀ i p, pool !! i = Some p -> returned p = true).
  { intros i p Hp. rewrite forallb_forall in Hret. apply Hret.
    apply list_elem_of_In. by eapply list_elem_of_lookup_2. }
  exists pool, rest, w. split; [exact Hrun |]. split; [exact Hall |].
  exact (mutexes_released demoClock demoRand recordStore
    demoKeys demoOthers initWorld pool rest w quiescent_initWorld eq_refl Hothers Hrun Hall).
Defined.
